(** * Stellar Voyager interactive-fiction engine: command interpretation
      and game rules

    A shallow embedding of [CommandParser.js], [GameState.js], [GameRules.js]
    and the command pipeline of [main.js], followed by the properties of the
    natural-language specification that were checked against it.

    Conventions of the embedding.
    - JavaScript strings are [string]s of bytes; [toLowerCase], [trim] and
      the [\s] class are modelled on the ASCII range.
    - An optional JSON field is an [option]; a field that the code only tests
      for truthiness keeps its JavaScript truthiness through [truthy_str] and
      [truthy_opt] (an absent, [null] or empty string is falsy).
    - A JSON object whose key order is observable ([exits], [lockedExits],
      [features], [stateDescriptions]) and the insertion-ordered [Map] of
      item locations are association lists; lookup tables whose order is
      never observed are [gmap]s.
    - Only the own properties of a JSON object are modelled: a lookup never
      reaches [Object.prototype], and keys keep their order of appearance.
    - The mutable [GameState] object is threaded explicitly: an operation of
      the rule engine is an [Act], a function from the state to the new state
      and the narration it sent to the renderer, in emission order. *)

From Stdlib Require Import String Ascii List ZArith NArith Bool Lia.
From stdpp Require Import base gmap strings list.

(** ** JavaScript string primitives *)

Module Js.

Definition dq : string := String (ascii_of_nat 34) EmptyString.
Definition nl : string := String (ascii_of_nat 10) EmptyString.

(** [String.prototype.toLowerCase], ASCII range. *)
Definition lower_ascii (c : ascii) : ascii :=
  let n := N_of_ascii c in
  if ((65 <=? n)%N && (n <=? 90)%N)%bool then ascii_of_N (n + 32) else c.

Fixpoint toLowerCase (s : string) : string :=
  match s with
  | EmptyString => EmptyString
  | String c r => String (lower_ascii c) (toLowerCase r)
  end.

(** The [\s] class and the characters removed by [trim], ASCII range. *)
Definition is_space (c : ascii) : bool :=
  let n := N_of_ascii c in
  ((9 <=? n)%N && (n <=? 13)%N)%bool || (n =? 32)%N.

Fixpoint trimStart (s : string) : string :=
  match s with
  | EmptyString => EmptyString
  | String c r => if is_space c then trimStart r else s
  end.

(** Drops the trailing white space: a suffix made of spaces only vanishes. *)
Fixpoint trimEnd (s : string) : string :=
  match s with
  | EmptyString => EmptyString
  | String c r =>
      match trimEnd r with
      | EmptyString => if is_space c then EmptyString else String c EmptyString
      | r' => String c r'
      end
  end.

Definition trim (s : string) : string := trimEnd (trimStart s).

(** [s.replace(/\s+/g, ' ')]: every maximal run of white space becomes one
    space. [inrun] tells that the previous character was white space. *)
Fixpoint collapse_from (inrun : bool) (s : string) : string :=
  match s with
  | EmptyString => EmptyString
  | String c r =>
      if is_space c
      then if inrun then collapse_from true r
           else String " "%char (collapse_from true r)
      else String c (collapse_from false r)
  end.

Definition collapseWhitespace (s : string) : string := collapse_from false s.

(** [s.split(' ')]: the pieces between single spaces, empty pieces kept. *)
Fixpoint split_acc (cur : string) (s : string) : list string :=
  match s with
  | EmptyString => [cur]
  | String c r =>
      if Ascii.eqb c " "%char then cur :: split_acc EmptyString r
      else split_acc (cur +:+ String c EmptyString) r
  end.

Definition splitSpace (s : string) : list string := split_acc EmptyString s.

(** [arr.join(sep)]. *)
Fixpoint join (sep : string) (l : list string) : string :=
  match l with
  | [] => EmptyString
  | [x] => x
  | x :: r => x +:+ sep +:+ join sep r
  end.

(** [s.includes(sub)]. *)
Fixpoint includes (s sub : string) : bool :=
  String.prefix sub s ||
  match s with
  | EmptyString => false
  | String _ r => includes r sub
  end.

(** [arr.includes(x)] on an array of strings. *)
Definition arrIncludes (l : list string) (x : string) : bool :=
  existsb (String.eqb x) l.

(** Truthiness of a string, and of a field that may be absent. *)
Definition truthy_str (s : string) : bool := negb (String.eqb s EmptyString).

Definition truthy_opt (o : option string) : bool :=
  match o with
  | Some s => truthy_str s
  | None => false
  end.

(** [o || d] where [o] is a string that may be absent. *)
Definition or_else (o : option string) (d : string) : string :=
  match o with
  | Some s => if truthy_str s then s else d
  | None => d
  end.

(** [obj[k]] on a JSON object: the keys of a parsed object are pairwise
    distinct, so the first binding is the binding. *)
Fixpoint obj_get {V : Type} (o : list (string * V)) (k : string) : option V :=
  match o with
  | [] => None
  | (k', v) :: r => if String.eqb k' k then Some v else obj_get r k
  end.

(** [Object.keys(obj)]. *)
Definition obj_keys {V : Type} (o : list (string * V)) : list string :=
  map fst o.

(** [Map.prototype.set]: an existing key keeps its place in the iteration
    order, a new key goes last. *)
Fixpoint map_set {V : Type} (m : list (string * V)) (k : string) (v : V)
  : list (string * V) :=
  match m with
  | [] => [(k, v)]
  | (k', v') :: r =>
      if String.eqb k' k then (k, v) :: r else (k', v') :: map_set r k v
  end.

End Js.

Import Js.

(** ** Content tables ([rooms.json], [items.json], [characters.json],
       [commands.json], [config.json]) *)

(** The event record of [onTake]. *)
Record Event := {
  ev_message : option string;
  ev_setFlag : option string;
  ev_giveItem : option string
}.

Record UseAction := {
  ua_target : option string;
  ua_message : option string;
  ua_setFlag : option string;
  ua_giveItem : option string;
  ua_consume : bool
}.

Record Item := {
  item_id : string;
  item_name : string;
  item_description : string;
  item_shortDescription : option string;
  item_aliases : list string;
  item_takeable : option bool;
  item_visible : option bool;
  item_takeFailMessage : option string;
  item_onTake : option Event;
  item_useActions : list UseAction;
  item_useFailMessage : option string;
  item_stateDescriptions : list (string * string)
}.

Record DialogueNode := {
  node_id : string;
  node_text : string;
  node_setFlag : option string;
  node_giveItem : option string;
  node_nextNode : option string;
  node_loop : option string
}.

Record Character := {
  char_id : string;
  char_name : string;
  char_description : string;
  char_aliases : list string;
  char_defaultGreeting : option string;
  char_dialogue : list DialogueNode
}.

Record LockInfo := {
  requiresItem : option string;
  requiresFlag : option string;
  lock_message : option string
}.

Record Room := {
  room_id : string;
  room_name : string;
  room_description : string;
  room_exits : list (string * string);
  room_lockedExits : list (string * LockInfo);
  room_items : list string;
  room_characters : list string;
  room_features : list (string * string)
}.

Record Objective := {
  obj_flag : string;
  obj_description : string
}.

(** [objectives] is [None] when the field is absent or not an array. *)
Record Config := {
  startingRoom : string;
  title : string;
  introText : option string;
  objectives : option (list Objective);
  victoryText : option string
}.

Record Commands := {
  synonyms : gmap string string;
  directions : gmap string string
}.

Record Content := {
  rooms : list Room;
  items : list Item;
  characters : list Character;
  commands : Commands;
  config : Config
}.

(** What [matchesName] reads of an item or of a character. *)
Class Entity (A : Type) := {
  ent_id : A -> string;
  ent_name : A -> string;
  ent_aliases : A -> list string
}.

#[export] Instance Item_Entity : Entity Item :=
  {| ent_id := item_id; ent_name := item_name; ent_aliases := item_aliases |}.

#[export] Instance Character_Entity : Entity Character :=
  {| ent_id := char_id; ent_name := char_name; ent_aliases := char_aliases |}.

(** ** CommandParser.js *)

Record Command := {
  cmd_verb : string;
  cmd_noun : option string;
  cmd_preposition : option string;
  cmd_target : option string;
  cmd_raw : string;
  cmd_tokens : list string
}.

Module CommandParser.

Definition prepositions : list string :=
  ["on"; "with"; "to"; "in"; "at"; "from"; "into"].

Definition articles : list string := ["the"; "a"; "an"].

Definition normalizeInput (input : string) : string :=
  collapseWhitespace (trim (toLowerCase input)).

Definition tokenize (input : string) : list string :=
  List.filter (fun token => negb (Nat.eqb (String.length token) 0))
              (splitSpace input).

Definition removeArticles (tokens : list string) : list string :=
  List.filter (fun token => negb (arrIncludes articles token)) tokens.

(** [this.verbSynonyms[verb] || verb]. *)
Definition resolveVerbSynonym (c : Commands) (verb : string) : string :=
  or_else (synonyms c !! verb) verb.

(** [this.directionSynonyms[normalizedDirection] || normalizedDirection]. *)
Definition resolveDirection (c : Commands) (direction : string) : string :=
  let normalizedDirection := toLowerCase direction in
  or_else (directions c !! normalizedDirection) normalizedDirection.

(** The index of the first preposition, [None] for the source's [-1]. *)
Fixpoint findPrepositionIndex (tokens : list string) : option nat :=
  match tokens with
  | [] => None
  | t :: r =>
      if arrIncludes prepositions t then Some 0
      else option_map S (findPrepositionIndex r)
  end.

Definition createEmptyCommand (raw : string) : Command :=
  {| cmd_verb := EmptyString; cmd_noun := None; cmd_preposition := None;
     cmd_target := None; cmd_raw := raw; cmd_tokens := [] |}.

(** [tokens.length > 0 ? tokens.join(' ') : null]. *)
Definition joinOrNull (tokens : list string) : option string :=
  match tokens with
  | [] => None
  | _ => Some (join " " tokens)
  end.

(** The triple [{ noun, preposition, target }]. *)
Definition parseNounPhrase (c : Commands) (tokens : list string) (verb : string)
  : option string * option string * option string :=
  match tokens with
  | [] => (None, None, None)
  | first :: _ =>
      if String.eqb verb "go" || String.eqb verb "walk" || String.eqb verb "move"
      then (Some (resolveDirection c first), None, None)
      else
        match findPrepositionIndex tokens with
        | None => (Some (join " " tokens), None, None)
        | Some prepIndex =>
            (joinOrNull (take prepIndex tokens),
             tokens !! prepIndex,
             joinOrNull (drop (S prepIndex) tokens))
        end
  end.

(** Steps 1 to 3 of [parse]: the tokens left after normalisation,
    tokenisation and article removal. *)
Definition cleanTokens (input : string) : list string :=
  removeArticles (tokenize (normalizeInput input)).

Definition parse (c : Commands) (input : string) : Command :=
  if negb (truthy_str input) then createEmptyCommand input
  else
    let normalizedInput := normalizeInput input in
    if String.eqb normalizedInput EmptyString then createEmptyCommand input
    else
      match removeArticles (tokenize normalizedInput) with
      | [] => createEmptyCommand input
      | rawVerb :: remainingTokens =>
          let verb := resolveVerbSynonym c rawVerb in
          let '(noun, preposition, target) :=
            parseNounPhrase c remainingTokens verb in
          {| cmd_verb := verb; cmd_noun := noun;
             cmd_preposition := preposition; cmd_target := target;
             cmd_raw := input; cmd_tokens := rawVerb :: remainingTokens |}
      end.

End CommandParser.

(** ** GameState.js *)

(** A flag holds an arbitrary JSON value; the rule engine itself only ever
    stores [true]. *)
Inductive FlagValue :=
| FBool (b : bool)
| FNum (z : Z)
| FStr (s : string).

Definition truthy_flag (v : option FlagValue) : bool :=
  match v with
  | None => false
  | Some (FBool b) => b
  | Some (FNum z) => negb (Z.eqb z 0)
  | Some (FStr s) => truthy_str s
  end.

Record State := {
  currentRoomId : string;
  inventory : list string;
  flags : gmap string FlagValue;
  visitedRooms : gset string;
  commandHistory : list string;
  historyIndex : Z;
  tempInput : string;
  itemLocations : list (string * string);
  characterDialogueState : gmap string string
}.

Module GameState.

(** [new GameState(config)]. *)
Definition new (cfg : Config) : State :=
  {| currentRoomId := startingRoom cfg;
     inventory := [];
     flags := ∅;
     visitedRooms := ∅;
     commandHistory := [];
     historyIndex := (-1)%Z;
     tempInput := EmptyString;
     itemLocations := [];
     characterDialogueState := ∅ |}.

Definition getCurrentRoom (st : State) : string := currentRoomId st.

Definition setCurrentRoom (roomId : string) (st : State) : State :=
  {| currentRoomId := roomId;
     inventory := inventory st;
     flags := flags st;
     visitedRooms := visitedRooms st;
     commandHistory := commandHistory st;
     historyIndex := historyIndex st;
     tempInput := tempInput st;
     itemLocations := itemLocations st;
     characterDialogueState := characterDialogueState st |}.

Definition hasVisitedRoom (roomId : string) (st : State) : bool :=
  bool_decide (roomId ∈ visitedRooms st).

Definition markRoomVisited (roomId : string) (st : State) : State :=
  {| currentRoomId := currentRoomId st;
     inventory := inventory st;
     flags := flags st;
     visitedRooms := {[ roomId ]} ∪ visitedRooms st;
     commandHistory := commandHistory st;
     historyIndex := historyIndex st;
     tempInput := tempInput st;
     itemLocations := itemLocations st;
     characterDialogueState := characterDialogueState st |}.

Definition getInventory (st : State) : list string := inventory st.

Definition hasItem (itemId : string) (st : State) : bool :=
  arrIncludes (inventory st) itemId.

Definition setItemLocation (itemId location : string) (st : State) : State :=
  {| currentRoomId := currentRoomId st;
     inventory := inventory st;
     flags := flags st;
     visitedRooms := visitedRooms st;
     commandHistory := commandHistory st;
     historyIndex := historyIndex st;
     tempInput := tempInput st;
     itemLocations := map_set (itemLocations st) itemId location;
     characterDialogueState := characterDialogueState st |}.

(** Pushes the item and records its location, unless it is carried already. *)
Definition addItem (itemId : string) (st : State) : State :=
  if arrIncludes (inventory st) itemId then st
  else
    {| currentRoomId := currentRoomId st;
       inventory := inventory st ++ [itemId];
       flags := flags st;
       visitedRooms := visitedRooms st;
       commandHistory := commandHistory st;
       historyIndex := historyIndex st;
       tempInput := tempInput st;
       itemLocations := map_set (itemLocations st) itemId "inventory";
       characterDialogueState := characterDialogueState st |}.

(** [inventory.splice(inventory.indexOf(itemId), 1)]: the first occurrence
    goes, and nothing happens when there is none. *)
Fixpoint spliceFirst (l : list string) (itemId : string) : list string :=
  match l with
  | [] => []
  | x :: r => if String.eqb x itemId then r else x :: spliceFirst r itemId
  end.

(** The location record is left alone. The boolean result of the source is
    dropped: no caller reads it. *)
Definition removeItem (itemId : string) (st : State) : State :=
  {| currentRoomId := currentRoomId st;
     inventory := spliceFirst (inventory st) itemId;
     flags := flags st;
     visitedRooms := visitedRooms st;
     commandHistory := commandHistory st;
     historyIndex := historyIndex st;
     tempInput := tempInput st;
     itemLocations := itemLocations st;
     characterDialogueState := characterDialogueState st |}.

(** One pass over the rooms in order, one [set] per listed item. *)
Definition initializeItemLocations (rs : list Room) (st : State) : State :=
  foldl (fun s room =>
           foldl (fun s' itemId => setItemLocation itemId (room_id room) s')
                 s (room_items room))
        st rs.

Definition getItemLocation (itemId : string) (st : State) : option string :=
  obj_get (itemLocations st) itemId.

(** The ids located in the room, in the iteration order of the map. *)
Definition getItemsInRoom (roomId : string) (st : State) : list string :=
  map fst (List.filter (fun entry => String.eqb (snd entry) roomId)
                       (itemLocations st)).

Definition getFlag (flagName : string) (st : State) : option FlagValue :=
  flags st !! flagName.

Definition setFlag (flagName : string) (value : FlagValue) (st : State) : State :=
  {| currentRoomId := currentRoomId st;
     inventory := inventory st;
     flags := <[ flagName := value ]> (flags st);
     visitedRooms := visitedRooms st;
     commandHistory := commandHistory st;
     historyIndex := historyIndex st;
     tempInput := tempInput st;
     itemLocations := itemLocations st;
     characterDialogueState := characterDialogueState st |}.

Definition hasFlag (flagName : string) (st : State) : bool :=
  truthy_flag (flags st !! flagName).

(** Empty commands are not recorded and leave the cursor alone; a command
    equal to the last entry is not recorded twice. *)
Definition addToHistory (command : string) (st : State) : State :=
  if negb (truthy_str command) || String.eqb (trim command) EmptyString then st
  else
    {| currentRoomId := currentRoomId st;
       inventory := inventory st;
       flags := flags st;
       visitedRooms := visitedRooms st;
       commandHistory :=
         (if bool_decide (last (commandHistory st) = Some command)
          then commandHistory st
          else commandHistory st ++ [command]);
       historyIndex := (-1)%Z;
       tempInput := EmptyString;
       itemLocations := itemLocations st;
       characterDialogueState := characterDialogueState st |}.

Definition getDialogueState (characterId : string) (st : State) : option string :=
  characterDialogueState st !! characterId.

Definition setDialogueState (characterId nodeId : string) (st : State) : State :=
  {| currentRoomId := currentRoomId st;
     inventory := inventory st;
     flags := flags st;
     visitedRooms := visitedRooms st;
     commandHistory := commandHistory st;
     historyIndex := historyIndex st;
     tempInput := tempInput st;
     itemLocations := itemLocations st;
     characterDialogueState := <[ characterId := nodeId ]> (characterDialogueState st) |}.

(** [this.historyIndex = index]. *)
Definition setHistoryIndex (index : Z) (st : State) : State :=
  {| currentRoomId := currentRoomId st;
     inventory := inventory st;
     flags := flags st;
     visitedRooms := visitedRooms st;
     commandHistory := commandHistory st;
     historyIndex := index;
     tempInput := tempInput st;
     itemLocations := itemLocations st;
     characterDialogueState := characterDialogueState st |}.

(** [this.commandHistory[index]], [None] standing for [undefined]. *)
Definition historyAt (index : Z) (st : State) : option string :=
  if (index <? 0)%Z then None else commandHistory st !! Z.to_nat index.

(** The new state and the returned text, [None] standing for [undefined]. *)
Definition navigateHistory (direction : Z) (st : State) : State * option string :=
  let len := Z.of_nat (List.length (commandHistory st)) in
  if (len =? 0)%Z then (st, Some EmptyString)
  else
    let start :=
      if ((historyIndex st =? -1) && (direction =? -1))%Z then len
      else historyIndex st in
    let newIndex := (start + direction)%Z in
    if (newIndex <? 0)%Z then (setHistoryIndex 0 st, historyAt 0 st)
    else if (newIndex >=? len)%Z
    then (setHistoryIndex (-1) st, Some (tempInput st))
    else (setHistoryIndex newIndex st, historyAt newIndex st).

End GameState.

(** ** The presentation sink

    One constructor per renderer method the engine calls. [displayErrorMessage]
    and [displaySuccessMessage] are aliases of [displayError] and
    [displaySuccess]. The side panels ([updateSuggestedCommands],
    [updateStatusPanel]) are recomputed from arguments already present in the
    narration and write nothing back, so they are left out. *)
Inductive Narration :=
| Message (text : string)
| CommandEcho (text : string)
| Error (text : string)
| Success (text : string)
| Warning (text : string)
| SystemMessage (text : string)
| Dialogue (speaker text : string)
| RoomDescription (room : Room) (shown : list Item) (present : list Character)
                  (exits : list (string * string)).

(** ** Operations of the rule engine *)

Definition Act : Type := State -> State * list Narration.

(** A renderer call. *)
Definition emit (n : Narration) : Act := fun st => (st, [n]).

(** A [GameState] mutator. *)
Definition modify (f : State -> State) : Act := fun st => (f st, []).

Definition skip : Act := fun st => (st, []).

(** Sequencing: the second operation runs in the state left by the first. *)
Definition andThen (a b : Act) : Act :=
  fun st =>
    let '(st1, out1) := a st in
    let '(st2, out2) := b st1 in
    (st2, out1 ++ out2).

(** An operation that first reads the current state. *)
Definition withState (f : State -> Act) : Act := fun st => f st st.

Definition when (c : bool) (a : Act) : Act := if c then a else skip.

Declare Scope act_scope.
Delimit Scope act_scope with act.
Bind Scope act_scope with Act.
Notation "a ;; b" := (andThen a b)
  (at level 100, b at level 200, right associativity) : act_scope.

(** [if (o) { f(o) }] on a string that may be absent. *)
Definition truthyValue (o : option string) : option string :=
  match o with
  | Some s => if truthy_str s then Some s else None
  | None => None
  end.

Definition ifTruthy (o : option string) (f : string -> Act) : Act :=
  match truthyValue o with
  | Some s => f s
  | None => skip
  end.

(** ** GameRules.js *)

Module GameRules.

(** The [Map]s built by the constructor: one [set] per entry, in order, so a
    later entry with the same id replaces an earlier one. *)
Definition index_by {A : Type} (key : A -> string) (l : list A) : gmap string A :=
  foldl (fun m x => <[ key x := x ]> m) ∅ l.

Definition roomsById (g : Content) : gmap string Room :=
  index_by room_id (rooms g).

Definition itemsById (g : Content) : gmap string Item :=
  index_by item_id (items g).

Definition charactersById (g : Content) : gmap string Character :=
  index_by char_id (characters g).

Inductive Handler :=
| HLook | HGo | HExamine | HTake | HDrop | HInventory | HTalk | HUse | HHelp
| HQuit.

Definition commandHandlers : list (string * Handler) :=
  [ ("look", HLook); ("l", HLook);
    ("go", HGo); ("walk", HGo); ("move", HGo);
    ("examine", HExamine); ("x", HExamine); ("inspect", HExamine);
    ("take", HTake); ("get", HTake); ("grab", HTake); ("pickup", HTake);
    ("drop", HDrop); ("put", HDrop); ("discard", HDrop);
    ("inventory", HInventory); ("i", HInventory); ("inv", HInventory);
    ("talk", HTalk); ("speak", HTalk); ("chat", HTalk);
    ("use", HUse); ("activate", HUse);
    ("help", HHelp); ("?", HHelp);
    ("quit", HQuit); ("exit", HQuit) ].

(** [this.roomsById.get(currentRoomId) || null]. *)
Definition getCurrentRoom (g : Content) (st : State) : option Room :=
  roomsById g !! GameState.getCurrentRoom st.

Definition validDirections : list string :=
  [ "north"; "south"; "east"; "west";
    "n"; "s"; "e"; "w";
    "northeast"; "northwest"; "southeast"; "southwest";
    "ne"; "nw"; "se"; "sw";
    "up"; "down"; "u"; "d" ].

Definition isDirection (word : string) : bool :=
  arrIncludes validDirections (toLowerCase word).

Definition directionMap : list (string * string) :=
  [ ("n", "north"); ("s", "south"); ("e", "east"); ("w", "west");
    ("ne", "northeast"); ("nw", "northwest");
    ("se", "southeast"); ("sw", "southwest");
    ("u", "up"); ("d", "down") ].

(** [directionMap[direction] || direction]. *)
Definition resolveDirectionSynonym (direction : string) : string :=
  or_else (obj_get directionMap direction) direction.

(** The four tests of [matchesName], in the order of the source. *)
Definition matchesName {A : Type} `{Entity A} (entity : A) (searchName : string)
  : bool :=
  if String.eqb (toLowerCase (ent_name entity)) searchName then true
  else if String.eqb (toLowerCase (ent_id entity)) searchName then true
  else if includes (toLowerCase (ent_name entity)) searchName then true
  else existsb (fun alias => String.eqb (toLowerCase alias) searchName)
               (ent_aliases entity).

(** The loop shared by the three finders: walk the ids in order, skip the
    ids the table does not know, return the first entity whose name
    matches. *)
Fixpoint firstMatch {A : Type} `{Entity A} (table : gmap string A)
    (ids : list string) (name : string) : option A :=
  match ids with
  | [] => None
  | id :: rest =>
      match table !! id with
      | Some entity =>
          if matchesName entity name then Some entity
          else firstMatch table rest name
      | None => firstMatch table rest name
      end
  end.

Definition findItemInInventory (g : Content) (name : string) (st : State)
  : option Item :=
  firstMatch (itemsById g) (GameState.getInventory st) name.

Definition findItemInRoom (g : Content) (name : string) (st : State)
  : option Item :=
  let currentRoomId := GameState.getCurrentRoom st in
  firstMatch (itemsById g) (GameState.getItemsInRoom currentRoomId st) name.

Definition findCharacterInRoom (g : Content) (name : string) (st : State)
  : option Character :=
  match getCurrentRoom g st with
  | None => None
  | Some room => firstMatch (charactersById g) (room_characters room) name
  end.

Definition matchesEntity (g : Content) (entityId searchName : string) : bool :=
  match itemsById g !! entityId with
  | Some item => matchesName item searchName
  | None => false
  end
  ||
  match charactersById g !! entityId with
  | Some character => matchesName character searchName
  | None => false
  end.

(** [item.visible !== false]. *)
Definition isVisible (item : Item) : bool :=
  match item_visible item with
  | Some false => false
  | _ => true
  end.

(** The item objects listed for a room: known items whose visible flag is
    not [false]. *)
Fixpoint lookupVisible (table : gmap string Item) (itemIds : list string)
  : list Item :=
  match itemIds with
  | [] => []
  | itemId :: rest =>
      match table !! itemId with
      | Some item =>
          if isVisible item then item :: lookupVisible table rest
          else lookupVisible table rest
      | None => lookupVisible table rest
      end
  end.

Definition getItemsInRoom (g : Content) (roomId : string) (st : State)
  : list Item :=
  lookupVisible (itemsById g) (GameState.getItemsInRoom roomId st).

Definition getCharactersInRoom (g : Content) (roomId : string)
  : list Character :=
  match roomsById g !! roomId with
  | None => []
  | Some room =>
      omap (fun charId => charactersById g !! charId) (room_characters room)
  end.

Definition checkUnlockCondition (lockedInfo : LockInfo) (st : State) : bool :=
  match truthyValue (requiresItem lockedInfo) with
  | Some itemId => GameState.hasItem itemId st
  | None => true
  end
  &&
  match truthyValue (requiresFlag lockedInfo) with
  | Some flagName => truthy_flag (GameState.getFlag flagName st)
  | None => true
  end.

Definition displayRoomDescription (g : Content) (room : Room) : Act :=
  withState (fun st =>
    emit (RoomDescription room
            (getItemsInRoom g (room_id room) st)
            (getCharactersInRoom g (room_id room))
            (room_exits room))).

(** The description followed by the overlays whose flag is truthy, each on a
    new line, in the order of the table. *)
Definition itemDescriptionText (item : Item) (st : State) : string :=
  foldl (fun description entry =>
           if truthy_flag (GameState.getFlag (fst entry) st)
           then description +:+ nl +:+ snd entry
           else description)
        (item_description item) (item_stateDescriptions item).

Definition displayItemDescription (item : Item) : Act :=
  withState (fun st => emit (Message (itemDescriptionText item st))).

Definition displayCharacterDescription (character : Character) : Act :=
  emit (Message (char_description character)).

Definition showAvailableExits (room : Room) : Act :=
  match obj_keys (room_exits room) with
  | [] => skip
  | keys => emit (Message ("Available exits: " +:+ join ", " keys))
  end.

Definition giveItemTo (g : Content) (itemId : string)
    (notice : Item -> Narration) : Act :=
  (modify (GameState.addItem itemId) ;;
   match itemsById g !! itemId with
   | Some item => emit (notice item)
   | None => skip
   end)%act.

Definition executeUseAction (g : Content) (item : Item) (action : UseAction)
  : Act :=
  (ifTruthy (ua_message action) (fun message => emit (Success message)) ;;
   ifTruthy (ua_setFlag action)
     (fun flagName => modify (GameState.setFlag flagName (FBool true))) ;;
   ifTruthy (ua_giveItem action)
     (fun itemId =>
        giveItemTo g itemId
          (fun givenItem => Message ("You obtained: " +:+ item_name givenItem))) ;;
   when (ua_consume action)
     (modify (GameState.removeItem (item_id item)) ;;
      modify (GameState.setItemLocation (item_id item) "nowhere")))%act.

Definition displayDialogueNode (g : Content) (character : Character)
    (node : DialogueNode) : Act :=
  (emit (Dialogue (char_name character) (node_text node)) ;;
   ifTruthy (node_setFlag node)
     (fun flagName => modify (GameState.setFlag flagName (FBool true))) ;;
   ifTruthy (node_giveItem node)
     (fun itemId =>
        giveItemTo g itemId
          (fun item =>
             Success (char_name character +:+ " gives you: " +:+ item_name item))) ;;
   match truthyValue (node_nextNode node) with
   | Some nextNode =>
       modify (GameState.setDialogueState (char_id character) nextNode)
   | None =>
       ifTruthy (node_loop node)
         (fun loop => modify (GameState.setDialogueState (char_id character) loop))
   end)%act.

(** [character.dialogue.find(n => n.id === currentNodeId)]. *)
Definition findNode (dialogue : list DialogueNode) (currentNodeId : string)
  : option DialogueNode :=
  List.find (fun n => String.eqb (node_id n) currentNodeId) dialogue.

Definition runDialogue (g : Content) (character : Character) : Act :=
  withState (fun st =>
    match char_dialogue character with
    | [] =>
        emit (Message
                (or_else (char_defaultGreeting character)
                   (char_name character +:+
                    " doesn't seem to have anything to say.")))
    | firstNode :: _ =>
        let currentNodeId :=
          or_else (GameState.getDialogueState (char_id character) st)
                  (node_id firstNode) in
        match findNode (char_dialogue character) currentNodeId with
        | None => displayDialogueNode g character firstNode
        | Some node => displayDialogueNode g character node
        end
    end).

Definition processEvent (event : Event) : Act :=
  (ifTruthy (ev_message event) (fun message => emit (Message message)) ;;
   ifTruthy (ev_setFlag event)
     (fun flagName => modify (GameState.setFlag flagName (FBool true))) ;;
   ifTruthy (ev_giveItem event)
     (fun itemId => modify (GameState.addItem itemId)))%act.

(** *** Command handlers *)

(** The tail of [handleGo], once the exit is known to be open. *)
Definition enterRoom (g : Content) (direction targetRoomId : string) : Act :=
  match roomsById g !! targetRoomId with
  | None =>
      emit (Error ("Error: Target room " +:+ dq +:+ targetRoomId +:+ dq +:+
                   " not found!"))
  | Some targetRoom =>
      (modify (GameState.setCurrentRoom targetRoomId) ;;
       emit (Message ("You go " +:+ direction +:+ "." +:+ nl)) ;;
       displayRoomDescription g targetRoom ;;
       modify (GameState.markRoomVisited targetRoomId))%act
  end.

Definition lockedText (lockedInfo : LockInfo) (direction : string) : string :=
  or_else (lock_message lockedInfo) ("The way " +:+ direction +:+ " is locked.").

Definition handleGo (g : Content) (command : Command) : Act :=
  match truthyValue (cmd_noun command) with
  | None =>
      emit (Error ("Which direction? Try " +:+ dq +:+ "go north" +:+ dq +:+
                   " or just " +:+ dq +:+ "north" +:+ dq +:+ "."))
  | Some noun =>
      withState (fun st =>
        match getCurrentRoom g st with
        | None => emit (Error "Error: Current room not found!")
        | Some room =>
            let rawDirection := toLowerCase noun in
            let direction := resolveDirectionSynonym rawDirection in
            match truthyValue (obj_get (room_exits room) direction) with
            | None =>
                (emit (Error ("You can't go " +:+ direction +:+ " from here.")) ;;
                 showAvailableExits room)%act
            | Some targetRoomId =>
                match obj_get (room_lockedExits room) direction with
                | Some lockedInfo =>
                    if checkUnlockCondition lockedInfo st
                    then enterRoom g direction targetRoomId
                    else emit (Warning (lockedText lockedInfo direction))
                | None => enterRoom g direction targetRoomId
                end
            end
        end)
  end.

Definition handleExamine (g : Content) (command : Command) : Act :=
  match truthyValue (cmd_noun command) with
  | None =>
      emit (Error ("Examine what? Try " +:+ dq +:+ "examine <something>" +:+
                   dq +:+ "."))
  | Some noun =>
      withState (fun st =>
        let thingToExamine := toLowerCase noun in
        match findItemInInventory g thingToExamine st with
        | Some inventoryItem => displayItemDescription inventoryItem
        | None =>
        match findItemInRoom g thingToExamine st with
        | Some roomItem => displayItemDescription roomItem
        | None =>
        match findCharacterInRoom g thingToExamine st with
        | Some character => displayCharacterDescription character
        | None =>
        match
          match getCurrentRoom g st with
          | Some room => truthyValue (obj_get (room_features room) thingToExamine)
          | None => None
          end
        with
        | Some feature => emit (Message feature)
        | None =>
            emit (Error ("You don't see any " +:+ dq +:+ noun +:+ dq +:+ " here."))
        end end end end)
  end.

Definition handleLook (g : Content) (command : Command) : Act :=
  if truthy_opt (cmd_noun command) then handleExamine g command
  else
    withState (fun st =>
      match getCurrentRoom g st with
      | None => emit (Error "Error: Current room not found!")
      | Some room =>
          (modify (GameState.markRoomVisited (room_id room)) ;;
           displayRoomDescription g room)%act
      end).

(** [item.takeable === false]. *)
Definition notTakeable (item : Item) : bool :=
  match item_takeable item with
  | Some false => true
  | _ => false
  end.

Definition handleTake (g : Content) (command : Command) : Act :=
  match truthyValue (cmd_noun command) with
  | None =>
      emit (Error ("Take what? Try " +:+ dq +:+ "take <item>" +:+ dq +:+ "."))
  | Some noun =>
      withState (fun st =>
        let itemName := toLowerCase noun in
        match findItemInRoom g itemName st with
        | None =>
            match findItemInInventory g itemName st with
            | Some inInventory =>
                emit (Message ("You already have the " +:+
                               item_name inInventory +:+ "."))
            | None =>
                emit (Error ("You don't see any " +:+ dq +:+ noun +:+ dq +:+
                             " here to take."))
            end
        | Some item =>
            if notTakeable item
            then emit (Warning (or_else (item_takeFailMessage item)
                                  ("You can't take the " +:+ item_name item +:+ ".")))
            else
              (modify (GameState.addItem (item_id item)) ;;
               emit (Success ("You pick up the " +:+ item_name item +:+ ".")) ;;
               match item_onTake item with
               | Some event => processEvent event
               | None => skip
               end)%act
        end)
  end.

Definition handleDrop (g : Content) (command : Command) : Act :=
  match truthyValue (cmd_noun command) with
  | None =>
      emit (Error ("Drop what? Try " +:+ dq +:+ "drop <item>" +:+ dq +:+ "."))
  | Some noun =>
      withState (fun st =>
        let itemName := toLowerCase noun in
        match findItemInInventory g itemName st with
        | None =>
            emit (Error ("You're not carrying any " +:+ dq +:+ noun +:+ dq +:+ "."))
        | Some item =>
            let currentRoomId := GameState.getCurrentRoom st in
            (modify (GameState.removeItem (item_id item)) ;;
             modify (GameState.setItemLocation (item_id item) currentRoomId) ;;
             emit (Success ("You drop the " +:+ item_name item +:+ ".")))%act
        end)
  end.

(** One line of the inventory listing per carried item the table knows. *)
Definition inventoryLine (g : Content) (inventoryText itemId : string) : string :=
  match itemsById g !! itemId with
  | Some item =>
      inventoryText +:+ "  • " +:+ item_name item +:+
      match truthyValue (item_shortDescription item) with
      | Some shortDescription => " - " +:+ shortDescription
      | None => EmptyString
      end +:+ nl
  | None => inventoryText
  end.

Definition handleInventory (g : Content) (command : Command) : Act :=
  withState (fun st =>
    match GameState.getInventory st with
    | [] => emit (Message "You're not carrying anything.")
    | inventoryIds =>
        emit (Message (foldl (inventoryLine g)
                             ("You are carrying:" +:+ nl) inventoryIds))
    end).

Definition handleTalk (g : Content) (command : Command) : Act :=
  match truthyValue (cmd_noun command) with
  | None =>
      withState (fun st =>
        match getCurrentRoom g st with
        | Some room =>
            match room_characters room with
            | [] => emit (Error "There's no one here to talk to.")
            | ids =>
                let charNames :=
                  join ", "
                    (map (fun id =>
                            match charactersById g !! id with
                            | Some char => char_name char
                            | None => id
                            end) ids) in
                emit (Error ("Talk to whom? You can see: " +:+ charNames))
            end
        | None => emit (Error "There's no one here to talk to.")
        end)
  | Some noun =>
      withState (fun st =>
        let characterName := toLowerCase noun in
        match findCharacterInRoom g characterName st with
        | None =>
            emit (Error ("You don't see " +:+ dq +:+ noun +:+ dq +:+
                         " here to talk to."))
        | Some character => runDialogue g character
        end)
  end.

(** [action => !action.target]. *)
Definition isDefaultAction (action : UseAction) : bool :=
  negb (truthy_opt (ua_target action)).

(** The predicate of the second [find] of [handleUse]. *)
Definition actionMatchesTarget (g : Content) (targetName : string)
    (action : UseAction) : bool :=
  match truthyValue (ua_target action) with
  | None => false
  | Some target =>
      String.eqb (toLowerCase target) targetName
      || matchesEntity g target targetName
  end.

Definition handleUse (g : Content) (command : Command) : Act :=
  match truthyValue (cmd_noun command) with
  | None =>
      emit (Error ("Use what? Try " +:+ dq +:+ "use <item>" +:+ dq +:+ " or " +:+
                   dq +:+ "use <item> on <target>" +:+ dq +:+ "."))
  | Some noun =>
      withState (fun st =>
        let itemName := toLowerCase noun in
        match findItemInInventory g itemName st with
        | None =>
            match findItemInRoom g itemName st with
            | Some roomItem =>
                emit (Warning ("You need to pick up the " +:+ item_name roomItem +:+
                               " first. Try " +:+ dq +:+ "take " +:+
                               toLowerCase (item_name roomItem) +:+ dq +:+ "."))
            | None =>
                emit (Error ("You don't have any " +:+ dq +:+ noun +:+ dq +:+ "."))
            end
        | Some item =>
            match item_useActions item with
            | [] =>
                emit (Message (or_else (item_useFailMessage item)
                                 ("You're not sure how to use the " +:+
                                  item_name item +:+ ".")))
            | useActions =>
                match truthyValue (cmd_target command) with
                | None =>
                    match List.find isDefaultAction useActions with
                    | Some defaultAction => executeUseAction g item defaultAction
                    | None =>
                        emit (Error ("Use the " +:+ item_name item +:+
                                     " on what? Try " +:+ dq +:+ "use " +:+
                                     toLowerCase (item_name item) +:+
                                     " on <target>" +:+ dq +:+ "."))
                    end
                | Some target =>
                    let targetName := toLowerCase target in
                    match List.find (actionMatchesTarget g targetName) useActions with
                    | Some matchingAction => executeUseAction g item matchingAction
                    | None =>
                        emit (Message ("Nothing happens when you try to use the " +:+
                                       item_name item +:+ " on " +:+ target +:+ "."))
                    end
                end
            end
        end)
  end.

Definition helpText : string := "
╔════════════════════════════════════════════════════════════════╗
║                      STELLAR VOYAGER HELP                       ║
╠════════════════════════════════════════════════════════════════╣
║  MOVEMENT                                                       ║
║    go <direction>  - Move in a direction (north, south, etc.)  ║
║    n/s/e/w         - Shortcut for go north/south/east/west     ║
║                                                                 ║
║  EXPLORATION                                                    ║
║    look (or l)     - Describe your surroundings                ║
║    examine <thing> - Look closely at something                 ║
║                                                                 ║
║  INVENTORY                                                      ║
║    take <item>     - Pick up an item                           ║
║    drop <item>     - Put down an item                          ║
║    inventory (or i)- List what you're carrying                 ║
║                                                                 ║
║  INTERACTION                                                    ║
║    talk <person>   - Talk to a character                       ║
║    use <item>      - Use an item                               ║
║    use <item> on <target> - Use item on something              ║
║                                                                 ║
║  OTHER                                                          ║
║    help (or ?)     - Show this help                            ║
╚════════════════════════════════════════════════════════════════╝

TIP: You can use abbreviated directions: n, s, e, w, ne, nw, se, sw, u, d
".

Definition handleHelp (g : Content) (command : Command) : Act :=
  emit (SystemMessage helpText).

Definition handleQuit (g : Content) (command : Command) : Act :=
  emit (Message "Thanks for playing! Refresh the page to start a new game.").

(** The method a handler tag is bound to. *)
Definition handle (g : Content) (h : Handler) : Command -> Act :=
  match h with
  | HLook => handleLook g
  | HGo => handleGo g
  | HExamine => handleExamine g
  | HTake => handleTake g
  | HDrop => handleDrop g
  | HInventory => handleInventory g
  | HTalk => handleTalk g
  | HUse => handleUse g
  | HHelp => handleHelp g
  | HQuit => handleQuit g
  end.

(** [{ ...command, noun: command.verb }]. *)
Definition withNoun (command : Command) (noun : option string) : Command :=
  {| cmd_verb := cmd_verb command; cmd_noun := noun;
     cmd_preposition := cmd_preposition command;
     cmd_target := cmd_target command;
     cmd_raw := cmd_raw command; cmd_tokens := cmd_tokens command |}.

Definition execute (g : Content) (command : Command) : Act :=
  if negb (truthy_str (cmd_verb command))
  then emit (Message ("What would you like to do? Type " +:+ dq +:+ "help" +:+
                      dq +:+ " for available commands."))
  else if isDirection (cmd_verb command)
  then handleGo g (withNoun command (Some (cmd_verb command)))
  else
    match obj_get commandHandlers (cmd_verb command) with
    | Some handler => handle g handler command
    | None =>
        emit (Error ("I don't understand " +:+ dq +:+ cmd_verb command +:+ dq +:+
                     ". Type " +:+ dq +:+ "help" +:+ dq +:+
                     " to see available commands."))
    end.

(** The state the constructor leaves: item locations read off the rooms. *)
Definition initialState (g : Content) : State :=
  GameState.initializeItemLocations (rooms g) (GameState.new (config g)).

End GameRules.

(** ** main.js: the command pipeline *)

Module Main.

(** What one call of [executeCommand] sent to the renderer, split by the
    step that sent it, and the state it left. The renderer receives
    [echoed ++ narrated ++ victory]. *)
Record CommandResult := {
  echoed : list Narration;
  narrated : list Narration;
  victory : list Narration;
  final : State
}.

Definition allComplete (objs : list Objective) (st : State) : bool :=
  forallb (fun objective => truthy_flag (GameState.getFlag (obj_flag objective) st))
          objs.

Definition checkGameCompletion (g : Content) : Act :=
  withState (fun st =>
    if truthy_flag (GameState.getFlag "gameCompleted" st) then skip
    else
      match objectives (config g) with
      | Some objs =>
          if allComplete objs st
          then
            (modify (GameState.setFlag "gameCompleted" (FBool true)) ;;
             emit (Success
                     (nl +:+
                      or_else (victoryText (config g))
                        "Congratulations! You have completed all objectives!" +:+
                      nl)))%act
          else skip
      | None => skip
      end).

Definition executeCommand (g : Content) (commandText : string) (st : State)
  : CommandResult :=
  let echo :=
    if negb (String.eqb (toLowerCase commandText) "look")
       || negb (Nat.eqb (List.length (commandHistory st)) 0)
    then [CommandEcho commandText] else [] in
  let st1 := GameState.addToHistory commandText st in
  let parsedCommand := CommandParser.parse (commands g) commandText in
  let '(st2, out) := GameRules.execute g parsedCommand st1 in
  let '(st3, won) := checkGameCompletion g st2 in
  {| echoed := echo; narrated := out; victory := won; final := st3 |}.

(** The results of a sequence of commands, one per command, in order. *)
Fixpoint runCommands (g : Content) (st : State) (inputs : list string)
  : list CommandResult :=
  match inputs with
  | [] => []
  | input :: rest =>
      let r := executeCommand g input st in
      r :: runCommands g (final r) rest
  end.

(** The state after a sequence of commands. *)
Definition stateAfter (g : Content) (st : State) (inputs : list string) : State :=
  foldl (fun s input => final (executeCommand g input s)) st inputs.

(** [submitCommand], as a function of the text in the input field: nothing
    happens on blank text, otherwise the trimmed text is executed. *)
Definition submitCommand (g : Content) (value : string) (st : State)
  : option CommandResult :=
  let commandText := trim value in
  if String.eqb commandText EmptyString then None
  else Some (executeCommand g commandText st).

End Main.

(** ** ContentLoader.js: cross-references *)

Module ContentLoader.

(** The errors collected for one room, in the order of the source: exits,
    then items, then characters. *)
Definition roomErrors (validRoomIds validItemIds validCharacterIds : list string)
    (room : Room) : list string :=
  omap (fun entry =>
          if arrIncludes validRoomIds (snd entry) then None
          else Some ("Room " +:+ dq +:+ room_id room +:+ dq +:+ ": Exit " +:+
                     dq +:+ fst entry +:+ dq +:+ " references unknown room " +:+
                     dq +:+ snd entry +:+ dq))
       (room_exits room)
  ++
  omap (fun itemId =>
          if arrIncludes validItemIds itemId then None
          else Some ("Room " +:+ dq +:+ room_id room +:+ dq +:+
                     ": Contains unknown item " +:+ dq +:+ itemId +:+ dq))
       (room_items room)
  ++
  omap (fun charId =>
          if arrIncludes validCharacterIds charId then None
          else Some ("Room " +:+ dq +:+ room_id room +:+ dq +:+
                     ": Contains unknown character " +:+ dq +:+ charId +:+ dq))
       (room_characters room).

(** The array [errors] at the end of the loop over the rooms. *)
Definition referenceErrors (content : Content) : list string :=
  let validRoomIds := map room_id (rooms content) in
  let validItemIds := map item_id (items content) in
  let validCharacterIds := map char_id (characters content) in
  concat (map (roomErrors validRoomIds validItemIds validCharacterIds)
              (rooms content)).

(** [None] when the method returns, [Some message] when it throws an [Error]
    with that message. *)
Definition validateContentReferences (content : Content) : option string :=
  match referenceErrors content with
  | [] => None
  | errors =>
      Some ("Content validation failed:" +:+ nl +:+ nl +:+
            join nl (map (fun e => "• " +:+ e) errors) +:+
            nl +:+ nl +:+
            "Please check your JSON files for typos or missing definitions.")
  end.

(** [text.substring(0, position)], for a position that is not negative. *)
Fixpoint substring0 (position : nat) (text : string) : string :=
  match position, text with
  | S p, String c r => String c (substring0 p r)
  | _, _ => EmptyString
  end.

(** [text.split('\n')]: the pieces between line feeds, empty pieces kept. *)
Fixpoint splitLines (text : string) : list string :=
  match text with
  | EmptyString => [EmptyString]
  | String c r =>
      if Ascii.eqb c (ascii_of_nat 10) then EmptyString :: splitLines r
      else
        match splitLines r with
        | current :: rest => String c current :: rest
        | [] => [String c EmptyString]
        end
  end.

Record LineInfo := {
  li_line : nat;
  li_character : nat;
  li_context : string
}.

(** [getLineFromPosition(text, position)], positions counted in characters
    of the ASCII range. *)
Definition getLineFromPosition (text : string) (position : nat) : LineInfo :=
  let lines := splitLines (substring0 position text) in
  let lineNumber := List.length lines in
  let characterNumber := String.length (List.last lines EmptyString) + 1 in
  let allLines := splitLines text in
  let contextLine := or_else (allLines !! (lineNumber - 1)) EmptyString in
  {| li_line := lineNumber; li_character := characterNumber;
     li_context := trim contextLine |}.

End ContentLoader.

(** ** Renderer.js: the suggested commands *)

Module Renderer.

(** [generateSuggestions(context)], from the items, the characters and the
    exits of the context. *)
Definition generateSuggestions (shown : list Item) (present : list Character)
    (exits : list (string * string)) : list string :=
  take 8
    (["look"]
     ++ map (fun item => "examine " +:+ toLowerCase (item_name item))
            (take 2 shown)
     ++ map (fun char =>
               let firstName :=
                 toLowerCase (hd EmptyString (splitSpace (char_name char))) in
               "talk " +:+ firstName)
            (take 2 present)
     ++ map (fun dir => "go " +:+ dir) (take 3 (obj_keys exits))
     ++ ["inventory"]).

End Renderer.

Import GameRules.

(** * Definitions used to state the properties *)

(** ** Locked exits *)

(** The unlock condition in the words of the specification: the required
    item, if one is specified, is carried, and the required flag, if one is
    specified, is truthy. *)
Definition unlockConditionMet (lockedInfo : LockInfo) (st : State) : Prop :=
  (forall itemId, truthyValue (requiresItem lockedInfo) = Some itemId ->
                  In itemId (inventory st))
  /\
  (forall flagName, truthyValue (requiresFlag lockedInfo) = Some flagName ->
                    truthy_flag (flags st !! flagName) = true).

(** ** Entity resolution *)

Section MatchingModes.

Context {A : Type} `{Entity A}.

(** The four ways a name can match, in the order [matchesName] tries them. *)
Definition matchesExactName (entity : A) (searchName : string) : bool :=
  String.eqb (toLowerCase (ent_name entity)) searchName.

Definition matchesId (entity : A) (searchName : string) : bool :=
  String.eqb (toLowerCase (ent_id entity)) searchName.

Definition matchesSubstring (entity : A) (searchName : string) : bool :=
  includes (toLowerCase (ent_name entity)) searchName.

Definition matchesAlias (entity : A) (searchName : string) : bool :=
  existsb (fun alias => String.eqb (toLowerCase alias) searchName)
          (ent_aliases entity).

(** The rank of the first test that succeeds: 0 for the exact name, 1 for
    the id, 2 for the substring, 3 for an alias. *)
Definition matchMode (entity : A) (searchName : string) : option nat :=
  if matchesExactName entity searchName then Some 0
  else if matchesId entity searchName then Some 1
  else if matchesSubstring entity searchName then Some 2
  else if matchesAlias entity searchName then Some 3
  else None.

(** [result] is what a walk over [ids] in order finds: the entity of the
    first id that the table knows and whose entity matches the name in any of
    the four ways; nothing when no candidate matches. *)
Definition FirstMatching (table : gmap string A) (ids : list string)
    (searchName : string) (result : option A) : Prop :=
  match result with
  | Some entity =>
      exists before id after,
        ids = before ++ id :: after
        /\ table !! id = Some entity
        /\ matchesName entity searchName = true
        /\ (forall id' entity',
              In id' before -> table !! id' = Some entity' ->
              matchesName entity' searchName = false)
  | None =>
      forall id entity,
        In id ids -> table !! id = Some entity ->
        matchesName entity searchName = false
  end.

End MatchingModes.

(** ** Use-actions *)

(** [x] is the first element of [l] that satisfies [p]. *)
Definition FirstSuch {A : Type} (p : A -> bool) (l : list A) (x : A) : Prop :=
  exists before after,
    l = before ++ x :: after
    /\ p x = true
    /\ (forall y, In y before -> p y = false).

(** ** State properties *)

(** The operation keeps the state property [I]. *)
Definition preserves (I : State -> Prop) (a : Act) : Prop :=
  forall st, I st -> I (fst (a st)).

(** The item is carried exactly when its location record is ["inventory"]. *)
Definition carriedIffLocated (st : State) : Prop :=
  forall itemId,
    In itemId (inventory st) <->
    GameState.getItemLocation itemId st = Some "inventory".

(** The invariant carried through the commands: no item is carried twice,
    the location records agree with the inventory, and the player does not
    stand in a place called ["inventory"]. *)
Definition consistent (st : State) : Prop :=
  List.NoDup (inventory st)
  /\ carriedIffLocated st
  /\ currentRoomId st <> "inventory".

(** ** Directions and verbs *)

(** The content with another [commands.json]. *)
Definition withCommands (g : Content) (c : Commands) : Content :=
  {| rooms := rooms g; items := items g; characters := characters g;
     commands := c; config := config g |}.

(** The test [parseNounPhrase] makes on the canonical verb. *)
Definition isMovementVerb (verb : string) : bool :=
  String.eqb verb "go" || String.eqb verb "walk" || String.eqb verb "move".

Definition isGoHandler (h : Handler) : bool :=
  match h with
  | HGo => true
  | _ => false
  end.

(** ** Objectives *)

Definition flagTruthy (flagName : string) (st : State) : bool :=
  truthy_flag (GameState.getFlag flagName st).

(** The completion flag of [checkGameCompletion]. *)
Definition completed (st : State) : bool := flagTruthy "gameCompleted" st.

Definition victoryNarration (g : Content) : Narration :=
  Success (nl +:+
           or_else (victoryText (config g))
             "Congratulations! You have completed all objectives!" +:+
           nl).

(** No effect of the content (use-action, on-take event, dialogue node) sets
    the flag. *)
Definition neverSetsFlag (g : Content) (flagName : string) : Prop :=
  (forall item, In item (items g) ->
     (forall action, In action (item_useActions item) ->
                     truthyValue (ua_setFlag action) <> Some flagName)
     /\ (forall event, item_onTake item = Some event ->
                       truthyValue (ev_setFlag event) <> Some flagName))
  /\
  (forall character, In character (characters g) ->
     forall node, In node (char_dialogue character) ->
                  truthyValue (node_setFlag node) <> Some flagName).

(** The objectives are all complete after result [r] and were not after any
    of the earlier results [before]. *)
Definition firstCompleteAt (objs : list Objective)
    (before : list Main.CommandResult)
    (r : Main.CommandResult) : bool :=
  Main.allComplete objs (Main.final r)
  && forallb (fun r' => negb (Main.allComplete objs (Main.final r'))) before.

(** The flag is absent or falsy. *)
Definition flagUnset (flagName : string) (st : State) : Prop :=
  flagTruthy flagName st = false.

(** ** Dialogue *)

(** The stored pointer of the character is the id of the node. *)
Definition atLoop (c : Character) (node : DialogueNode) (st : State) : Prop :=
  GameState.getDialogueState (char_id c) st = Some (node_id node).

(** * Games used for the concrete checks *)

Module Demo.

Definition item (id name description : string) : Item :=
  {| item_id := id; item_name := name; item_description := description;
     item_shortDescription := None; item_aliases := [];
     item_takeable := None; item_visible := None;
     item_takeFailMessage := None; item_onTake := None;
     item_useActions := []; item_useFailMessage := None;
     item_stateDescriptions := [] |}.

Definition room (id name : string) (exits : list (string * string))
    (locked : list (string * LockInfo)) (contents people : list string) : Room :=
  {| room_id := id; room_name := name; room_description := name;
     room_exits := exits; room_lockedExits := locked;
     room_items := contents; room_characters := people;
     room_features := [] |}.

Definition game (rs : list Room) (its : list Item) (cs : list Character)
    (dirs : gmap string string) (objs : option (list Objective)) : Content :=
  {| rooms := rs; items := its; characters := cs;
     commands := {| synonyms := ∅; directions := dirs |};
     config := {| startingRoom := "bridge"; title := "Demo";
                  introText := None; objectives := objs;
                  victoryText := None |} |}.

End Demo.

Module DemoLock.

Definition keycardLock : LockInfo :=
  {| requiresItem := Some "keycard"; requiresFlag := None;
     lock_message := Some "The door needs a keycard." |}.

Definition content : Content :=
  Demo.game
    [ Demo.room "bridge" "Bridge" [("east", "corridor")]
        [("east", keycardLock)] ["keycard"] [];
      Demo.room "corridor" "Corridor" [("west", "bridge")] [] [] [] ]
    [ Demo.item "keycard" "Keycard" "A plastic card." ]
    [] ∅ None.

Definition start : State := initialState content.

Definition goEast : Command :=
  {| cmd_verb := "go"; cmd_noun := Some "east"; cmd_preposition := None;
     cmd_target := None; cmd_raw := "go east"; cmd_tokens := ["go"; "east"] |}.

Definition bridge : Room :=
  Demo.room "bridge" "Bridge" [("east", "corridor")]
    [("east", keycardLock)] ["keycard"] [].

End DemoLock.

Module DemoKeys.

Definition brassKey : Item := Demo.item "brass_key" "Brass Key" "A heavy brass key.".
Definition plainKey : Item := Demo.item "key" "Key" "A small key.".

Definition content : Content :=
  Demo.game [ Demo.room "bridge" "Bridge" [] [] ["brass_key"; "key"] [] ]
            [ brassKey; plainKey ] [] ∅ None.

(** Both keys carried: the first [take key] picks up the brass key, the
    second one the plain key. *)
Definition carrying : State :=
  Main.stateAfter content (initialState content) ["take key"; "take key"].

End DemoKeys.

Module DemoUse.

Definition fixPanel : UseAction :=
  {| ua_target := Some "panel"; ua_message := Some "You tighten the panel.";
     ua_setFlag := Some "panelFixed"; ua_giveItem := None; ua_consume := false |}.

Definition wave : UseAction :=
  {| ua_target := None; ua_message := Some "You wave the wrench around.";
     ua_setFlag := None; ua_giveItem := None; ua_consume := false |}.

Definition wrench : Item :=
  {| item_id := "wrench"; item_name := "Wrench";
     item_description := "A sturdy wrench.";
     item_shortDescription := None; item_aliases := ["spanner"];
     item_takeable := None; item_visible := None;
     item_takeFailMessage := None; item_onTake := None;
     item_useActions := [fixPanel; wave]; item_useFailMessage := None;
     item_stateDescriptions := [] |}.

Definition panel : Item := Demo.item "panel" "Access Panel" "A loose panel.".

Definition content : Content :=
  Demo.game [ Demo.room "bridge" "Bridge" [] [] ["wrench"; "panel"] [] ]
            [ wrench; panel ] [] ∅
            (Some [ {| obj_flag := "panelFixed";
                       obj_description := "Fix the panel" |} ]).

Definition carrying : State :=
  Main.stateAfter content (initialState content) ["take wrench"].

Definition useWrench : Command := CommandParser.parse (commands content) "use wrench".

End DemoUse.

Module DemoStore.

(** A storeroom whose identifier happens to be the word the location map
    reserves for carried items. *)
Definition content : Content :=
  Demo.game
    [ Demo.room "bridge" "Bridge" [("down", "inventory")] [] [] [];
      Demo.room "inventory" "Inventory Room" [("up", "bridge")] [] ["coin"] [] ]
    [ Demo.item "coin" "Coin" "A gold coin." ]
    [] ∅ None.

End DemoStore.

Module DemoHidden.

Definition looseTile : Item :=
  {| item_id := "tile"; item_name := "Loose Tile";
     item_description := "A floor tile that wobbles.";
     item_shortDescription := None; item_aliases := [];
     item_takeable := None; item_visible := Some false;
     item_takeFailMessage := None; item_onTake := None;
     item_useActions := []; item_useFailMessage := None;
     item_stateDescriptions := [] |}.

Definition content : Content :=
  Demo.game [ Demo.room "bridge" "Bridge" [] [] ["tile"] [] ]
            [ looseTile ] [] ∅ None.

Definition takeTile : Command := CommandParser.parse (commands content) "take tile".

End DemoHidden.

Module DemoNord.

(** A game whose exits are named in another language and whose
    [commands.json] maps the abbreviation [n] to the exit word [nord]. *)
Definition content : Content :=
  Demo.game
    [ Demo.room "bridge" "Bridge" [("nord", "corridor")] [] [] [];
      Demo.room "corridor" "Corridor" [("sud", "bridge")] [] [] [] ]
    [] [] {[ "n" := "nord" ]} None.

Definition start : State := initialState content.

Definition bridge : Room :=
  Demo.room "bridge" "Bridge" [("nord", "corridor")] [] [] [].

Definition goN : Command :=
  {| cmd_verb := "go"; cmd_noun := Some "n"; cmd_preposition := None;
     cmd_target := None; cmd_raw := "go n"; cmd_tokens := ["go"; "n"] |}.

End DemoNord.

Module DemoSword.

(** The synonym table of the authoring guide. *)
Definition content : Content :=
  {| rooms := [ Demo.room "bridge" "Bridge" [] [] ["sword"] [] ];
     items := [ Demo.item "sword" "Sword" "A ceremonial sword." ];
     characters := [];
     commands := {| synonyms := {[ "get" := "take"; "grab" := "take" ]};
                    directions := ∅ |};
     config := {| startingRoom := "bridge"; title := "Demo";
                  introText := None; objectives := None;
                  victoryText := None |} |}.

End DemoSword.

Module DemoVictory.

Definition inputs : list string :=
  ["look"; "take wrench"; "use wrench on panel"; "look"; "use wrench on panel"].

(** The result of the third command, the one that fixes the panel. *)
Definition third : Main.CommandResult :=
  Main.executeCommand DemoUse.content "use wrench on panel"
    (Main.stateAfter DemoUse.content (initialState DemoUse.content)
       ["look"; "take wrench"]).

End DemoVictory.

Module DemoEnding.

Definition shutDown : UseAction :=
  {| ua_target := None; ua_message := Some "The engines shut down.";
     ua_setFlag := Some "gameCompleted"; ua_giveItem := None;
     ua_consume := false |}.

Definition lever : Item :=
  {| item_id := "lever"; item_name := "Lever";
     item_description := "A red lever.";
     item_shortDescription := None; item_aliases := [];
     item_takeable := None; item_visible := None;
     item_takeFailMessage := None; item_onTake := None;
     item_useActions := [shutDown]; item_useFailMessage := None;
     item_stateDescriptions := [] |}.

Definition key : Item :=
  {| item_id := "key"; item_name := "Key";
     item_description := "A small key.";
     item_shortDescription := None; item_aliases := [];
     item_takeable := None; item_visible := None;
     item_takeFailMessage := None;
     item_onTake := Some {| ev_message := None; ev_setFlag := Some "foundKey";
                            ev_giveItem := None |};
     item_useActions := []; item_useFailMessage := None;
     item_stateDescriptions := [] |}.

Definition goals : list Objective :=
  [ {| obj_flag := "foundKey"; obj_description := "Find the key" |} ].

Definition content : Content :=
  Demo.game [ Demo.room "bridge" "Bridge" [] [] ["lever"; "key"] [] ]
            [ lever; key ] [] ∅ (Some goals).

End DemoEnding.

Module DemoTalk.

Definition initial : DialogueNode :=
  {| node_id := "initial"; node_text := "Captain! Unusual readings.";
     node_setFlag := Some "metScienceOfficer"; node_giveItem := None;
     node_nextNode := Some "second"; node_loop := None |}.

Definition second : DialogueNode :=
  {| node_id := "second"; node_text := "An unknown energy signature.";
     node_setFlag := None; node_giveItem := Some "scanner";
     node_nextNode := Some "waiting"; node_loop := None |}.

Definition waiting : DialogueNode :=
  {| node_id := "waiting"; node_text := "I'm still analyzing the data, Captain.";
     node_setFlag := None; node_giveItem := None;
     node_nextNode := None; node_loop := Some "waiting" |}.

Definition park : Character :=
  {| char_id := "science_officer"; char_name := "Lieutenant Park";
     char_description := "A young officer in a blue science uniform.";
     char_aliases := ["park"; "scientist"]; char_defaultGreeting := None;
     char_dialogue := [initial; second; waiting] |}.

Definition content : Content :=
  Demo.game [ Demo.room "bridge" "Bridge" [] [] [] ["science_officer"] ]
            [ Demo.item "scanner" "Scanner" "A hand scanner." ]
            [ park ] ∅ None.

(** Two talks bring the pointer to the looping node. *)
Definition afterTwoTalks : State :=
  Main.stateAfter content (initialState content) ["talk park"; "chat scientist"].

End DemoTalk.

(** * Definitions used to state the further properties *)

(** Every character of the string satisfies the test. *)
Definition allChars (p : ascii -> bool) (s : string) : Prop :=
  Forall (fun ch => p ch = true) (list_ascii_of_string s).

(** The character is not white space and lowercasing leaves it alone. *)
Definition plainChar (ch : ascii) : bool :=
  negb (is_space ch) && Ascii.eqb (lower_ascii ch) ch.

(** Lowercasing leaves the character alone. *)
Definition lowered (ch : ascii) : bool := Ascii.eqb (lower_ascii ch) ch.

(** After the collapse a character is a single space or a plain one. *)
Definition spaceOrPlain (ch : ascii) : bool :=
  Ascii.eqb ch " "%char || plainChar ch.

(** No two neighbours of the list are equal. *)
Fixpoint noRepeat (l : list string) : Prop :=
  match l with
  | x :: ((y :: _) as rest) => x <> y /\ noRepeat rest
  | _ => True
  end.

(** The history holds no blank entry and no entry twice in a row. *)
Definition tidyHistory (st : State) : Prop :=
  Forall (fun entry => trim entry <> EmptyString) (commandHistory st)
  /\ noRepeat (commandHistory st).

(** The keys of the item-location map are pairwise distinct, as the keys of
    a [Map] are. *)
Definition uniqueLocationKeys (st : State) : Prop :=
  List.NoDup (map fst (itemLocations st)).

(** The id of the last room, in the order of [rooms.json], that lists the
    item. *)
Definition lastRoomListing (rs : list Room) (itemId : string) : option string :=
  foldl (fun found room =>
           if arrIncludes (room_items room) itemId then Some (room_id room)
           else found)
        None rs.

(** Every exit target, room item and room character of every room is the id
    of an entry of the corresponding table. *)
Definition referencesResolve (g : Content) : Prop :=
  forall room, In room (rooms g) ->
    (forall direction target, In (direction, target) (room_exits room) ->
       In target (map room_id (rooms g)))
    /\ (forall itemId, In itemId (room_items room) ->
          In itemId (map item_id (items g)))
    /\ (forall charId, In charId (room_characters room) ->
          In charId (map char_id (characters g))).

(** The prompt that answers an intent without a verb. *)
Definition emptyPrompt : Narration :=
  Message ("What would you like to do? Type " +:+ dq +:+ "help" +:+ dq +:+
           " for available commands.").

(** The fields of the state other than the input history and its cursor. *)
Definition sameWorld (st1 st2 : State) : Prop :=
  currentRoomId st1 = currentRoomId st2
  /\ inventory st1 = inventory st2
  /\ flags st1 = flags st2
  /\ visitedRooms st1 = visitedRooms st2
  /\ itemLocations st1 = itemLocations st2
  /\ characterDialogueState st1 = characterDialogueState st2.

(** The intents the rule engine answers by narration alone: an empty verb, a
    verb without a handler, the verbs bound to [handleExamine],
    [handleInventory], [handleHelp] and [handleQuit], and the verbs bound to
    [handleLook] when the intent has a noun. *)
Definition observes (command : Command) : bool :=
  negb (isDirection (cmd_verb command))
  && match obj_get commandHandlers (cmd_verb command) with
     | Some HExamine | Some HInventory | Some HHelp | Some HQuit => true
     | Some HLook => truthy_opt (cmd_noun command)
     | Some _ => false
     | None => true
     end.

(** The operation calls the renderer at least once, whatever the state. *)
Definition speaks (a : Act) : Prop :=
  forall st, exists first rest, snd (a st) = first :: rest.

Module DemoHistory.

(** Three commands typed, the cursor on the fresh input. *)
Definition typed : State :=
  Main.stateAfter DemoUse.content (initialState DemoUse.content)
    ["look"; "take wrench"; "inventory"].

End DemoHistory.

Module DemoTwice.

(** A wrench that two rooms list. *)
Definition content : Content :=
  Demo.game
    [ Demo.room "bridge" "Bridge" [("east", "corridor")] [] ["wrench"] [];
      Demo.room "corridor" "Corridor" [("west", "bridge")] [] ["wrench"] [] ]
    [ Demo.item "wrench" "Wrench" "A sturdy wrench." ]
    [] ∅ None.

End DemoTwice.

Module DemoSilent.

(** A switch whose only use sets a flag, without a message. *)
Definition flip : UseAction :=
  {| ua_target := None; ua_message := None; ua_setFlag := Some "power";
     ua_giveItem := None; ua_consume := false |}.

Definition switch : Item :=
  {| item_id := "switch"; item_name := "Switch";
     item_description := "A small switch.";
     item_shortDescription := None; item_aliases := [];
     item_takeable := None; item_visible := None;
     item_takeFailMessage := None; item_onTake := None;
     item_useActions := [flip]; item_useFailMessage := None;
     item_stateDescriptions := [] |}.

Definition content : Content :=
  Demo.game [ Demo.room "bridge" "Bridge" [] [] ["switch"] [] ]
            [ switch ] [] ∅ None.

Definition carrying : State :=
  Main.stateAfter content (initialState content) ["take switch"].

End DemoSilent.

Module DemoRation.

(** A ration that is eaten when used, and gives a wrapper. *)
Definition eat : UseAction :=
  {| ua_target := None; ua_message := Some "You eat the ration.";
     ua_setFlag := Some "fed"; ua_giveItem := Some "wrapper";
     ua_consume := true |}.

Definition ration : Item :=
  {| item_id := "ration"; item_name := "Ration";
     item_description := "A sealed ration.";
     item_shortDescription := None; item_aliases := [];
     item_takeable := None; item_visible := None;
     item_takeFailMessage := None; item_onTake := None;
     item_useActions := [eat]; item_useFailMessage := None;
     item_stateDescriptions := [] |}.

Definition content : Content :=
  Demo.game [ Demo.room "bridge" "Bridge" [] [] ["ration"] [] ]
            [ ration; Demo.item "wrapper" "Wrapper" "An empty wrapper." ]
            [] ∅ None.

Definition carrying : State :=
  Main.stateAfter content (initialState content) ["take ration"].

End DemoRation.

Module DemoShort.

(** A game whose [commands.json] spells out the abbreviation [n] the way the
    rule engine does. *)
Definition content : Content :=
  Demo.game
    [ Demo.room "bridge" "Bridge" [("north", "corridor")] [] [] [];
      Demo.room "corridor" "Corridor" [("south", "bridge")] [] [] [] ]
    [] [] {[ "n" := "north" ]} None.

End DemoShort.

(** * Properties *)

(** ** The command interpreter on two inputs *)

Example cleanTokens_take_the_sword :
  CommandParser.cleanTokens "  Take   THE  sword " = ["take"; "sword"].
Proof. reflexivity. Qed.

Example parse_use_key_on_door :
  CommandParser.parse {| synonyms := ∅; directions := ∅ |} "use the key on a door"
  = {| cmd_verb := "use"; cmd_noun := Some "key"; cmd_preposition := Some "on";
       cmd_target := Some "door"; cmd_raw := "use the key on a door";
       cmd_tokens := ["use"; "key"; "on"; "door"] |}.
Proof. reflexivity. Qed.

(** ** Strings, association lists and the id tables *)

Section Basics.

Lemma arrIncludes_In (l : list string) (x : string) :
  arrIncludes l x = true <-> In x l.
Proof.
  unfold arrIncludes. rewrite existsb_exists. split.
  - intros (y & Hy & Heq). apply String.eqb_eq in Heq. now subst.
  - intros Hin. exists x. split; [exact Hin | apply String.eqb_refl].
Qed.

Lemma arrIncludes_false (l : list string) (x : string) :
  arrIncludes l x = false <-> ~ In x l.
Proof.
  rewrite <- arrIncludes_In. destruct (arrIncludes l x); split; intros; congruence.
Qed.

Lemma truthyValue_Some (o : option string) (s : string) :
  truthyValue o = Some s <-> o = Some s /\ s <> EmptyString.
Proof.
  unfold truthyValue, truthy_str. destruct o as [t|].
  - destruct (String.eqb_spec t EmptyString) as [->|Hne]; simpl; split.
    + discriminate.
    + intros [[= <-] Hs]. now contradiction Hs.
    + intros [= <-]. now split.
    + now intros [-> _].
  - split; [discriminate | now intros [? _]].
Qed.

Lemma truthyValue_truthy_opt (o : option string) :
  truthy_opt o = match truthyValue o with Some _ => true | None => false end.
Proof.
  unfold truthy_opt, truthyValue. destruct o as [t|]; [|reflexivity].
  now destruct (truthy_str t).
Qed.

Lemma or_else_truthy (o : option string) (d s : string) :
  truthyValue o = Some s -> or_else o d = s.
Proof.
  unfold truthyValue, or_else. destruct o as [t|]; [|discriminate].
  destruct (truthy_str t); [now intros [= ->] | discriminate].
Qed.

Lemma obj_get_map_set_eq {V : Type} (m : list (string * V)) k v :
  obj_get (map_set m k v) k = Some v.
Proof.
  induction m as [|[k' v'] m IH]; simpl.
  - now rewrite String.eqb_refl.
  - destruct (String.eqb_spec k' k) as [->|Hne]; simpl.
    + now rewrite String.eqb_refl.
    + now destruct (String.eqb_spec k' k).
Qed.

Lemma obj_get_map_set_ne {V : Type} (m : list (string * V)) k k' v :
  k <> k' -> obj_get (map_set m k v) k' = obj_get m k'.
Proof.
  intros Hne. induction m as [|[k0 v0] m IH]; simpl.
  - now destruct (String.eqb_spec k k').
  - destruct (String.eqb_spec k0 k) as [->|Hne0]; simpl.
    + now destruct (String.eqb_spec k k').
    + now rewrite IH.
Qed.

(** An entry of an id table is filed under its own id and comes from the
    content list. *)
Lemma index_by_lookup {A : Type} (key : A -> string) (l : list A) k x :
  index_by key l !! k = Some x -> key x = k /\ In x l.
Proof.
  unfold index_by.
  assert (Hgen : forall (m : gmap string A),
             (forall k x, m !! k = Some x -> key x = k /\ In x l) ->
             forall l', (forall y, In y l' -> In y l) ->
             forall k x,
               foldl (fun m x => <[ key x := x ]> m) m l' !! k = Some x ->
               key x = k /\ In x l).
  { intros m Hm l'. revert m Hm.
    induction l' as [|y l' IH]; intros m Hm Hsub k0 x0; simpl.
    - apply Hm.
    - apply IH.
      + intros k1 x1. rewrite lookup_insert. case_decide as Hk.
        * intros [= <-]. split; [exact Hk | apply Hsub; now left].
        * apply Hm.
      + intros z Hz. apply Hsub. now right. }
  apply (Hgen ∅).
  - intros k0 x0. rewrite lookup_empty. discriminate.
  - auto.
Qed.

(** [Array.prototype.find] returns the first element that satisfies the
    predicate. *)
Lemma find_first {A : Type} (p : A -> bool) (l : list A) (x : A) :
  List.find p l = Some x <->
  exists pre post,
    l = pre ++ x :: post /\ p x = true /\ (forall y, In y pre -> p y = false).
Proof.
  induction l as [|a l IH]; simpl.
  - split; [discriminate|]. intros (pre & post & Heq & _). now destruct pre.
  - destruct (p a) eqn:Hpa.
    + split.
      * intros [= ->]. exists [], l. repeat split; [exact Hpa | intros y []].
      * intros (pre & post & Heq & Hpx & Hpre).
        destruct pre as [|b pre]; simpl in Heq; injection Heq as -> ->.
        -- reflexivity.
        -- rewrite (Hpre b) in Hpa by now left. discriminate.
    + rewrite IH. split.
      * intros (pre & post & -> & Hpx & Hpre).
        exists (a :: pre), post. repeat split; [exact Hpx|].
        intros y [<-|Hy]; [exact Hpa | now apply Hpre].
      * intros (pre & post & Heq & Hpx & Hpre).
        destruct pre as [|b pre]; simpl in Heq; injection Heq as -> ->.
        -- congruence.
        -- exists pre, post. repeat split; [exact Hpx|].
           intros y Hy. apply Hpre. now right.
Qed.

Lemma find_none_iff {A : Type} (p : A -> bool) (l : list A) :
  List.find p l = None <-> forall y, In y l -> p y = false.
Proof.
  split; [apply find_none|].
  induction l as [|a l IH]; simpl; [reflexivity|]. intros H.
  rewrite (H a) by now left. apply IH. intros y Hy. apply H. now right.
Qed.

End Basics.

(** ** Locked exits *)

Lemma checkUnlockCondition_spec (lockedInfo : LockInfo) (st : State) :
  checkUnlockCondition lockedInfo st = true <-> unlockConditionMet lockedInfo st.
Proof.
  unfold checkUnlockCondition, unlockConditionMet, GameState.hasItem,
    GameState.getFlag.
  rewrite andb_true_iff.
  destruct (truthyValue (requiresItem lockedInfo)) as [itemId|];
    destruct (truthyValue (requiresFlag lockedInfo)) as [flagName|];
    rewrite ?arrIncludes_In; split.
  all: try (intros [H1 H2]; split; intros x [= <-]; assumption).
  all: try (intros [H1 H2]; split; intros x; discriminate || (intros [= <-]; assumption)).
  all: try (intros [H1 H2]; split; auto).
Qed.

(** The outcome of [handleGo] at an exit that exists and is listed among the
    locked exits. *)
Lemma handleGo_at_locked_exit (g : Content) (st : State) (command : Command)
    (noun : string) (room : Room) (targetRoomId : string) (lockedInfo : LockInfo) :
  let direction := resolveDirectionSynonym (toLowerCase noun) in
  truthyValue (cmd_noun command) = Some noun ->
  getCurrentRoom g st = Some room ->
  truthyValue (obj_get (room_exits room) direction) = Some targetRoomId ->
  obj_get (room_lockedExits room) direction = Some lockedInfo ->
  handleGo g command st =
    if checkUnlockCondition lockedInfo st
    then enterRoom g direction targetRoomId st
    else (st, [Warning (lockedText lockedInfo direction)]).
Proof.
  intros direction Hnoun Hroom Hexit Hlock.
  unfold handleGo, withState. rewrite Hnoun, Hroom. fold direction.
  rewrite Hexit, Hlock. now destruct (checkUnlockCondition lockedInfo st).
Qed.



Example locked_until_keycard_taken :
  map (fun r => (currentRoomId (Main.final r), Main.narrated r))
      (Main.runCommands DemoLock.content DemoLock.start
         ["go east"; "take keycard"; "GO East"])
  = [ ("bridge", [Warning "The door needs a keycard."]);
      ("bridge", [Success "You pick up the Keycard."]);
      ("corridor",
       [ Message ("You go east." +:+ nl);
         RoomDescription
           (Demo.room "corridor" "Corridor" [("west", "bridge")] [] [] [])
           [] [] [("west", "bridge")] ]) ].
Proof. vm_compute. reflexivity. Qed.

(** ** Entity resolution *)

Section EntityResolution.

Context {A : Type} `{Entity A}.

Lemma matchesName_modes (entity : A) (searchName : string) :
  matchesName entity searchName =
  matchesExactName entity searchName || matchesId entity searchName
  || matchesSubstring entity searchName || matchesAlias entity searchName.
Proof.
  unfold matchesName, matchesExactName, matchesId, matchesSubstring, matchesAlias.
  destruct (String.eqb (toLowerCase (ent_name entity)) searchName); [reflexivity|].
  destruct (String.eqb (toLowerCase (ent_id entity)) searchName); [reflexivity|].
  now destruct (includes (toLowerCase (ent_name entity)) searchName).
Qed.

Lemma matchesName_matchMode (entity : A) (searchName : string) :
  matchesName entity searchName = true <->
  exists mode, matchMode entity searchName = Some mode.
Proof.
  rewrite matchesName_modes. unfold matchMode.
  destruct (matchesExactName entity searchName); [simpl; split; eauto|].
  destruct (matchesId entity searchName); [simpl; split; eauto|].
  destruct (matchesSubstring entity searchName); [simpl; split; eauto|].
  destruct (matchesAlias entity searchName); simpl; split; eauto.
  - discriminate.
  - intros [m Hm]. discriminate.
Qed.

Lemma firstMatch_FirstMatching (table : gmap string A) (ids : list string)
    (searchName : string) :
  FirstMatching table ids searchName (firstMatch table ids searchName).
Proof.
  induction ids as [|id rest IH]; simpl.
  - intros id entity [].
  - destruct (table !! id) as [entity|] eqn:Hid.
    + destruct (matchesName entity searchName) eqn:Hm.
      * exists [], id, rest. repeat split; try assumption. intros ? ? [].
      * destruct (firstMatch table rest searchName) as [found|]; simpl in *.
        -- destruct IH as (before & id1 & after & -> & Hid1 & Hm1 & Hbefore).
           exists (id :: before), id1, after. repeat split; try assumption.
           intros id' entity' [<-|Hin] Hlook.
           ++ congruence.
           ++ now apply (Hbefore id').
        -- intros id' entity' [<-|Hin] Hlook; [congruence|].
           now apply (IH id').
    + destruct (firstMatch table rest searchName) as [found|]; simpl in *.
      * destruct IH as (before & id1 & after & -> & Hid1 & Hm1 & Hbefore).
        exists (id :: before), id1, after. repeat split; try assumption.
        intros id' entity' [<-|Hin] Hlook.
        -- congruence.
        -- now apply (Hbefore id').
      * intros id' entity' [<-|Hin] Hlook; [congruence|].
        now apply (IH id').
Qed.

End EntityResolution.

(** C2, as amended. For every search term, a finder walks its candidates in
    list order (the inventory, the ids located in the current room) and
    returns the first candidate that matches in any of the four ways; the
    exact name, the id, the substring and the aliases are tried in that order
    on each candidate, but the way a candidate matches never ranks it against
    the other candidates. *)
Theorem entity_resolution_first_candidate (g : Content) (name : string) (st : State) :
  FirstMatching (itemsById g) (inventory st) name (findItemInInventory g name st)
  /\ FirstMatching (itemsById g)
       (GameState.getItemsInRoom (currentRoomId st) st) name
       (findItemInRoom g name st)
  /\ (forall item : Item,
        matchesName item name =
        matchesExactName item name || matchesId item name
        || matchesSubstring item name || matchesAlias item name).
Proof.
  split; [|split].
  - apply firstMatch_FirstMatching.
  - apply firstMatch_FirstMatching.
  - intros item. apply matchesName_modes.
Qed.

(** C2, as stated, fails: with the brass key picked up before the plain key,
    the name [key] resolves to the brass key, which matches only as a
    substring of its name (rank 2), although the plain key is a candidate
    that matches by its exact name (rank 0). *)
Lemma entity_resolution_priority_counterexample :
  findItemInInventory DemoKeys.content "key" DemoKeys.carrying
    = Some DemoKeys.brassKey
  /\ matchMode DemoKeys.brassKey "key" = Some 2
  /\ In "key" (inventory DemoKeys.carrying)
  /\ itemsById DemoKeys.content !! "key" = Some DemoKeys.plainKey
  /\ matchMode DemoKeys.plainKey "key" = Some 0.
Proof. vm_compute. repeat split; auto. Qed.

Example carrying_both_keys :
  inventory DemoKeys.carrying = ["brass_key"; "key"].
Proof. vm_compute. reflexivity. Qed.

(** ** Using an item *)

Lemma isDefaultAction_spec (action : UseAction) :
  isDefaultAction action = true <-> truthyValue (ua_target action) = None.
Proof.
  unfold isDefaultAction. rewrite truthyValue_truthy_opt.
  destruct (truthyValue (ua_target action)); simpl; split; congruence.
Qed.

Lemma actionMatchesTarget_spec (g : Content) (targetName : string)
    (action : UseAction) :
  actionMatchesTarget g targetName action = true <->
  exists target,
    truthyValue (ua_target action) = Some target
    /\ (toLowerCase target = targetName
        \/ matchesEntity g target targetName = true).
Proof.
  unfold actionMatchesTarget.
  destruct (truthyValue (ua_target action)) as [target|].
  - rewrite orb_true_iff, String.eqb_eq. split.
    + intros Hm. exists target. now split.
    + now intros (t & [= <-] & Hm).
  - split; [discriminate | now intros (t & Ht & _)].
Qed.

(** [matchesEntity] resolves the configured target as an item id and as a
    character id and matches the typed name against what it finds. *)
Lemma matchesEntity_spec (g : Content) (entityId searchName : string) :
  matchesEntity g entityId searchName = true <->
  (exists item, itemsById g !! entityId = Some item
                /\ matchesName item searchName = true)
  \/ (exists character, charactersById g !! entityId = Some character
                        /\ matchesName character searchName = true).
Proof.
  unfold matchesEntity. rewrite orb_true_iff. split.
  - intros [Hm|Hm].
    + left. destruct (itemsById g !! entityId) as [item|]; [eauto | discriminate].
    + right. destruct (charactersById g !! entityId) as [character|];
        [eauto | discriminate].
  - intros [(item & -> & Hm)|(character & -> & Hm)]; [now left | now right].
Qed.

(** The outcome of [handleUse] once the item is resolved among the carried
    items and has use-actions. *)
Lemma handleUse_carried (g : Content) (st : State) (command : Command)
    (noun : string) (item : Item) :
  truthyValue (cmd_noun command) = Some noun ->
  findItemInInventory g (toLowerCase noun) st = Some item ->
  item_useActions item <> [] ->
  handleUse g command st =
    match truthyValue (cmd_target command) with
    | None =>
        match List.find isDefaultAction (item_useActions item) with
        | Some defaultAction => executeUseAction g item defaultAction st
        | None =>
            (st, [Error ("Use the " +:+ item_name item +:+ " on what? Try " +:+
                         dq +:+ "use " +:+ toLowerCase (item_name item) +:+
                         " on <target>" +:+ dq +:+ ".")])
        end
    | Some target =>
        match List.find (actionMatchesTarget g (toLowerCase target))
                        (item_useActions item) with
        | Some matchingAction => executeUseAction g item matchingAction st
        | None =>
            (st, [Message ("Nothing happens when you try to use the " +:+
                           item_name item +:+ " on " +:+ target +:+ ".")])
        end
    end.
Proof.
  intros Hnoun Hitem Hactions.
  unfold handleUse, withState. rewrite Hnoun, Hitem.
  destruct (item_useActions item) as [|a0 rest] eqn:Hacts; [congruence|].
  destruct (truthyValue (cmd_target command)) as [target|].
  - now destruct (List.find _ (a0 :: rest)).
  - now destruct (List.find _ (a0 :: rest)).
Qed.



Example use_wrench_runs :
  map Main.narrated
      (Main.runCommands DemoUse.content DemoUse.carrying
         ["use wrench"; "use wrench on the PANEL"; "use wrench on moon"])
  = [ [Success "You wave the wrench around."];
      [Success "You tighten the panel."];
      [Message "Nothing happens when you try to use the Wrench on moon."] ].
Proof. vm_compute. reflexivity. Qed.

(** C7. A use intent whose item is not found among the carried items but is
    found among the items located in the current room is answered by the
    warning that tells the player to pick the item up first, naming it, and
    the state is unchanged; the "don't have" error is the answer only when
    the item is found in neither place. *)
Theorem use_room_item_pick_up_first (g : Content) (st : State)
    (command : Command) (noun : string)
    (Hnoun : truthyValue (cmd_noun command) = Some noun)
    (Hinv : findItemInInventory g (toLowerCase noun) st = None) :
  (forall roomItem,
     findItemInRoom g (toLowerCase noun) st = Some roomItem ->
     handleUse g command st =
       (st, [Warning ("You need to pick up the " +:+ item_name roomItem +:+
                      " first. Try " +:+ dq +:+ "take " +:+
                      toLowerCase (item_name roomItem) +:+ dq +:+ ".")]))
  /\
  (findItemInRoom g (toLowerCase noun) st = None ->
   handleUse g command st =
     (st, [Error ("You don't have any " +:+ dq +:+ noun +:+ dq +:+ ".")])).
Proof.
  unfold handleUse, withState. rewrite Hnoun, Hinv. split.
  - intros roomItem Hroom. now rewrite Hroom.
  - intros Hroom. now rewrite Hroom.
Qed.

Lemma use_room_item_pick_up_first_witness :
  handleUse DemoUse.content DemoUse.useWrench (initialState DemoUse.content)
  = (initialState DemoUse.content,
     [Warning ("You need to pick up the Wrench first. Try " +:+ dq +:+
               "take wrench" +:+ dq +:+ ".")]).
Proof.
  exact (proj1 (use_room_item_pick_up_first DemoUse.content
                  (initialState DemoUse.content) DemoUse.useWrench "wrench"
                  eq_refl eq_refl)
               DemoUse.wrench eq_refl).
Defined.

(** ** Operations that keep a state property *)

Section Preservation.

Variable I : State -> Prop.

Lemma preserves_emit (n : Narration) : preserves I (emit n).
Proof. intros st Hst. exact Hst. Qed.

Lemma preserves_skip : preserves I skip.
Proof. intros st Hst. exact Hst. Qed.

Lemma preserves_modify (f : State -> State) :
  (forall st, I st -> I (f st)) -> preserves I (modify f).
Proof. intros Hf st Hst. now apply Hf. Qed.

Lemma preserves_andThen (a b : Act) :
  preserves I a -> preserves I b -> preserves I (andThen a b).
Proof.
  intros Ha Hb st Hst. unfold andThen.
  specialize (Ha st Hst). destruct (a st) as [st1 out1]. simpl in Ha.
  specialize (Hb st1 Ha). destruct (b st1) as [st2 out2]. exact Hb.
Qed.

Lemma preserves_withState (f : State -> Act) :
  (forall s, I s -> preserves I (f s)) -> preserves I (withState f).
Proof. intros Hf st Hst. now apply (Hf st Hst). Qed.

Lemma preserves_when (c : bool) (a : Act) :
  preserves I a -> preserves I (when c a).
Proof. intros Ha. destruct c; [exact Ha | apply preserves_skip]. Qed.

Lemma preserves_ifTruthy (o : option string) (f : string -> Act) :
  (forall s, truthyValue o = Some s -> preserves I (f s)) ->
  preserves I (ifTruthy o f).
Proof.
  intros Hf. unfold ifTruthy.
  destruct (truthyValue o) as [s|]; [now apply Hf | apply preserves_skip].
Qed.

End Preservation.

(** Splits an operation along its sequencing and its case analyses, leaving
    the state mutators to [prim]. *)
Ltac preserve_with prim :=
  repeat first
    [ prim
    | match goal with
      | |- preserves _ (emit _) => apply preserves_emit
      | |- preserves _ skip => apply preserves_skip
      | |- preserves _ (andThen _ _) => apply preserves_andThen
      | |- preserves _ (withState _) => apply preserves_withState; intros ? ?
      | |- preserves _ (ifTruthy _ _) => apply preserves_ifTruthy; intros ? ?
      | |- preserves _ (when _ _) => apply preserves_when
      | |- preserves _ (match ?x with _ => _ end) => destruct x eqn:?
      end ].

(** The read-only helpers keep every state property. *)
Lemma preserves_displayRoomDescription (I : State -> Prop) g room :
  preserves I (displayRoomDescription g room).
Proof. unfold displayRoomDescription. preserve_with fail. Qed.

Lemma preserves_displayItemDescription (I : State -> Prop) item :
  preserves I (displayItemDescription item).
Proof. unfold displayItemDescription. preserve_with fail. Qed.

Lemma preserves_displayCharacterDescription (I : State -> Prop) character :
  preserves I (displayCharacterDescription character).
Proof. unfold displayCharacterDescription. preserve_with fail. Qed.

Lemma preserves_showAvailableExits (I : State -> Prop) room :
  preserves I (showAvailableExits room).
Proof. unfold showAvailableExits. preserve_with fail. Qed.

Lemma preserves_handleExamine (I : State -> Prop) g command :
  preserves I (handleExamine g command).
Proof.
  unfold handleExamine.
  preserve_with ltac:(first [ apply preserves_displayItemDescription
                            | apply preserves_displayCharacterDescription ]).
Qed.

Lemma preserves_handleInventory (I : State -> Prop) g command :
  preserves I (handleInventory g command).
Proof. unfold handleInventory. preserve_with fail. Qed.

Lemma preserves_handleHelp (I : State -> Prop) g command :
  preserves I (handleHelp g command).
Proof. unfold handleHelp. preserve_with fail. Qed.

Lemma preserves_handleQuit (I : State -> Prop) g command :
  preserves I (handleQuit g command).
Proof. unfold handleQuit. preserve_with fail. Qed.

(** ** What the finders return *)

Lemma firstMatch_Some {A : Type} `{Entity A} (table : gmap string A)
    (ids : list string) (name : string) (entity : A) :
  firstMatch table ids name = Some entity ->
  exists id, In id ids /\ table !! id = Some entity
             /\ matchesName entity name = true.
Proof.
  intros Hfound. pose proof (firstMatch_FirstMatching table ids name) as Hspec.
  rewrite Hfound in Hspec.
  destruct Hspec as (before & id & after & -> & Hid & Hm & _).
  exists id. split; [|now split]. apply in_or_app. right. now left.
Qed.

Lemma findItemInInventory_Some g name st item :
  findItemInInventory g name st = Some item ->
  In (item_id item) (inventory st)
  /\ itemsById g !! item_id item = Some item
  /\ In item (items g)
  /\ matchesName item name = true.
Proof.
  intros Hfound. apply firstMatch_Some in Hfound as (id & Hin & Hid & Hm).
  destruct (index_by_lookup item_id (items g) id item Hid) as [<- Hitem].
  auto.
Qed.

Lemma findItemInRoom_Some g name st item :
  findItemInRoom g name st = Some item ->
  In (item_id item) (GameState.getItemsInRoom (currentRoomId st) st)
  /\ itemsById g !! item_id item = Some item
  /\ In item (items g)
  /\ matchesName item name = true.
Proof.
  intros Hfound. apply firstMatch_Some in Hfound as (id & Hin & Hid & Hm).
  destruct (index_by_lookup item_id (items g) id item Hid) as [<- Hitem].
  auto.
Qed.

Lemma findCharacterInRoom_Some g name st character :
  findCharacterInRoom g name st = Some character ->
  charactersById g !! char_id character = Some character
  /\ In character (characters g)
  /\ matchesName character name = true.
Proof.
  unfold findCharacterInRoom. destruct (getCurrentRoom g st); [|discriminate].
  intros Hfound. apply firstMatch_Some in Hfound as (id & Hin & Hid & Hm).
  destruct (index_by_lookup char_id (characters g) id character Hid) as [<- Hc].
  auto.
Qed.

(** ** State properties kept by every command *)

(** Mutators that leave the fields read by the property alone. *)
Ltac frame_prim :=
  idtac;
  match goal with
  | |- preserves _ (modify _) =>
      apply preserves_modify; let H := fresh in intros ? H; exact H
  | |- preserves _ (displayRoomDescription _ _) =>
      apply preserves_displayRoomDescription
  | |- preserves _ (showAvailableExits _) =>
      apply preserves_showAvailableExits
  end.

Section EngineInvariant.

Variable g : Content.
Variable I : State -> Prop.

Hypothesis keeps_visit :
  forall roomId st, I st -> I (GameState.markRoomVisited roomId st).

Hypothesis keeps_move :
  forall roomId room st,
    roomsById g !! roomId = Some room ->
    I st -> I (GameState.setCurrentRoom roomId st).

Hypothesis keeps_add :
  forall itemId st, I st -> I (GameState.addItem itemId st).

Hypothesis keeps_event :
  forall item event,
    In item (items g) -> item_onTake item = Some event ->
    preserves I (processEvent event).

Hypothesis keeps_drop :
  forall itemId st,
    I st ->
    I (GameState.setItemLocation itemId (currentRoomId st)
         (GameState.removeItem itemId st)).

Hypothesis keeps_use :
  forall item action,
    In item (items g) -> In action (item_useActions item) ->
    preserves I (executeUseAction g item action).

Hypothesis keeps_talk :
  forall character,
    charactersById g !! char_id character = Some character ->
    In character (characters g) ->
    preserves I (runDialogue g character).

Lemma invariant_handleGo command : preserves I (handleGo g command).
Proof.
  unfold handleGo, enterRoom.
  preserve_with ltac:(first
    [ apply preserves_showAvailableExits
    | apply preserves_displayRoomDescription
    | apply preserves_modify; intros ?; apply keeps_visit
    | apply preserves_modify; intros ?; eapply keeps_move; eassumption ]).
Qed.

Lemma invariant_handleLook command : preserves I (handleLook g command).
Proof.
  unfold handleLook.
  preserve_with ltac:(first
    [ apply preserves_handleExamine
    | apply preserves_displayRoomDescription
    | apply preserves_modify; intros ?; apply keeps_visit ]).
Qed.

Lemma invariant_handleTake command : preserves I (handleTake g command).
Proof.
  unfold handleTake.
  preserve_with ltac:(first
    [ apply preserves_modify; intros ?; apply keeps_add
    | match goal with
      | Hfound : findItemInRoom g _ _ = Some ?item,
        Hevent : item_onTake ?item = Some ?event
        |- preserves I (processEvent ?event) =>
          apply (keeps_event item event);
          [ apply (findItemInRoom_Some _ _ _ _ Hfound) | exact Hevent ]
      end ]).
Qed.

Lemma invariant_handleDrop command : preserves I (handleDrop g command).
Proof.
  intros st Hst. unfold handleDrop.
  destruct (truthyValue (cmd_noun command)) as [noun|]; [|exact Hst].
  unfold withState.
  destruct (findItemInInventory g (toLowerCase noun) st) as [item|];
    [|exact Hst].
  cbn. now apply keeps_drop.
Qed.

Lemma invariant_handleTalk command : preserves I (handleTalk g command).
Proof.
  unfold handleTalk.
  preserve_with ltac:(idtac;
    match goal with
    | Hfound : findCharacterInRoom g _ _ = Some ?character
      |- preserves I (runDialogue g ?character) =>
        apply keeps_talk; apply (findCharacterInRoom_Some _ _ _ _ Hfound)
    end).
Qed.

Lemma invariant_handleUse command : preserves I (handleUse g command).
Proof.
  unfold handleUse.
  preserve_with ltac:(idtac;
    match goal with
    | Hfound : findItemInInventory g _ _ = Some ?item,
      Hactions : item_useActions ?item = _,
      Haction : List.find _ _ = Some ?action
      |- preserves I (executeUseAction g ?item ?action) =>
        apply keeps_use;
        [ apply (findItemInInventory_Some _ _ _ _ Hfound)
        | rewrite Hactions; apply (find_some _ _ Haction) ]
    end).
Qed.

(** Every command of the rule engine keeps the property. *)
Lemma invariant_execute command : preserves I (execute g command).
Proof.
  unfold execute.
  destruct (negb (truthy_str (cmd_verb command))); [apply preserves_emit|].
  destruct (isDirection (cmd_verb command)); [apply invariant_handleGo|].
  destruct (obj_get commandHandlers (cmd_verb command)) as [[]|]; simpl;
    first [ apply invariant_handleLook | apply invariant_handleGo
          | apply preserves_handleExamine | apply invariant_handleTake
          | apply invariant_handleDrop | apply preserves_handleInventory
          | apply invariant_handleTalk | apply invariant_handleUse
          | apply preserves_handleHelp | apply preserves_handleQuit
          | apply preserves_emit ].
Qed.

End EngineInvariant.

(** ** Inventory and location records *)

Section SpliceFirst.

Lemma spliceFirst_In (l : list string) (id x : string) :
  In x (GameState.spliceFirst l id) -> In x l.
Proof.
  induction l as [|y l IH]; simpl; [tauto|].
  destruct (String.eqb_spec y id) as [->|Hne].
  - now right.
  - intros [<-|Hin]; [now left | right; now apply IH].
Qed.

Lemma spliceFirst_other (l : list string) (id x : string) :
  x <> id -> In x l -> In x (GameState.spliceFirst l id).
Proof.
  intros Hne. induction l as [|y l IH]; simpl; [tauto|].
  destruct (String.eqb_spec y id) as [->|Hy].
  - intros [<-|Hin]; [contradiction | exact Hin].
  - intros [<-|Hin]; [now left | right; now apply IH].
Qed.

Lemma spliceFirst_NoDup (l : list string) (id : string) :
  List.NoDup l -> List.NoDup (GameState.spliceFirst l id).
Proof.
  induction 1 as [|y l Hy Hnd IH]; simpl; [constructor|].
  destruct (String.eqb_spec y id) as [->|Hne]; [exact Hnd|].
  constructor; [|exact IH]. intros Hin. apply Hy. eapply spliceFirst_In, Hin.
Qed.

Lemma NoDup_snoc (l : list string) (x : string) :
  List.NoDup l -> ~ In x l -> List.NoDup (l ++ [x]).
Proof.
  induction 1 as [|y l Hy Hnd IH]; simpl; intros Hx.
  - constructor; [tauto | constructor].
  - constructor.
    + intros Hin. apply in_app_or in Hin as [Hin|[Heq|[]]]; [tauto|].
      apply Hx. now left.
    + apply IH. intros Hin. apply Hx. now right.
Qed.

Lemma spliceFirst_gone (l : list string) (id : string) :
  List.NoDup l -> ~ In id (GameState.spliceFirst l id).
Proof.
  induction 1 as [|y l Hy Hnd IH]; simpl; [tauto|].
  destruct (String.eqb_spec y id) as [->|Hne]; [exact Hy|].
  intros [Heq|Hin]; [congruence | now apply IH].
Qed.

End SpliceFirst.

Section Consistency.

Lemma consistent_addItem itemId st :
  consistent st -> consistent (GameState.addItem itemId st).
Proof.
  intros (Hnd & Hloc & Hroom). unfold GameState.addItem.
  destruct (arrIncludes (inventory st) itemId) eqn:Hinc;
    [exact (conj Hnd (conj Hloc Hroom))|].
  apply arrIncludes_false in Hinc.
  split; [|split; [intros itemId0; split|]]; simpl; try assumption.
  - now apply NoDup_snoc.
  - unfold GameState.getItemLocation. simpl.
    destruct (String.eqb_spec itemId itemId0) as [<-|Hne].
    + intros _. apply obj_get_map_set_eq.
    + rewrite obj_get_map_set_ne by assumption.
      intros Hin. apply Hloc. apply in_app_or in Hin as [Hin|[Heq|[]]]; congruence.
  - unfold GameState.getItemLocation. simpl.
    destruct (String.eqb_spec itemId itemId0) as [<-|Hne].
    + intros _. apply in_or_app. right. now left.
    + rewrite obj_get_map_set_ne by assumption.
      intros Hget. apply in_or_app. left. now apply Hloc.
Qed.

(** [removeItem] alone breaks the agreement; followed by a relocation to a
    place other than ["inventory"] it restores it. *)
Lemma consistent_relocate itemId location st :
  location <> "inventory" ->
  consistent st ->
  consistent (GameState.setItemLocation itemId location
                (GameState.removeItem itemId st)).
Proof.
  intros Hplace (Hnd & Hloc & Hroom).
  split; [|split; [intros itemId0; split|]]; simpl; try assumption.
  - now apply spliceFirst_NoDup.
  - unfold GameState.getItemLocation. simpl.
    destruct (String.eqb_spec itemId itemId0) as [<-|Hne].
    + intros Hin. now apply spliceFirst_gone in Hin.
    + rewrite obj_get_map_set_ne by assumption.
      intros Hin. apply Hloc. eapply spliceFirst_In, Hin.
  - unfold GameState.getItemLocation. simpl.
    destruct (String.eqb_spec itemId itemId0) as [<-|Hne].
    + rewrite obj_get_map_set_eq. intros [= Heq]. congruence.
    + rewrite obj_get_map_set_ne by assumption.
      intros Hget. apply spliceFirst_other; [congruence | now apply Hloc].
Qed.

Lemma consistent_setFlag flagName value st :
  consistent st -> consistent (GameState.setFlag flagName value st).
Proof. intros H. exact H. Qed.

Lemma consistent_markRoomVisited roomId st :
  consistent st -> consistent (GameState.markRoomVisited roomId st).
Proof. intros H. exact H. Qed.

Lemma consistent_setDialogueState characterId nodeId st :
  consistent st -> consistent (GameState.setDialogueState characterId nodeId st).
Proof. intros H. exact H. Qed.

Lemma consistent_addToHistory command st :
  consistent st -> consistent (GameState.addToHistory command st).
Proof.
  intros H. unfold GameState.addToHistory.
  now destruct (negb (truthy_str command) || String.eqb (trim command) EmptyString).
Qed.

Lemma consistent_setCurrentRoom roomId st :
  roomId <> "inventory" ->
  consistent st -> consistent (GameState.setCurrentRoom roomId st).
Proof. intros Hne (Hnd & Hloc & Hroom). exact (conj Hnd (conj Hloc Hne)). Qed.

End Consistency.

(** The state mutators of the handlers, for [consistent]. *)
Ltac consistent_prim :=
  idtac;
  match goal with
  | |- preserves consistent (modify (GameState.addItem _)) =>
      apply preserves_modify; intros ?; apply consistent_addItem
  | |- preserves consistent (modify (GameState.setFlag _ _)) =>
      apply preserves_modify; intros ?; apply consistent_setFlag
  | |- preserves consistent (modify (GameState.markRoomVisited _)) =>
      apply preserves_modify; intros ?; apply consistent_markRoomVisited
  | |- preserves consistent (modify (GameState.setDialogueState _ _)) =>
      apply preserves_modify; intros ?; apply consistent_setDialogueState
  | |- preserves consistent (displayRoomDescription _ _) =>
      apply preserves_displayRoomDescription
  | |- preserves consistent (showAvailableExits _) =>
      apply preserves_showAvailableExits
  end.

Section ConsistencyOfCommands.

Variable g : Content.

Hypothesis rooms_not_inventory :
  forall room, In room (rooms g) -> room_id room <> "inventory".

Lemma preserves_consistent_relocate itemId location :
  location <> "inventory" ->
  preserves consistent
    (andThen (modify (GameState.removeItem itemId))
             (modify (GameState.setItemLocation itemId location))).
Proof.
  intros Hplace st Hst. cbn. now apply consistent_relocate.
Qed.

Lemma consistent_giveItemTo itemId notice :
  preserves consistent (giveItemTo g itemId notice).
Proof. unfold giveItemTo. preserve_with consistent_prim. Qed.

Lemma consistent_processEvent event :
  preserves consistent (processEvent event).
Proof. unfold processEvent. preserve_with consistent_prim. Qed.

Lemma consistent_executeUseAction item action :
  preserves consistent (executeUseAction g item action).
Proof.
  unfold executeUseAction.
  preserve_with ltac:(first [ consistent_prim
                            | apply consistent_giveItemTo
                            | apply preserves_consistent_relocate; discriminate ]).
Qed.

Lemma consistent_displayDialogueNode character node :
  preserves consistent (displayDialogueNode g character node).
Proof.
  unfold displayDialogueNode.
  preserve_with ltac:(first [ consistent_prim | apply consistent_giveItemTo ]).
Qed.

Lemma consistent_runDialogue character :
  preserves consistent (runDialogue g character).
Proof.
  unfold runDialogue.
  preserve_with ltac:(apply consistent_displayDialogueNode).
Qed.

Lemma consistent_execute command :
  preserves consistent (execute g command).
Proof.
  apply invariant_execute.
  - intros roomId st. apply consistent_markRoomVisited.
  - intros roomId room st Hroom. apply consistent_setCurrentRoom.
    apply index_by_lookup in Hroom as [<- Hin]. now apply rooms_not_inventory.
  - intros itemId st. apply consistent_addItem.
  - intros item event _ _. apply consistent_processEvent.
  - intros itemId st Hst. apply consistent_relocate; [apply Hst | exact Hst].
  - intros item action _ _. apply consistent_executeUseAction.
  - intros character _ _. apply consistent_runDialogue.
Qed.

End ConsistencyOfCommands.

Lemma foldl_keeps {A B : Type} (P : A -> Prop) (f : A -> B -> A) (l : list B) :
  (forall a b, In b l -> P a -> P (f a b)) ->
  forall a, P a -> P (foldl f a l).
Proof.
  induction l as [|b l IH]; simpl; intros Hf a Ha; [exact Ha|].
  apply IH.
  - intros a' b' Hb'. apply Hf. now right.
  - apply Hf; [now left | exact Ha].
Qed.

Section ConsistencyOfRuns.

Variable g : Content.

Hypothesis start_not_inventory : startingRoom (config g) <> "inventory".

Hypothesis rooms_not_inventory :
  forall room, In room (rooms g) -> room_id room <> "inventory".

Lemma consistent_initialState : consistent (initialState g).
Proof.
  set (P := fun st : State =>
              inventory st = []
              /\ currentRoomId st = startingRoom (config g)
              /\ forall itemId, obj_get (itemLocations st) itemId <> Some "inventory").
  assert (HP : P (initialState g)).
  { unfold initialState, GameState.initializeItemLocations.
    apply foldl_keeps.
    - intros st room Hroom Hst. apply foldl_keeps; [|exact Hst].
      intros st' itemId _ (Hinv & Hcur & Hlocs). repeat split; try assumption.
      intros itemId0. simpl.
      destruct (String.eqb_spec itemId itemId0) as [<-|Hne].
      + rewrite obj_get_map_set_eq. intros [= Heq].
        now apply (rooms_not_inventory room).
      + rewrite obj_get_map_set_ne by assumption. apply Hlocs.
    - repeat split. intros itemId. discriminate. }
  destruct HP as (Hinv & Hcur & Hlocs).
  split; [|split].
  - rewrite Hinv. constructor.
  - intros itemId. rewrite Hinv. unfold GameState.getItemLocation. split.
    + intros [].
    + intros Hget. now apply Hlocs in Hget.
  - now rewrite Hcur.
Qed.

Lemma consistent_checkGameCompletion :
  preserves consistent (Main.checkGameCompletion g).
Proof. unfold Main.checkGameCompletion. preserve_with consistent_prim. Qed.

Lemma consistent_executeCommand input st :
  consistent st -> consistent (Main.final (Main.executeCommand g input st)).
Proof.
  intros Hst. unfold Main.executeCommand.
  pose proof (consistent_addToHistory input st Hst) as H1.
  pose proof (consistent_execute g rooms_not_inventory
                (CommandParser.parse (commands g) input) _ H1) as H2.
  destruct (execute g _ (GameState.addToHistory input st)) as [st2 out].
  pose proof (consistent_checkGameCompletion st2 H2) as H3.
  destruct (Main.checkGameCompletion g st2) as [st3 won]. exact H3.
Qed.

Lemma consistent_stateAfter inputs st :
  consistent st -> consistent (Main.stateAfter g st inputs).
Proof.
  unfold Main.stateAfter. apply foldl_keeps.
  intros s input _. apply consistent_executeCommand.
Qed.

End ConsistencyOfRuns.

(** C9, as amended. Provided the reserved word ["inventory"] is neither the
    starting room nor the identifier of a room: after initialization and
    after every sequence of fully executed commands, an item identifier is in
    the inventory sequence if and only if its location record is
    ["inventory"]. *)
Theorem inventory_matches_location_records (g : Content)
    (Hstart : startingRoom (config g) <> "inventory")
    (Hrooms : forall room, In room (rooms g) -> room_id room <> "inventory")
    (inputs : list string) (itemId : string) :
  let st := Main.stateAfter g (initialState g) inputs in
  In itemId (inventory st) <->
  GameState.getItemLocation itemId st = Some "inventory".
Proof.
  intros st.
  assert (Hst : consistent st).
  { apply consistent_stateAfter; [exact Hrooms|].
    now apply consistent_initialState. }
  apply Hst.
Qed.

Lemma inventory_matches_location_records_witness :
  let st := Main.stateAfter DemoUse.content (initialState DemoUse.content)
              ["take wrench"; "drop wrench"; "take panel"] in
  In "wrench" (inventory st) <->
  GameState.getItemLocation "wrench" st = Some "inventory".
Proof.
  apply (inventory_matches_location_records DemoUse.content).
  - discriminate.
  - intros room [<-|[]]. discriminate.
Defined.

(** C9, as stated, fails: with a room whose identifier is ["inventory"], the
    coin lying there has the location record ["inventory"] right after
    initialization, and is not carried. *)
Lemma inventory_location_counterexample :
  GameState.getItemLocation "coin" (initialState DemoStore.content)
    = Some "inventory"
  /\ ~ In "coin" (inventory (initialState DemoStore.content)).
Proof. split; [reflexivity | intros []]. Qed.

(** ** Items whose visible flag is false *)

Section HiddenItems.

Lemma lookupVisible_visible table itemIds (item : Item) :
  In item (lookupVisible table itemIds) -> isVisible item = true.
Proof.
  induction itemIds as [|itemId rest IH]; simpl; [tauto|].
  destruct (table !! itemId) as [known|]; [|exact IH].
  destruct (isVisible known) eqn:Hvis; [|exact IH].
  intros [<-|Hin]; [exact Hvis | now apply IH].
Qed.

(** An item whose location record is a room is among the ids the state
    reports for that room. *)
Lemma located_in_room itemId roomId st :
  GameState.getItemLocation itemId st = Some roomId ->
  In itemId (GameState.getItemsInRoom roomId st).
Proof.
  unfold GameState.getItemLocation, GameState.getItemsInRoom.
  induction (itemLocations st) as [|[k v] m IH]; simpl; [discriminate|].
  destruct (String.eqb_spec k itemId) as [->|Hne].
  - intros [= ->]. rewrite String.eqb_refl. now left.
  - intros Hget. destruct (String.eqb v roomId); [right|]; now apply IH.
Qed.

Lemma addItem_carried itemId st :
  In itemId (inventory (GameState.addItem itemId st)).
Proof.
  unfold GameState.addItem.
  destruct (arrIncludes (inventory st) itemId) eqn:Hinc.
  - now apply arrIncludes_In.
  - simpl. apply in_or_app. right. now left.
Qed.

Lemma addItem_keeps_carried itemId other st :
  In itemId (inventory st) -> In itemId (inventory (GameState.addItem other st)).
Proof.
  intros Hin. unfold GameState.addItem.
  destruct (arrIncludes (inventory st) other); [exact Hin|].
  simpl. apply in_or_app. now left.
Qed.

Lemma processEvent_keeps_carried itemId event :
  preserves (fun st => In itemId (inventory st)) (processEvent event).
Proof.
  unfold processEvent.
  preserve_with ltac:(idtac; match goal with
    | |- preserves _ (modify (GameState.addItem _)) =>
        apply preserves_modify; intros ?; apply addItem_keeps_carried
    | |- preserves _ (modify (GameState.setFlag _ _)) =>
        apply preserves_modify; intros ? Hin; exact Hin
    end).
Qed.

End HiddenItems.



Example hidden_tile_story :
  map Main.narrated
      (Main.runCommands DemoHidden.content (initialState DemoHidden.content)
         ["look"; "examine tile"; "take tile"; "inventory"])
  = [ [RoomDescription (Demo.room "bridge" "Bridge" [] [] ["tile"] []) [] [] []];
      [Message "A floor tile that wobbles."];
      [Success "You pick up the Loose Tile."];
      [Message ("You are carrying:" +:+ nl +:+ "  • Loose Tile" +:+ nl)] ].
Proof. vm_compute. reflexivity. Qed.

(** ** Directions *)

(** The rule engine never reads the synonym tables of the content. *)
Lemma execute_ignores_commands (g : Content) (c : Commands) (command : Command)
    (st : State) :
  execute (withCommands g c) command st = execute g command st.
Proof. reflexivity. Qed.

Lemma resolveDirectionSynonym_table :
  map (fun entry => resolveDirectionSynonym (fst entry)) directionMap
  = map snd directionMap.
Proof. reflexivity. Qed.

Lemma resolveDirectionSynonym_other (direction : string) :
  obj_get directionMap direction = None ->
  resolveDirectionSynonym direction = direction.
Proof. unfold resolveDirectionSynonym. now intros ->. Qed.

(** The interpreter hands a movement verb the first remaining token resolved
    through the table of the content. *)
Lemma parseNounPhrase_movement (c : Commands) (first : string)
    (rest : list string) (verb : string) :
  In verb ["go"; "walk"; "move"] ->
  CommandParser.parseNounPhrase c (first :: rest) verb
  = (Some (or_else (directions c !! toLowerCase first) (toLowerCase first)),
     None, None).
Proof.
  intros [<-|[<-|[<-|[]]]]; reflexivity.
Qed.




(** ** Synonyms, articles and letter case *)

Section Transparency.

(** A verb of the handler table is not empty, is not a direction word, and
    is a movement verb for the parser exactly when it is bound to
    [handleGo]. *)
Lemma commandHandlers_verb (verb : string) (h : Handler) :
  obj_get commandHandlers verb = Some h ->
  truthy_str verb = true
  /\ isDirection verb = false
  /\ isMovementVerb verb = isGoHandler h.
Proof.
  unfold commandHandlers. cbn [obj_get].
  repeat match goal with
         | |- context [String.eqb ?a verb] =>
             destruct (String.eqb_spec a verb) as [<-|?];
             [ intros [= <-]; vm_compute; auto | ]
         end.
  discriminate.
Qed.

Lemma parse_of_cleanTokens (c : Commands) (input rawVerb : string)
    (remainingTokens : list string) :
  CommandParser.cleanTokens input = rawVerb :: remainingTokens ->
  CommandParser.parse c input =
    let verb := CommandParser.resolveVerbSynonym c rawVerb in
    let '(noun, preposition, target) :=
      CommandParser.parseNounPhrase c remainingTokens verb in
    {| cmd_verb := verb; cmd_noun := noun; cmd_preposition := preposition;
       cmd_target := target; cmd_raw := input;
       cmd_tokens := rawVerb :: remainingTokens |}.
Proof.
  intros Hclean. unfold CommandParser.parse.
  destruct (truthy_str input) eqn:Hinput; simpl.
  - unfold CommandParser.cleanTokens in Hclean.
    destruct (String.eqb_spec (CommandParser.normalizeInput input) EmptyString)
      as [Hempty|_].
    + rewrite Hempty in Hclean. discriminate.
    + now rewrite Hclean.
  - unfold truthy_str in Hinput. apply negb_false_iff, String.eqb_eq in Hinput.
    subst input. discriminate.
Qed.

(** A handler reads the noun and the target of the intent, nothing else. *)
Lemma handle_reads_noun_and_target (g : Content) (h : Handler)
    (c1 c2 : Command) :
  cmd_noun c1 = cmd_noun c2 ->
  cmd_target c1 = cmd_target c2 ->
  handle g h c1 = handle g h c2.
Proof.
  intros Hn Ht.
  destruct h; simpl;
    unfold handleLook, handleGo, handleExamine, handleTake, handleDrop,
      handleInventory, handleTalk, handleUse, handleHelp, handleQuit;
    rewrite ?Hn, ?Ht; reflexivity.
Qed.

Lemma parseNounPhrase_movement_only (c : Commands) (tokens : list string)
    (verb1 verb2 : string) :
  isMovementVerb verb1 = isMovementVerb verb2 ->
  CommandParser.parseNounPhrase c tokens verb1
  = CommandParser.parseNounPhrase c tokens verb2.
Proof.
  unfold isMovementVerb, CommandParser.parseNounPhrase. intros Hm.
  destruct tokens as [|first rest]; [reflexivity|]. now rewrite Hm.
Qed.

(** Two inputs that leave the same tokens after the verb, once lowercased,
    split and freed of their articles, and whose verbs resolve to verbs bound
    to the same handler, are executed alike. *)
Lemma execute_parse_alike (g : Content) (input1 input2 verb1 verb2 : string)
    (rest : list string) (h : Handler) (st : State) :
  CommandParser.cleanTokens input1 = verb1 :: rest ->
  CommandParser.cleanTokens input2 = verb2 :: rest ->
  obj_get commandHandlers (CommandParser.resolveVerbSynonym (commands g) verb1)
    = Some h ->
  obj_get commandHandlers (CommandParser.resolveVerbSynonym (commands g) verb2)
    = Some h ->
  execute g (CommandParser.parse (commands g) input1) st
  = execute g (CommandParser.parse (commands g) input2) st.
Proof.
  intros Hc1 Hc2 Hh1 Hh2.
  rewrite (parse_of_cleanTokens _ _ _ _ Hc1), (parse_of_cleanTokens _ _ _ _ Hc2).
  destruct (commandHandlers_verb _ _ Hh1) as (Ht1 & Hd1 & Hm1).
  destruct (commandHandlers_verb _ _ Hh2) as (Ht2 & Hd2 & Hm2).
  cbv zeta.
  rewrite (parseNounPhrase_movement_only (commands g) rest
             (CommandParser.resolveVerbSynonym (commands g) verb1)
             (CommandParser.resolveVerbSynonym (commands g) verb2))
    by congruence.
  destruct (CommandParser.parseNounPhrase (commands g) rest _)
    as [[noun preposition] target].
  unfold execute. cbn [cmd_verb].
  rewrite Ht1, Ht2, Hd1, Hd2, Hh1, Hh2. cbn [negb].
  apply (f_equal (fun a : Act => a st)).
  now apply handle_reads_noun_and_target.
Qed.

(** Letter case is gone after normalisation. *)
Lemma cleanTokens_letter_case (input1 input2 : string) :
  toLowerCase input1 = toLowerCase input2 ->
  CommandParser.cleanTokens input1 = CommandParser.cleanTokens input2.
Proof.
  unfold CommandParser.cleanTokens, CommandParser.normalizeInput.
  now intros ->.
Qed.

(** No article survives among the tokens. *)
Lemma cleanTokens_no_article (input token : string) :
  In token (CommandParser.cleanTokens input) ->
  ~ In token CommandParser.articles.
Proof.
  unfold CommandParser.cleanTokens, CommandParser.removeArticles.
  intros Hin Hart. apply filter_In in Hin as [_ Hkeep].
  apply arrIncludes_In in Hart. rewrite Hart in Hkeep. discriminate.
Qed.

End Transparency.



Example sword_taken_three_ways :
  map (fun input =>
         let r := Main.executeCommand DemoSword.content input
                    (initialState DemoSword.content) in
         (inventory (Main.final r), Main.narrated r))
      ["get sword"; "take the sword"; "Grab SWORD"]
  = [ (["sword"], [Success "You pick up the Sword."]);
      (["sword"], [Success "You pick up the Sword."]);
      (["sword"], [Success "You pick up the Sword."]) ].
Proof. vm_compute. reflexivity. Qed.

(** ** Objectives and the victory narration *)

Section Flags.

Variable g : Content.
Variable flagName : string.

Lemma flagTruthy_setFlag_same value st :
  flagTruthy flagName (GameState.setFlag flagName value st)
  = truthy_flag (Some value).
Proof.
  unfold flagTruthy, GameState.getFlag. simpl. now rewrite lookup_insert_eq.
Qed.

Lemma flagTruthy_setFlag_other other value st :
  other <> flagName ->
  flagTruthy flagName (GameState.setFlag other value st) = flagTruthy flagName st.
Proof.
  intros Hne. unfold flagTruthy, GameState.getFlag. simpl.
  now rewrite lookup_insert_ne.
Qed.

(** The engine stores [true] only: a truthy flag stays truthy. *)
Lemma setFlag_true_keeps_truthy other st :
  flagTruthy flagName st = true ->
  flagTruthy flagName (GameState.setFlag other (FBool true) st) = true.
Proof.
  intros Hst. destruct (String.eqb_spec other flagName) as [->|Hne].
  - now rewrite flagTruthy_setFlag_same.
  - now rewrite flagTruthy_setFlag_other.
Qed.

Ltac truthy_prim :=
  idtac;
  match goal with
  | |- preserves _ (modify (GameState.setFlag _ (FBool true))) =>
      apply preserves_modify; intros ?; apply setFlag_true_keeps_truthy
  | |- preserves _ (giveItemTo _ _ _) => unfold giveItemTo
  | _ => frame_prim
  end.

Lemma truthy_flag_kept command :
  preserves (fun st => flagTruthy flagName st = true) (execute g command).
Proof.
  apply invariant_execute.
  - intros roomId st Hst. exact Hst.
  - intros roomId room st _ Hst. exact Hst.
  - intros itemId st Hst. unfold GameState.addItem.
    now destruct (arrIncludes (inventory st) itemId).
  - intros item event _ _. unfold processEvent. preserve_with truthy_prim.
    apply preserves_modify. intros st Hst. unfold GameState.addItem.
    now destruct (arrIncludes (inventory st) _).
  - intros itemId st Hst. exact Hst.
  - intros item action _ _. unfold executeUseAction. preserve_with truthy_prim.
    apply preserves_modify. intros st Hst. unfold GameState.addItem.
    now destruct (arrIncludes (inventory st) _).
  - intros character _ _. unfold runDialogue, displayDialogueNode.
    preserve_with truthy_prim.
    all: apply preserves_modify; intros st Hst; unfold GameState.addItem;
      now destruct (arrIncludes (inventory st) _).
Qed.

End Flags.

Section UntouchedFlag.

Variable g : Content.
Variable flagName : string.

Hypothesis never_set : neverSetsFlag g flagName.

Lemma unset_addItem itemId st :
  flagUnset flagName st -> flagUnset flagName (GameState.addItem itemId st).
Proof.
  unfold flagUnset, GameState.addItem.
  now destruct (arrIncludes (inventory st) itemId).
Qed.

Lemma unset_setFlag other o :
  truthyValue o = Some other ->
  truthyValue o <> Some flagName ->
  preserves (flagUnset flagName) (modify (GameState.setFlag other (FBool true))).
Proof.
  intros Ho Hne. apply preserves_modify. intros st Hst. unfold flagUnset.
  rewrite flagTruthy_setFlag_other; [exact Hst | congruence].
Qed.

Ltac unset_prim :=
  idtac;
  match goal with
  | |- preserves _ (modify (GameState.addItem _)) =>
      apply preserves_modify; intros ?; apply unset_addItem
  | |- preserves _ (giveItemTo _ _ _) => unfold giveItemTo
  | Ho : truthyValue ?o = Some ?other
    |- preserves _ (modify (GameState.setFlag ?other (FBool true))) =>
      apply (unset_setFlag other o Ho)
  | _ => frame_prim
  end.

Lemma unset_flag_kept command : preserves (flagUnset flagName) (execute g command).
Proof.
  destruct never_set as [Hitems Hchars].
  apply invariant_execute.
  - intros roomId st Hst. exact Hst.
  - intros roomId room st _ Hst. exact Hst.
  - apply unset_addItem.
  - intros item event Hitem Hevent. unfold processEvent.
    preserve_with unset_prim.
    now apply (proj2 (Hitems item Hitem) event).
  - intros itemId st Hst. exact Hst.
  - intros item action Hitem Haction. unfold executeUseAction.
    preserve_with unset_prim.
    now apply (proj1 (Hitems item Hitem) action).
  - intros character _ Hchar. unfold runDialogue.
    apply preserves_withState. intros s _.
    destruct (char_dialogue character) as [|firstNode rest] eqn:Hdialogue;
      [apply preserves_emit|].
    assert (Hnode : forall node, In node (firstNode :: rest) ->
                      preserves (flagUnset flagName) (displayDialogueNode g character node)).
    { intros node Hin. unfold displayDialogueNode. preserve_with unset_prim.
      apply (Hchars character Hchar node). now rewrite Hdialogue. }
    destruct (findNode (firstNode :: rest) _) as [node|] eqn:Hfind.
    + apply Hnode. apply (find_some _ _ Hfind).
    + apply Hnode. now left.
Qed.

End UntouchedFlag.

Section Completion.

Variable g : Content.
Variable objs : list Objective.

Hypothesis configured : objectives (config g) = Some objs.
Hypothesis reserved : neverSetsFlag g "gameCompleted".

Lemma checkGameCompletion_unfold st :
  Main.checkGameCompletion g st =
    if completed st then (st, [])
    else if Main.allComplete objs st
         then (GameState.setFlag "gameCompleted" (FBool true) st,
               [victoryNarration g])
         else (st, []).
Proof.
  unfold Main.checkGameCompletion, withState, completed, flagTruthy.
  rewrite configured.
  destruct (truthy_flag (GameState.getFlag "gameCompleted" st)); [reflexivity|].
  now destruct (Main.allComplete objs st).
Qed.

(** Recording the completion flag does not undo an objective. *)
Lemma allComplete_after_recording st :
  Main.allComplete objs st = true ->
  Main.allComplete objs (GameState.setFlag "gameCompleted" (FBool true) st) = true.
Proof.
  unfold Main.allComplete. rewrite !forallb_forall.
  intros Hall objective Hin.
  apply (setFlag_true_keeps_truthy (obj_flag objective) "gameCompleted" st).
  now apply Hall.
Qed.

Lemma addToHistory_flags input st :
  flags (GameState.addToHistory input st) = flags st.
Proof.
  unfold GameState.addToHistory.
  now destruct (negb (truthy_str input) || String.eqb (trim input) EmptyString).
Qed.

(** One command, seen from the completion flag. *)
Lemma executeCommand_completion input st :
  let r := Main.executeCommand g input st in
  (completed st = true ->
   Main.victory r = [] /\ completed (Main.final r) = true)
  /\
  (completed st = false ->
   if Main.allComplete objs (Main.final r)
   then Main.victory r = [victoryNarration g]
        /\ completed (Main.final r) = true
   else Main.victory r = [] /\ completed (Main.final r) = false).
Proof.
  unfold Main.executeCommand.
  pose proof (truthy_flag_kept g "gameCompleted"
                (CommandParser.parse (commands g) input)
                (GameState.addToHistory input st)) as Hkept.
  pose proof (unset_flag_kept g "gameCompleted" reserved
                (CommandParser.parse (commands g) input)
                (GameState.addToHistory input st)) as Hunset.
  unfold flagUnset in Hunset.
  unfold flagTruthy, GameState.getFlag in Hkept, Hunset.
  rewrite addToHistory_flags in Hkept, Hunset.
  destruct (execute g _ (GameState.addToHistory input st)) as [st2 out].
  simpl in Hkept, Hunset.
  rewrite checkGameCompletion_unfold.
  unfold completed, flagTruthy, GameState.getFlag in *.
  split.
  - intros Hdone. rewrite (Hkept Hdone). simpl. split; [reflexivity|].
    now apply Hkept.
  - intros Hnot. rewrite (Hunset Hnot).
    destruct (Main.allComplete objs st2) eqn:Hall; simpl.
    + rewrite (allComplete_after_recording st2 Hall).
      split; [reflexivity|]. now rewrite lookup_insert_eq.
    + rewrite Hall. split; [reflexivity|]. now apply Hunset.
Qed.

Lemma no_victory_after_completion inputs st r :
  completed st = true ->
  In r (Main.runCommands g st inputs) ->
  Main.victory r = [] /\ completed (Main.final r) = true.
Proof.
  revert st. induction inputs as [|input rest IH]; simpl; intros st Hdone; [tauto|].
  destruct (proj1 (executeCommand_completion input st) Hdone) as [Hv Hc].
  intros [<-|Hin]; [now split|]. now apply (IH _ Hc).
Qed.

Lemma victory_exactly_at_first_completion inputs st k r :
  completed st = false ->
  Main.runCommands g st inputs !! k = Some r ->
  Main.victory r =
    (if firstCompleteAt objs (take k (Main.runCommands g st inputs)) r
     then [victoryNarration g] else [])
  /\ (Main.allComplete objs (Main.final r) = true ->
      completed (Main.final r) = true).
Proof.
  revert st k. induction inputs as [|input rest IH]; intros st k Hnot;
    [discriminate|].
  cbn [Main.runCommands].
  pose proof (proj2 (executeCommand_completion input st) Hnot) as Hstep.
  cbv zeta in Hstep.
  set (r0 := Main.executeCommand g input st) in *.
  destruct k as [|k]; simpl.
  - intros [= <-]. unfold firstCompleteAt. simpl. rewrite andb_true_r.
    destruct (Main.allComplete objs (Main.final r0)).
    + now destruct Hstep.
    + destruct Hstep. split; [assumption | discriminate].
  - intros Hk. unfold firstCompleteAt. simpl.
    destruct (Main.allComplete objs (Main.final r0)) eqn:Hall0.
    + destruct Hstep as [_ Hdone]. simpl. rewrite andb_false_r.
      apply list_elem_of_lookup_2, list_elem_of_In in Hk.
      destruct (no_victory_after_completion rest _ r Hdone Hk) as [Hv Hc].
      now split.
    + destruct Hstep as [_ Hstill]. simpl.
      apply (IH _ _ Hstill Hk).
Qed.

Lemma initialState_not_completed : completed (initialState g) = false.
Proof.
  unfold completed, flagTruthy, GameState.getFlag, initialState,
    GameState.initializeItemLocations.
  apply (foldl_keeps (fun st => truthy_flag (flags st !! "gameCompleted") = false)).
  - intros st room _ Hst.
    now apply (foldl_keeps
                 (fun st' => truthy_flag (flags st' !! "gameCompleted") = false)).
  - reflexivity.
Qed.

End Completion.



Example one_victory_in_five_commands :
  map Main.victory
      (Main.runCommands DemoUse.content (initialState DemoUse.content)
         ["look"; "take wrench"; "use wrench on panel"; "look";
          "use wrench on panel"])
  = [ []; [];
      [Success (nl +:+ "Congratulations! You have completed all objectives!"
                +:+ nl)];
      []; [] ].
Proof. vm_compute. reflexivity. Qed.


(** ** Dialogue loops *)

Section DialogueLoop.

Variable g : Content.
Variable c : Character.
Variable node : DialogueNode.

Hypothesis known : charactersById g !! char_id c = Some c.

(** The id of the node leads back to the node. *)
Hypothesis reachable : findNode (char_dialogue c) (node_id node) = Some node.

(** The loop pointer of the node is its own id, and it has no next node. *)
Hypothesis loops : truthyValue (node_loop node) = Some (node_id node).
Hypothesis no_next : truthyValue (node_nextNode node) = None.

Lemma runDialogue_at_loop st :
  atLoop c node st -> runDialogue g c st = displayDialogueNode g c node st.
Proof.
  intros Hst. unfold runDialogue, withState.
  destruct (char_dialogue c) as [|firstNode rest] eqn:Hdialogue;
    [discriminate reachable|].
  rewrite Hst.
  rewrite (or_else_truthy (Some (node_id node)) (node_id firstNode) (node_id node)).
  - now rewrite reachable.
  - apply truthyValue_Some. split; [reflexivity|].
    now apply truthyValue_Some in loops.
Qed.

Lemma displayDialogueNode_at_loop st :
  exists st' notice,
    displayDialogueNode g c node st
      = (st', Dialogue (char_name c) (node_text node) :: notice)
    /\ (forall speaker text, ~ In (Dialogue speaker text) notice)
    /\ atLoop c node st'.
Proof.
  unfold displayDialogueNode, ifTruthy, giveItemTo. rewrite no_next, loops.
  unfold andThen, emit, modify, skip, atLoop, GameState.getDialogueState.
  destruct (truthyValue (node_setFlag node)) as [flagName|];
    destruct (truthyValue (node_giveItem node)) as [itemId|];
    try destruct (itemsById g !! itemId) as [item|];
    cbn [app]; eexists; eexists;
    (split; [reflexivity | split;
      [|cbn [characterDialogueState GameState.setDialogueState];
        apply lookup_insert_eq]]).
  all: intros speaker text Hin; repeat destruct Hin as [Hin|Hin];
    try discriminate Hin; try contradiction.
Qed.

Lemma addItem_dialogue itemId st :
  characterDialogueState (GameState.addItem itemId st)
  = characterDialogueState st.
Proof.
  unfold GameState.addItem. now destruct (arrIncludes (inventory st) itemId).
Qed.

Lemma atLoop_addItem itemId st :
  atLoop c node st -> atLoop c node (GameState.addItem itemId st).
Proof.
  unfold atLoop, GameState.getDialogueState. now rewrite addItem_dialogue.
Qed.

Ltac loop_prim :=
  idtac;
  match goal with
  | |- preserves _ (modify (GameState.addItem _)) =>
      apply preserves_modify; intros ?; apply atLoop_addItem
  | |- preserves _ (giveItemTo _ _ _) => unfold giveItemTo
  | _ => frame_prim
  end.

(** Talking to somebody else moves somebody else's pointer. *)
Lemma atLoop_other_character character node' :
  char_id character <> char_id c ->
  preserves (atLoop c node) (displayDialogueNode g character node').
Proof.
  intros Hother. unfold displayDialogueNode. preserve_with loop_prim.
  all: apply preserves_modify; intros st Hst;
    unfold atLoop, GameState.getDialogueState; simpl;
    now rewrite lookup_insert_ne.
Qed.

Lemma atLoop_runDialogue character :
  charactersById g !! char_id character = Some character ->
  preserves (atLoop c node) (runDialogue g character).
Proof.
  intros Hknown.
  destruct (String.eqb_spec (char_id character) (char_id c)) as [Heq|Hne].
  - intros st Hst. rewrite Heq, known in Hknown. injection Hknown as <-.
    rewrite (runDialogue_at_loop st Hst).
    destruct (displayDialogueNode_at_loop st) as (st' & notice & -> & _ & Hst').
    exact Hst'.
  - unfold runDialogue.
    preserve_with ltac:(apply atLoop_other_character; assumption).
Qed.

Lemma atLoop_execute command : preserves (atLoop c node) (execute g command).
Proof.
  apply invariant_execute.
  - intros roomId st Hst. exact Hst.
  - intros roomId room st _ Hst. exact Hst.
  - apply atLoop_addItem.
  - intros item event _ _. unfold processEvent. preserve_with loop_prim.
  - intros itemId st Hst. exact Hst.
  - intros item action _ _. unfold executeUseAction. preserve_with loop_prim.
  - intros character Hknown _. now apply atLoop_runDialogue.
Qed.

Lemma atLoop_executeCommand input st :
  atLoop c node st -> atLoop c node (Main.final (Main.executeCommand g input st)).
Proof.
  intros Hst. unfold Main.executeCommand.
  assert (H1 : atLoop c node (GameState.addToHistory input st)).
  { unfold GameState.addToHistory.
    now destruct (negb (truthy_str input) || String.eqb (trim input) EmptyString). }
  pose proof (atLoop_execute (CommandParser.parse (commands g) input) _ H1) as H2.
  destruct (execute g _ (GameState.addToHistory input st)) as [st2 out].
  assert (H3 : preserves (atLoop c node) (Main.checkGameCompletion g)).
  { unfold Main.checkGameCompletion. preserve_with loop_prim. }
  specialize (H3 st2 H2).
  destruct (Main.checkGameCompletion g st2) as [st3 won]. exact H3.
Qed.

Lemma atLoop_stateAfter inputs st :
  atLoop c node st -> atLoop c node (Main.stateAfter g st inputs).
Proof.
  unfold Main.stateAfter. apply foldl_keeps.
  intros s input _. apply atLoop_executeCommand.
Qed.

Lemma handleTalk_at_loop command noun st :
  truthyValue (cmd_noun command) = Some noun ->
  findCharacterInRoom g (toLowerCase noun) st = Some c ->
  atLoop c node st ->
  handleTalk g command st = displayDialogueNode g c node st.
Proof.
  intros Hnoun Hfound Hst. unfold handleTalk, withState.
  rewrite Hnoun, Hfound. now apply runDialogue_at_loop.
Qed.

End DialogueLoop.

(** C4. For a character of the content with a dialogue node that has no next
    node and whose loop pointer is its own id, that id leading back to the
    node when looked up in the dialogue list: once the stored pointer of the
    character is the id of the node, it still is after every sequence of
    commands, and every talk command that resolves to the character says
    exactly the text of that node, attributed to the character, and nothing
    else as dialogue, leaving the pointer on the node. *)
Theorem dialogue_loop_never_advances (g : Content) (c : Character)
    (node : DialogueNode) (st : State)
    (Hknown : charactersById g !! char_id c = Some c)
    (Hreachable : findNode (char_dialogue c) (node_id node) = Some node)
    (Hloops : truthyValue (node_loop node) = Some (node_id node))
    (Hno_next : truthyValue (node_nextNode node) = None)
    (Hpointer : GameState.getDialogueState (char_id c) st = Some (node_id node))
    (inputs : list string) :
  let st1 := Main.stateAfter g st inputs in
  GameState.getDialogueState (char_id c) st1 = Some (node_id node)
  /\
  forall command noun,
    truthyValue (cmd_noun command) = Some noun ->
    findCharacterInRoom g (toLowerCase noun) st1 = Some c ->
    exists st2 notice,
      handleTalk g command st1
        = (st2, Dialogue (char_name c) (node_text node) :: notice)
      /\ (forall speaker text, ~ In (Dialogue speaker text) notice)
      /\ GameState.getDialogueState (char_id c) st2 = Some (node_id node).
Proof.
  intros st1.
  assert (Hst1 : atLoop c node st1)
    by now apply (atLoop_stateAfter g c node Hknown Hreachable Hloops Hno_next).
  split; [exact Hst1|].
  intros command noun Hnoun Hfound.
  rewrite (handleTalk_at_loop g c node Hreachable Hloops command noun st1
             Hnoun Hfound Hst1).
  apply (displayDialogueNode_at_loop g c node Hloops Hno_next).
Qed.

Lemma dialogue_loop_never_advances_witness :
  GameState.getDialogueState "science_officer"
    (Main.stateAfter DemoTalk.content DemoTalk.afterTwoTalks
       ["talk park"; "look"; "talk scientist"; "inventory"])
  = Some "waiting".
Proof.
  exact (proj1 (dialogue_loop_never_advances DemoTalk.content DemoTalk.park
                  DemoTalk.waiting DemoTalk.afterTwoTalks
                  eq_refl eq_refl eq_refl eq_refl eq_refl
                  ["talk park"; "look"; "talk scientist"; "inventory"])).
Defined.

Example park_repeats_herself :
  map Main.narrated
      (Main.runCommands DemoTalk.content (initialState DemoTalk.content)
         ["talk park"; "chat scientist"; "talk park"; "speak scientist"])
  = [ [Dialogue "Lieutenant Park" "Captain! Unusual readings."];
      [Dialogue "Lieutenant Park" "An unknown energy signature.";
       Success "Lieutenant Park gives you: Scanner"];
      [Dialogue "Lieutenant Park" "I'm still analyzing the data, Captain."];
      [Dialogue "Lieutenant Park" "I'm still analyzing the data, Captain."] ].
Proof. vm_compute. reflexivity. Qed.

(** * Further properties of the engine *)

(** ** The command interpreter *)

Section Tokens.

Lemma lower_ascii_idempotent (ch : ascii) :
  lower_ascii (lower_ascii ch) = lower_ascii ch.
Proof.
  destruct ch as [[] [] [] [] [] [] [] []]; reflexivity.
Qed.

Lemma is_space_lower (ch : ascii) : is_space (lower_ascii ch) = is_space ch.
Proof.
  destruct ch as [[] [] [] [] [] [] [] []]; reflexivity.
Qed.

Lemma allChars_cons p ch s :
  allChars p (String ch s) <-> p ch = true /\ allChars p s.
Proof.
  unfold allChars. simpl. split.
  - intros H. inversion H; subst. now split.
  - intros [H1 H2]. now constructor.
Qed.

Lemma allChars_empty p : allChars p EmptyString.
Proof. constructor. Qed.

Lemma allChars_append p s1 s2 :
  allChars p s1 -> allChars p s2 -> allChars p (s1 +:+ s2).
Proof.
  induction s1 as [|ch s1 IH]; simpl; [auto|].
  intros H1 Hs2. apply allChars_cons in H1 as [H1 H2].
  apply allChars_cons. split; auto.
Qed.

Lemma toLowerCase_lowered s : allChars lowered (toLowerCase s).
Proof.
  induction s as [|ch s IH]; simpl; [apply allChars_empty|].
  apply allChars_cons. split; [|exact IH].
  unfold lowered. rewrite lower_ascii_idempotent. apply Ascii.eqb_refl.
Qed.

Lemma trimStart_keeps p s : allChars p s -> allChars p (trimStart s).
Proof.
  induction s as [|ch s IH]; simpl; [auto|].
  intros H. destruct (is_space ch); [|exact H].
  apply IH. now apply allChars_cons in H.
Qed.

Lemma trimEnd_keeps p s : allChars p s -> allChars p (trimEnd s).
Proof.
  induction s as [|ch s IH]; simpl; [auto|].
  intros H. apply allChars_cons in H as [Hch Hs]. specialize (IH Hs).
  destruct (trimEnd s) as [|ch' s'].
  - destruct (is_space ch); [apply allChars_empty|].
    apply allChars_cons. split; [exact Hch | apply allChars_empty].
  - apply allChars_cons. now split.
Qed.

Lemma collapse_from_chars inrun s :
  allChars lowered s -> allChars spaceOrPlain (collapse_from inrun s).
Proof.
  revert inrun. induction s as [|ch s IH]; intros inrun H; simpl;
    [apply allChars_empty|].
  apply allChars_cons in H as [Hch Hs].
  destruct (is_space ch) eqn:Hsp.
  - destruct inrun; [now apply IH|].
    apply allChars_cons. split; [reflexivity | now apply IH].
  - apply allChars_cons. split; [|now apply IH].
    unfold spaceOrPlain, plainChar. rewrite Hsp. unfold lowered in Hch.
    rewrite Hch. simpl. apply orb_true_r.
Qed.

Lemma split_acc_plain cur s :
  allChars plainChar cur -> allChars spaceOrPlain s ->
  Forall (allChars plainChar) (split_acc cur s).
Proof.
  revert cur. induction s as [|ch s IH]; intros cur Hcur Hs; simpl.
  - constructor; [exact Hcur | constructor].
  - apply allChars_cons in Hs as [Hch Hs].
    destruct (Ascii.eqb ch " "%char) eqn:Heq.
    + constructor; [exact Hcur|]. apply IH; [apply allChars_empty | exact Hs].
    + apply IH; [|exact Hs]. apply allChars_append; [exact Hcur|].
      apply allChars_cons. split; [|apply allChars_empty].
      unfold spaceOrPlain in Hch. now rewrite Heq in Hch.
Qed.

Lemma tokenize_plain input :
  Forall (fun token => token <> EmptyString /\ allChars plainChar token)
         (CommandParser.tokenize (CommandParser.normalizeInput input)).
Proof.
  unfold CommandParser.tokenize, CommandParser.normalizeInput,
    collapseWhitespace, trim, splitSpace.
  apply List.Forall_forall. intros token Hin.
  apply filter_In in Hin as [Hin Hlen]. split.
  - intros ->. discriminate Hlen.
  - clear Hlen. revert token Hin. apply List.Forall_forall.
    apply split_acc_plain; [apply allChars_empty|].
    apply collapse_from_chars, trimEnd_keeps, trimStart_keeps,
      toLowerCase_lowered.
Qed.

End Tokens.

(** X2. Whatever the input, every token the interpreter works with is not
    empty, contains no white space, contains no upper-case letter and is not
    an article. *)
Theorem cleanTokens_normalised (input token : string) :
  In token (CommandParser.cleanTokens input) ->
  token <> EmptyString
  /\ allChars (fun ch => negb (is_space ch)) token
  /\ allChars (fun ch => Ascii.eqb (lower_ascii ch) ch) token
  /\ ~ In token CommandParser.articles.
Proof.
  intros Hin.
  assert (Hart : ~ In token CommandParser.articles).
  { unfold CommandParser.cleanTokens, CommandParser.removeArticles in Hin.
    apply filter_In in Hin as [_ Hkeep]. intros Ha.
    apply arrIncludes_In in Ha. rewrite Ha in Hkeep. discriminate. }
  unfold CommandParser.cleanTokens, CommandParser.removeArticles in Hin.
  apply filter_In in Hin as [Hin _].
  pose proof (tokenize_plain input) as Hall.
  rewrite List.Forall_forall in Hall. destruct (Hall token Hin) as [Hne Hplain].
  repeat split; try assumption.
  - unfold allChars in *. eapply List.Forall_impl; [|exact Hplain].
    intros ch Hch. unfold plainChar in Hch. now apply andb_true_iff in Hch.
  - unfold allChars in *. eapply List.Forall_impl; [|exact Hplain].
    intros ch Hch. unfold plainChar in Hch. now apply andb_true_iff in Hch.
Qed.

Lemma cleanTokens_normalised_witness :
  "sword" <> EmptyString
  /\ allChars (fun ch => negb (is_space ch)) "sword"
  /\ allChars (fun ch => Ascii.eqb (lower_ascii ch) ch) "sword"
  /\ ~ In "sword" CommandParser.articles.
Proof.
  apply (cleanTokens_normalised "  Take   THE  Sword ").
  vm_compute. auto.
Defined.

Section NounPhrase.

Lemma findPrepositionIndex_first (before after : list string) (p : string) :
  (forall t, In t before -> arrIncludes CommandParser.prepositions t = false) ->
  arrIncludes CommandParser.prepositions p = true ->
  CommandParser.findPrepositionIndex (before ++ p :: after)
  = Some (List.length before).
Proof.
  intros Hbefore Hp.
  induction before as [|t before IH];
    cbn [app CommandParser.findPrepositionIndex List.length option_map].
  - now rewrite Hp.
  - rewrite (Hbefore t) by now left.
    rewrite IH; [reflexivity|]. intros t' Ht'. apply Hbefore. now right.
Qed.

Lemma findPrepositionIndex_none (tokens : list string) :
  (forall t, In t tokens -> arrIncludes CommandParser.prepositions t = false) ->
  CommandParser.findPrepositionIndex tokens = None.
Proof.
  intros Hnone.
  induction tokens as [|t tokens IH];
    cbn [CommandParser.findPrepositionIndex option_map]; [reflexivity|].
  rewrite (Hnone t) by now left.
  rewrite IH; [reflexivity|]. intros t' Ht'. apply Hnone. now right.
Qed.

(** What [findPrepositionIndex] found is the first preposition. *)
Lemma findPrepositionIndex_Some (tokens : list string) (k : nat) :
  CommandParser.findPrepositionIndex tokens = Some k ->
  exists before p after,
    tokens = before ++ p :: after
    /\ List.length before = k
    /\ arrIncludes CommandParser.prepositions p = true
    /\ (forall t, In t before ->
                  arrIncludes CommandParser.prepositions t = false).
Proof.
  revert k.
  induction tokens as [|t tokens IH];
    cbn [CommandParser.findPrepositionIndex option_map]; intros k;
    [discriminate|].
  destruct (arrIncludes CommandParser.prepositions t) eqn:Ht.
  - intros [= <-]. exists [], t, tokens. repeat split; [exact Ht | intros ? []].
  - destruct (CommandParser.findPrepositionIndex tokens) as [k'|];
      [|discriminate].
    intros [= <-].
    destruct (IH k' eq_refl) as (before & p & after & -> & <- & Hp & Hbefore).
    exists (t :: before), p, after. repeat split; [exact Hp|].
    intros t' [<-|Ht']; [exact Ht | now apply Hbefore].
Qed.

Lemma parseNounPhrase_at_preposition (c : Commands) (verb : string)
    (before after : list string) (p : string) :
  isMovementVerb verb = false ->
  (forall t, In t before -> arrIncludes CommandParser.prepositions t = false) ->
  arrIncludes CommandParser.prepositions p = true ->
  CommandParser.parseNounPhrase c (before ++ p :: after) verb
  = (CommandParser.joinOrNull before, Some p, CommandParser.joinOrNull after).
Proof.
  intros Hverb Hbefore Hp. unfold CommandParser.parseNounPhrase.
  unfold isMovementVerb in Hverb.
  destruct (before ++ p :: after) as [|first rest] eqn:Htokens;
    [now destruct before|].
  rewrite Hverb, <- Htokens.
  rewrite (findPrepositionIndex_first before after p Hbefore Hp).
  rewrite take_app_length.
  rewrite (list_lookup_middle before after p (List.length before) eq_refl).
  change (S (List.length before)) with (1 + List.length before).
  rewrite Nat.add_comm, <- drop_drop, drop_app_length. reflexivity.
Qed.

End NounPhrase.

(** X3. After a verb that is not a movement verb, the tokens are split at
    the first preposition: the tokens before it, joined by single spaces,
    are the noun (no noun when there are none), the tokens after it are the
    target (no target when there are none), and later prepositions belong to
    the target; without any preposition all the tokens are the noun. *)
Theorem noun_phrase_split_at_first_preposition (c : Commands) (verb : string)
    (Hverb : isMovementVerb verb = false) :
  (forall before p after,
     (forall t, In t before ->
                arrIncludes CommandParser.prepositions t = false) ->
     In p CommandParser.prepositions ->
     CommandParser.parseNounPhrase c (before ++ p :: after) verb
     = (match before with [] => None | _ => Some (join " " before) end,
        Some p,
        match after with [] => None | _ => Some (join " " after) end))
  /\
  (forall first rest,
     (forall t, In t (first :: rest) ->
                arrIncludes CommandParser.prepositions t = false) ->
     CommandParser.parseNounPhrase c (first :: rest) verb
     = (Some (join " " (first :: rest)), None, None)).
Proof.
  split.
  - intros before p after Hbefore Hp.
    apply parseNounPhrase_at_preposition; try assumption.
    now apply arrIncludes_In.
  - intros first rest Hnone. unfold CommandParser.parseNounPhrase.
    unfold isMovementVerb in Hverb. rewrite Hverb.
    now rewrite (findPrepositionIndex_none _ Hnone).
Qed.

Lemma noun_phrase_split_at_first_preposition_witness :
  CommandParser.parseNounPhrase {| synonyms := ∅; directions := ∅ |}
    (["red"; "key"] ++ "on" :: ["door"; "in"; "wall"]) "use"
  = (Some "red key", Some "on", Some "door in wall").
Proof.
  refine (proj1 (noun_phrase_split_at_first_preposition
                   {| synonyms := ∅; directions := ∅ |} "use" eq_refl)
                ["red"; "key"] "on" ["door"; "in"; "wall"] _ _).
  - intros t [<-|[<-|[]]]; reflexivity.
  - simpl. auto.
Defined.

Section ParsedFields.

Lemma join_nonempty (sep first : string) (rest : list string) :
  first <> EmptyString -> join sep (first :: rest) <> EmptyString.
Proof.
  intros Hfirst. destruct first as [|ch first]; [contradiction|].
  simpl. now destruct rest.
Qed.

Lemma joinOrNull_nonempty (tokens : list string) :
  (forall t, In t tokens -> t <> EmptyString) ->
  CommandParser.joinOrNull tokens <> Some EmptyString.
Proof.
  intros Htokens. destruct tokens as [|first rest]; [discriminate|].
  unfold CommandParser.joinOrNull. intros [= Hjoin].
  apply (join_nonempty " " first rest); [|exact Hjoin].
  apply Htokens. now left.
Qed.

Lemma or_else_nonempty (o : option string) (d : string) :
  d <> EmptyString -> or_else o d <> EmptyString.
Proof.
  intros Hd. unfold or_else. destruct o as [s|]; [|exact Hd].
  destruct (truthy_str s) eqn:Hs; [|exact Hd].
  unfold truthy_str in Hs. intros ->. discriminate.
Qed.

Lemma toLowerCase_nonempty (s : string) :
  s <> EmptyString -> toLowerCase s <> EmptyString.
Proof. destruct s; [contradiction | discriminate]. Qed.

Lemma cleanTokens_nonempty (input token : string) :
  In token (CommandParser.cleanTokens input) -> token <> EmptyString.
Proof.
  unfold CommandParser.cleanTokens, CommandParser.removeArticles.
  intros Hin. apply filter_In in Hin as [Hin _].
  pose proof (tokenize_plain input) as Hall.
  rewrite List.Forall_forall in Hall. now apply Hall.
Qed.

Lemma parse_no_tokens (c : Commands) (input : string) :
  CommandParser.cleanTokens input = [] ->
  CommandParser.parse c input = CommandParser.createEmptyCommand input.
Proof.
  intros Hclean. unfold CommandParser.parse.
  destruct (negb (truthy_str input)); [reflexivity|].
  destruct (String.eqb (CommandParser.normalizeInput input) EmptyString);
    [reflexivity|].
  unfold CommandParser.cleanTokens in Hclean. now rewrite Hclean.
Qed.

Lemma parseNounPhrase_fields (c : Commands) (tokens : list string)
    (verb : string) :
  (forall t, In t tokens -> t <> EmptyString) ->
  let '(noun, preposition, target) :=
    CommandParser.parseNounPhrase c tokens verb in
  noun <> Some EmptyString
  /\ target <> Some EmptyString
  /\ (forall p, preposition = Some p -> In p CommandParser.prepositions).
Proof.
  intros Htokens. unfold CommandParser.parseNounPhrase.
  destruct tokens as [|first rest]; [repeat split; discriminate|].
  destruct (String.eqb verb "go" || String.eqb verb "walk"
            || String.eqb verb "move").
  - repeat split; try discriminate. intros [= Hnoun].
    unfold CommandParser.resolveDirection in Hnoun.
    apply (or_else_nonempty _ _ (toLowerCase_nonempty first
                                   (Htokens first (or_introl eq_refl))) Hnoun).
  - destruct (CommandParser.findPrepositionIndex (first :: rest)) as [k|] eqn:Hk.
    + apply findPrepositionIndex_Some in Hk
        as (before & p & after & Heq & <- & Hp & Hbefore).
      rewrite Heq in *. rewrite take_app_length.
      rewrite (list_lookup_middle before after p (List.length before) eq_refl).
      change (S (List.length before)) with (1 + List.length before).
      rewrite Nat.add_comm, <- drop_drop, drop_app_length. simpl drop.
      repeat split.
      * apply joinOrNull_nonempty. intros t Ht. apply Htokens.
        apply in_or_app. now left.
      * apply joinOrNull_nonempty. intros t Ht. apply Htokens.
        apply in_or_app. right. now right.
      * intros p' [= <-]. now apply arrIncludes_In.
    + repeat split; try discriminate. intros [= Hjoin].
      apply (join_nonempty " " first rest); [|exact Hjoin].
      apply Htokens. now left.
Qed.

End ParsedFields.

(** X1. The intent of an input has an empty verb exactly when no token is
    left after normalisation and article removal (blank input, or articles
    only); it is then the empty intent, to which the rule engine answers with
    its prompt, leaving the state unchanged. In every intent the noun and the
    target are absent or not empty, and the preposition is absent or one of
    the seven prepositions. *)
Theorem parsed_intent_fields (g : Content) (input : string) :
  let command := CommandParser.parse (commands g) input in
  (CommandParser.cleanTokens input = [] <-> cmd_verb command = EmptyString)
  /\ (CommandParser.cleanTokens input = [] ->
      command = CommandParser.createEmptyCommand input
      /\ forall st, execute g command st = (st, [emptyPrompt]))
  /\ cmd_noun command <> Some EmptyString
  /\ cmd_target command <> Some EmptyString
  /\ (forall p, cmd_preposition command = Some p ->
                In p CommandParser.prepositions).
Proof.
  intros command. subst command.
  destruct (CommandParser.cleanTokens input) as [|rawVerb rest] eqn:Hclean.
  - rewrite (parse_no_tokens _ _ Hclean). simpl.
    repeat split; try discriminate; auto.
  - rewrite (parse_of_cleanTokens _ _ _ _ Hclean). cbv zeta.
    assert (Htokens : forall t, In t (rawVerb :: rest) -> t <> EmptyString).
    { intros t Ht. apply (cleanTokens_nonempty input). now rewrite Hclean. }
    pose proof (parseNounPhrase_fields (commands g) rest
                  (CommandParser.resolveVerbSynonym (commands g) rawVerb)
                  (fun t Ht => Htokens t (or_intror Ht))) as Hfields.
    destruct (CommandParser.parseNounPhrase (commands g) rest _)
      as [[noun preposition] target].
    simpl. destruct Hfields as (Hnoun & Htarget & Hprep).
    repeat split; try assumption; try discriminate.
    intros Hverb. exfalso. revert Hverb.
    apply or_else_nonempty. apply Htokens. now left.
Qed.

(** ** The input history *)

Section HistoryCursor.

Lemma historyAt_in_range (index : Z) (st : State) :
  (0 <= index < Z.of_nat (List.length (commandHistory st)))%Z ->
  exists entry,
    GameState.historyAt index st = Some entry
    /\ commandHistory st !! Z.to_nat index = Some entry.
Proof.
  intros Hrange. unfold GameState.historyAt.
  destruct (Z.ltb_spec index 0); [lia|].
  destruct (lookup_lt_is_Some_2 (commandHistory st) (Z.to_nat index))
    as [entry Hentry]; [lia|].
  exists entry. now split.
Qed.

End HistoryCursor.

(** X4. [navigateHistory] touches nothing but the cursor. On an empty history
    it returns the empty string and changes nothing. Otherwise, whatever the
    cursor and the direction were, it never returns [undefined]: either the
    cursor is reset to -1 and the text is the saved input, or the cursor is a
    valid index of the history and the text is the entry at that index. *)
Theorem navigateHistory_in_bounds (direction : Z) (st : State) :
  let '(st', text) := GameState.navigateHistory direction st in
  sameWorld st st'
  /\ commandHistory st' = commandHistory st
  /\ tempInput st' = tempInput st
  /\ (commandHistory st = [] -> st' = st /\ text = Some EmptyString)
  /\ (commandHistory st <> [] ->
      (historyIndex st' = (-1)%Z /\ text = Some (tempInput st))
      \/ ((0 <= historyIndex st' < Z.of_nat (List.length (commandHistory st)))%Z
          /\ exists entry,
               text = Some entry
               /\ commandHistory st !! Z.to_nat (historyIndex st')
                  = Some entry)).
Proof.
  unfold GameState.navigateHistory.
  destruct (Z.eqb_spec (Z.of_nat (List.length (commandHistory st))) 0)
    as [Hempty|Hfull].
  - split; [repeat split|]. split; [reflexivity|]. split; [reflexivity|].
    split; [auto|]. intros Hne. exfalso.
    destruct (commandHistory st); [contradiction | discriminate].
  - set (len := Z.of_nat (List.length (commandHistory st))) in *.
    set (start := if ((historyIndex st =? -1) && (direction =? -1))%Z
                  then len else historyIndex st).
    assert (Hlen : (0 < len)%Z) by lia.
    assert (Hnil : commandHistory st = [] -> False).
    { intros Hnil. subst len. rewrite Hnil in Hfull. now apply Hfull. }
    destruct (Z.ltb_spec (start + direction) 0) as [Hneg|Hpos].
    + split; [repeat split|]. split; [reflexivity|]. split; [reflexivity|].
      split; [intros H; now apply Hnil in H|].
      intros _. right. cbn [historyIndex GameState.setHistoryIndex].
      split; [lia|].
      destruct (historyAt_in_range 0 st) as (entry & H1 & H2); [lia|].
      exists entry. now split.
    + destruct (Z.geb_spec (start + direction) len) as [Hbig|Hin].
      * split; [repeat split|]. split; [reflexivity|]. split; [reflexivity|].
        split; [intros H; now apply Hnil in H|].
        intros _. left. now split.
      * split; [repeat split|]. split; [reflexivity|]. split; [reflexivity|].
        split; [intros H; now apply Hnil in H|].
        intros _. right. cbn [historyIndex GameState.setHistoryIndex].
        split; [lia|].
        destruct (historyAt_in_range (start + direction) st)
          as (entry & H1 & H2); [lia|].
        exists entry. now split.
Qed.

(** Case analysis on the comparisons of [navigateHistory]. *)
Ltac cursor_cases :=
  match goal with
  | |- context [(true && ?b)%bool] => cbn [andb]
  | |- context [(false && ?b)%bool] => cbn [andb]
  | |- context [(?a =? ?b)%Z] => destruct (Z.eqb_spec a b); try lia
  | |- context [(?a <? ?b)%Z] => destruct (Z.ltb_spec a b); try lia
  | |- context [(?a >=? ?b)%Z] => destruct (Z.geb_spec a b); try lia
  | |- context [Nat.eqb ?a ?b] => destruct (Nat.eqb_spec a b); try lia
  end.

(** X5. With a history that is not empty. From the fresh input (cursor -1),
    going back returns the most recent entry, while going forward returns the
    oldest one. From an entry, going back returns the entry before it and
    stays on the oldest one; going forward returns the entry after it and,
    past the most recent one, the saved input with the cursor reset. *)
Theorem navigateHistory_steps (st : State)
    (Hfull : commandHistory st <> []) :
  let len := List.length (commandHistory st) in
  (historyIndex st = (-1)%Z ->
   snd (GameState.navigateHistory (-1) st) = last (commandHistory st)
   /\ historyIndex (fst (GameState.navigateHistory (-1) st))
      = (Z.of_nat len - 1)%Z
   /\ snd (GameState.navigateHistory 1 st) = commandHistory st !! 0
   /\ historyIndex (fst (GameState.navigateHistory 1 st)) = 0%Z)
  /\
  (forall i, historyIndex st = Z.of_nat i -> i < len ->
     snd (GameState.navigateHistory (-1) st) = commandHistory st !! (i - 1)
     /\ historyIndex (fst (GameState.navigateHistory (-1) st))
        = Z.of_nat (i - 1)
     /\ snd (GameState.navigateHistory 1 st)
        = (if Nat.eqb (S i) len then Some (tempInput st)
           else commandHistory st !! S i)
     /\ historyIndex (fst (GameState.navigateHistory 1 st))
        = (if Nat.eqb (S i) len then (-1)%Z else Z.of_nat (S i))).
Proof.
  intros len.
  assert (Hlen : 0 < len).
  { subst len. destruct (commandHistory st); [contradiction | simpl; lia]. }
  unfold GameState.navigateHistory, GameState.historyAt. fold len.
  split.
  - intros Hfresh. rewrite Hfresh.
    repeat cursor_cases;
      cbn [fst snd historyIndex GameState.setHistoryIndex];
      repeat split; try lia; try (f_equal; lia).
    rewrite last_lookup. f_equal. subst len. lia.
  - intros i Hi Hrange. rewrite Hi.
    repeat cursor_cases;
      cbn [fst snd historyIndex GameState.setHistoryIndex];
      repeat split; try lia; try (f_equal; lia).
Qed.

Lemma navigateHistory_steps_witness :
  snd (GameState.navigateHistory (-1) DemoHistory.typed) = Some "inventory"
  /\ historyIndex (fst (GameState.navigateHistory (-1) DemoHistory.typed)) = 2%Z
  /\ snd (GameState.navigateHistory 1 DemoHistory.typed) = Some "look"
  /\ historyIndex (fst (GameState.navigateHistory 1 DemoHistory.typed)) = 0%Z.
Proof.
  refine (proj1 (navigateHistory_steps DemoHistory.typed _) eq_refl).
  discriminate.
Defined.

(** ** Properties kept by each mutator of the state *)

Section MutatorInvariant.

Variable g : Content.
Variable I : State -> Prop.

Hypothesis by_setCurrentRoom :
  forall roomId room st,
    roomsById g !! roomId = Some room ->
    I st -> I (GameState.setCurrentRoom roomId st).
Hypothesis by_markRoomVisited :
  forall roomId st, I st -> I (GameState.markRoomVisited roomId st).
Hypothesis by_addItem :
  forall itemId st, I st -> I (GameState.addItem itemId st).
Hypothesis by_removeItem :
  forall itemId st, I st -> I (GameState.removeItem itemId st).
Hypothesis by_setItemLocation :
  forall itemId location st,
    I st -> I (GameState.setItemLocation itemId location st).
Hypothesis by_setFlag :
  forall flagName st, I st -> I (GameState.setFlag flagName (FBool true) st).
Hypothesis by_setDialogueState :
  forall characterId nodeId st,
    I st -> I (GameState.setDialogueState characterId nodeId st).
Hypothesis by_addToHistory :
  forall input st, I st -> I (GameState.addToHistory input st).

Ltac mutator_prim :=
  idtac;
  match goal with
  | |- preserves _ (modify (GameState.addItem _)) =>
      apply preserves_modify; intros ?; apply by_addItem
  | |- preserves _ (modify (GameState.removeItem _)) =>
      apply preserves_modify; intros ?; apply by_removeItem
  | |- preserves _ (modify (GameState.setItemLocation _ _)) =>
      apply preserves_modify; intros ?; apply by_setItemLocation
  | |- preserves _ (modify (GameState.setFlag _ (FBool true))) =>
      apply preserves_modify; intros ?; apply by_setFlag
  | |- preserves _ (modify (GameState.setDialogueState _ _)) =>
      apply preserves_modify; intros ?; apply by_setDialogueState
  | |- preserves _ (giveItemTo _ _ _) => unfold giveItemTo
  end.

Lemma mutators_execute command : preserves I (execute g command).
Proof.
  apply invariant_execute.
  - exact by_markRoomVisited.
  - exact by_setCurrentRoom.
  - exact by_addItem.
  - intros item event _ _. unfold processEvent. preserve_with mutator_prim.
  - intros itemId st Hst. now apply by_setItemLocation, by_removeItem.
  - intros item action _ _. unfold executeUseAction.
    preserve_with mutator_prim.
  - intros character _ _. unfold runDialogue, displayDialogueNode.
    preserve_with mutator_prim.
Qed.

Lemma mutators_checkGameCompletion :
  preserves I (Main.checkGameCompletion g).
Proof. unfold Main.checkGameCompletion. preserve_with mutator_prim. Qed.

Lemma mutators_executeCommand input st :
  I st -> I (Main.final (Main.executeCommand g input st)).
Proof.
  intros Hst. unfold Main.executeCommand.
  pose proof (mutators_execute (CommandParser.parse (commands g) input) _
                (by_addToHistory input st Hst)) as H2.
  destruct (execute g _ (GameState.addToHistory input st)) as [st2 out].
  pose proof (mutators_checkGameCompletion st2 H2) as H3.
  destruct (Main.checkGameCompletion g st2) as [st3 won]. exact H3.
Qed.

Lemma mutators_stateAfter inputs st :
  I st -> I (Main.stateAfter g st inputs).
Proof.
  unfold Main.stateAfter. apply foldl_keeps.
  intros s input _. apply mutators_executeCommand.
Qed.

End MutatorInvariant.

Section FieldsOfMutators.

Lemma addItem_fields itemId st :
  currentRoomId (GameState.addItem itemId st) = currentRoomId st
  /\ flags (GameState.addItem itemId st) = flags st
  /\ visitedRooms (GameState.addItem itemId st) = visitedRooms st
  /\ commandHistory (GameState.addItem itemId st) = commandHistory st
  /\ historyIndex (GameState.addItem itemId st) = historyIndex st
  /\ tempInput (GameState.addItem itemId st) = tempInput st
  /\ characterDialogueState (GameState.addItem itemId st)
     = characterDialogueState st.
Proof.
  unfold GameState.addItem.
  destruct (arrIncludes (inventory st) itemId); repeat split.
Qed.

Lemma addToHistory_sameWorld input st :
  sameWorld st (GameState.addToHistory input st).
Proof.
  unfold GameState.addToHistory.
  destruct (negb (truthy_str input) || String.eqb (trim input) EmptyString);
    repeat split.
Qed.

End FieldsOfMutators.

Section HistoryOfRuns.

Lemma noRepeat_snoc (l : list string) (c : string) :
  noRepeat l -> last l <> Some c -> noRepeat (l ++ [c]).
Proof.
  induction l as [|x l IH]; [simpl; auto|].
  destruct l as [|y l].
  - simpl. intros _ Hlast. split; [congruence | exact Logic.I].
  - intros [Hxy Hrest] Hlast. split; [exact Hxy|].
    apply IH; [exact Hrest | exact Hlast].
Qed.

Lemma tidyHistory_addToHistory input st :
  tidyHistory st -> tidyHistory (GameState.addToHistory input st).
Proof.
  intros [Hblank Hrepeat]. unfold GameState.addToHistory.
  destruct (negb (truthy_str input)) eqn:Hempty; simpl; [now split|].
  destruct (String.eqb_spec (trim input) EmptyString) as [Htrim|Htrim];
    [now split|].
  unfold tidyHistory. simpl.
  destruct (bool_decide (last (commandHistory st) = Some input)) eqn:Hlast;
    [now split|].
  apply bool_decide_eq_false in Hlast. split.
  - apply Forall_app. split; [exact Hblank|]. now repeat constructor.
  - now apply noRepeat_snoc.
Qed.

Lemma tidyHistory_frame st st' :
  commandHistory st' = commandHistory st -> tidyHistory st -> tidyHistory st'.
Proof. unfold tidyHistory. now intros ->. Qed.

End HistoryOfRuns.

(** X6. The input history of a session never holds a blank entry and never
    holds the same entry twice in a row: a history with this property keeps
    it through every sequence of commands. *)
Theorem history_stays_tidy (g : Content) (st : State) (inputs : list string)
    (Htidy : tidyHistory st) :
  tidyHistory (Main.stateAfter g st inputs).
Proof.
  revert st Htidy. apply mutators_stateAfter.
  - intros roomId room st _. now apply tidyHistory_frame.
  - intros roomId st. now apply tidyHistory_frame.
  - intros itemId st. apply tidyHistory_frame. apply addItem_fields.
  - intros itemId st. now apply tidyHistory_frame.
  - intros itemId location st. now apply tidyHistory_frame.
  - intros flagName st. now apply tidyHistory_frame.
  - intros characterId nodeId st. now apply tidyHistory_frame.
  - intros input st. apply tidyHistory_addToHistory.
Qed.

Lemma history_stays_tidy_witness :
  tidyHistory (Main.stateAfter DemoUse.content (initialState DemoUse.content)
                 ["look"; "look"; "   "; "take wrench"; "look"]).
Proof.
  apply history_stays_tidy. split; [constructor | exact Logic.I].
Defined.

Example history_skips_blanks_and_repeats :
  commandHistory
    (Main.stateAfter DemoUse.content (initialState DemoUse.content)
       ["look"; "look"; "   "; "take wrench"; "look"])
  = ["look"; "take wrench"; "look"].
Proof. vm_compute. reflexivity. Qed.

Section HistoryAfterCommand.

(** The rule engine and the completion check leave the input history, its
    cursor and the saved input as [addToHistory] left them. *)
Lemma executeCommand_history_fields (g : Content) (input : string) (st : State) :
  let st' := Main.final (Main.executeCommand g input st) in
  commandHistory st' = commandHistory (GameState.addToHistory input st)
  /\ historyIndex st' = historyIndex (GameState.addToHistory input st)
  /\ tempInput st' = tempInput (GameState.addToHistory input st).
Proof.
  intros st'.
  set (st1 := GameState.addToHistory input st).
  set (I := fun s : State =>
              commandHistory s = commandHistory st1
              /\ historyIndex s = historyIndex st1
              /\ tempInput s = tempInput st1).
  change (I st').
  subst st'. unfold Main.executeCommand. fold st1.
  assert (H1 : I st1) by (now repeat split).
  pose proof (mutators_execute g I) as Hexec.
  assert (Hframe : forall s s' : State,
             commandHistory s' = commandHistory s ->
             historyIndex s' = historyIndex s ->
             tempInput s' = tempInput s -> I s -> I s').
  { intros s s' E1 E2 E3 (H2 & H3 & H4). unfold I.
    now rewrite E1, E2, E3. }
  assert (Hadd : forall itemId s, I s -> I (GameState.addItem itemId s)).
  { intros itemId s. apply Hframe; apply addItem_fields. }
  specialize (Hexec
    (fun r room s _ => Hframe s _ eq_refl eq_refl eq_refl)
    (fun r s => Hframe s _ eq_refl eq_refl eq_refl)
    Hadd
    (fun i s => Hframe s _ eq_refl eq_refl eq_refl)
    (fun i l s => Hframe s _ eq_refl eq_refl eq_refl)
    (fun f s => Hframe s _ eq_refl eq_refl eq_refl)
    (fun c n s => Hframe s _ eq_refl eq_refl eq_refl)
    (CommandParser.parse (commands g) input) st1 H1).
  destruct (execute g _ st1) as [st2 out]. simpl in Hexec.
  assert (Hcheck : preserves I (Main.checkGameCompletion g)).
  { unfold Main.checkGameCompletion.
    preserve_with ltac:(idtac; apply preserves_modify;
                        let x := fresh in let Hx := fresh in
                        intros x Hx;
                        exact (Hframe x _ eq_refl eq_refl eq_refl Hx)). }
  specialize (Hcheck st2 Hexec).
  now destruct (Main.checkGameCompletion g st2).
Qed.

(** What [addToHistory] leaves for a command that is not blank. *)
Lemma addToHistory_records (input : string) (st : State) :
  trim input <> EmptyString ->
  last (commandHistory (GameState.addToHistory input st)) = Some input
  /\ historyIndex (GameState.addToHistory input st) = (-1)%Z
  /\ tempInput (GameState.addToHistory input st) = EmptyString.
Proof.
  intros Htrim. unfold GameState.addToHistory.
  assert (Hinput : truthy_str input = true).
  { unfold truthy_str. destruct (String.eqb_spec input EmptyString) as [->|];
      [now contradiction Htrim | reflexivity]. }
  rewrite Hinput. simpl.
  destruct (String.eqb_spec (trim input) EmptyString); [contradiction|].
  simpl. repeat split.
  destruct (bool_decide (last (commandHistory st) = Some input)) eqn:Hlast.
  - now apply bool_decide_eq_true in Hlast.
  - apply last_snoc.
Qed.

End HistoryAfterCommand.

(** X7. The rule engine and the completion check never touch the input
    history: after a command the history is the one [addToHistory] left.
    A command that is not blank is the most recent entry afterwards and the
    cursor is back on the fresh input with an empty saved input; a blank
    command leaves history and cursor as they were. *)
Theorem executeCommand_records_input (g : Content) (input : string) (st : State) :
  let st' := Main.final (Main.executeCommand g input st) in
  commandHistory st' = commandHistory (GameState.addToHistory input st)
  /\ historyIndex st' = historyIndex (GameState.addToHistory input st)
  /\ tempInput st' = tempInput (GameState.addToHistory input st)
  /\ (trim input <> EmptyString ->
      last (commandHistory st') = Some input
      /\ historyIndex st' = (-1)%Z
      /\ tempInput st' = EmptyString)
  /\ (trim input = EmptyString ->
      commandHistory st' = commandHistory st
      /\ historyIndex st' = historyIndex st
      /\ tempInput st' = tempInput st).
Proof.
  intros st'.
  destruct (executeCommand_history_fields g input st) as (Hh & Hi & Ht).
  fold st' in Hh, Hi, Ht.
  split; [exact Hh|]. split; [exact Hi|]. split; [exact Ht|].
  rewrite Hh, Hi, Ht. split.
  - apply addToHistory_records.
  - intros Htrim. unfold GameState.addToHistory.
    rewrite Htrim. rewrite orb_true_r. now repeat split.
Qed.

(** ** What a session never loses and never breaks *)

Section InventoryOfRuns.

Lemma addItem_NoDup itemId st :
  List.NoDup (inventory st) -> List.NoDup (inventory (GameState.addItem itemId st)).
Proof.
  intros Hnd. unfold GameState.addItem.
  destruct (arrIncludes (inventory st) itemId) eqn:Hinc; [exact Hnd|].
  simpl. apply NoDup_snoc; [exact Hnd | now apply arrIncludes_false].
Qed.

End InventoryOfRuns.

(** X8. No item is ever carried twice: an inventory without duplicates stays
    without duplicates through every sequence of commands, whatever the
    content grants, and the inventory of a new session is empty. *)
Theorem inventory_never_duplicates (g : Content) (st : State)
    (inputs : list string) (Hnd : List.NoDup (inventory st)) :
  List.NoDup (inventory (Main.stateAfter g st inputs))
  /\ inventory (initialState g) = [].
Proof.
  split.
  - revert st Hnd.
    apply (mutators_stateAfter g (fun s => List.NoDup (inventory s))); auto.
    + apply addItem_NoDup.
    + intros itemId st. apply spliceFirst_NoDup.
    + intros input st Hst. unfold GameState.addToHistory.
      now destruct (negb (truthy_str input)
                    || String.eqb (trim input) EmptyString).
  - unfold initialState, GameState.initializeItemLocations.
    apply (foldl_keeps (fun s => inventory s = [])); [|reflexivity].
    intros s room _ Hs.
    now apply (foldl_keeps (fun s' => inventory s' = [])).
Qed.

Lemma inventory_never_duplicates_witness :
  List.NoDup (inventory (Main.stateAfter DemoTalk.content
                           (initialState DemoTalk.content)
                           ["talk park"; "talk park"; "talk park"]))
  /\ inventory (initialState DemoTalk.content) = [].
Proof.
  apply inventory_never_duplicates. constructor.
Defined.

(** X9. Progress is never undone: a flag that is truthy stays truthy and a
    room that is marked visited stays marked, through every sequence of
    commands. *)
Theorem progress_is_never_undone (g : Content) (st : State)
    (inputs : list string) :
  (forall flagName,
     flagTruthy flagName st = true ->
     flagTruthy flagName (Main.stateAfter g st inputs) = true)
  /\
  (forall roomId,
     roomId ∈ visitedRooms st ->
     roomId ∈ visitedRooms (Main.stateAfter g st inputs)).
Proof.
  split.
  - intros flagName. revert st.
    apply (mutators_stateAfter g (fun s => flagTruthy flagName s = true)); auto.
    + intros itemId st. unfold flagTruthy, GameState.getFlag.
      now rewrite (proj1 (proj2 (addItem_fields itemId st))).
    + intros other st. apply setFlag_true_keeps_truthy.
    + intros input st. unfold flagTruthy, GameState.getFlag.
      now rewrite (proj1 (proj2 (proj2 (addToHistory_sameWorld input st)))).
  - intros roomId. revert st.
    apply (mutators_stateAfter g (fun s => roomId ∈ visitedRooms s)); auto.
    + intros other st Hst. simpl. set_solver.
    + intros itemId st.
      now rewrite (proj1 (proj2 (proj2 (addItem_fields itemId st)))).
    + intros input st.
      now rewrite <- (proj1 (proj2 (proj2 (proj2
                               (addToHistory_sameWorld input st))))).
Qed.

(** X10. The player is always somewhere on the map: after every sequence of
    commands of a session the current room is the configured starting room
    or a room of [rooms.json]. *)
Theorem player_stays_on_the_map (g : Content) (inputs : list string) :
  let st := Main.stateAfter g (initialState g) inputs in
  currentRoomId st = startingRoom (config g)
  \/ exists room, In room (rooms g) /\ room_id room = currentRoomId st.
Proof.
  intros st. subst st.
  set (I := fun s : State =>
              currentRoomId s = startingRoom (config g)
              \/ exists room, In room (rooms g)
                              /\ room_id room = currentRoomId s).
  apply (mutators_stateAfter g I); auto.
  - intros roomId room st Hroom _. right. exists room.
    apply index_by_lookup in Hroom as [Hid Hin]. now split.
  - intros itemId st. unfold I.
    now rewrite (proj1 (addItem_fields itemId st)).
  - intros input st. unfold I.
    now rewrite <- (proj1 (addToHistory_sameWorld input st)).
  - left. unfold initialState, GameState.initializeItemLocations.
    apply (foldl_keeps (fun s => currentRoomId s = startingRoom (config g)));
      [|reflexivity].
    intros s room _ Hs.
    now apply (foldl_keeps
                 (fun s' => currentRoomId s' = startingRoom (config g))).
Qed.

(** ** Where the items are *)

Section LocationMap.

Lemma map_set_keys {V : Type} (m : list (string * V)) k v k' :
  In k' (map fst (map_set m k v)) <-> k' = k \/ In k' (map fst m).
Proof.
  induction m as [|[k0 v0] m IH]; simpl.
  - split; [intros [<-|[]]; now left | intros [->|[]]; now left].
  - destruct (String.eqb_spec k0 k) as [->|Hne]; simpl.
    + split; [intros [<-|H]; auto | intros [->|[<-|H]]; auto].
    + rewrite IH. split.
      * intros [<-|[->|H]]; auto.
      * intros [->|[<-|H]]; auto.
Qed.

Lemma map_set_NoDup {V : Type} (m : list (string * V)) k v :
  List.NoDup (map fst m) -> List.NoDup (map fst (map_set m k v)).
Proof.
  induction m as [|[k0 v0] m IH]; simpl; intros Hnd.
  - constructor; [intros [] | constructor].
  - inversion Hnd as [|? ? Hnotin Hrest]; subst.
    destruct (String.eqb_spec k0 k) as [->|Hne]; simpl.
    + now constructor.
    + constructor; [|now apply IH].
      rewrite map_set_keys. intros [->|Hin]; [now apply Hne | contradiction].
Qed.

Lemma obj_get_of_entry {V : Type} (m : list (string * V)) k v :
  List.NoDup (map fst m) -> In (k, v) m -> obj_get m k = Some v.
Proof.
  induction m as [|[k0 v0] m IH]; simpl; intros Hnd; [intros []|].
  inversion Hnd as [|? ? Hnotin Hrest]; subst.
  intros [[= -> ->]|Hin].
  - now rewrite String.eqb_refl.
  - destruct (String.eqb_spec k0 k) as [->|Hne]; [|now apply IH].
    exfalso. apply Hnotin. apply in_map_iff. now exists (k, v).
Qed.

Lemma listed_iff_located itemId roomId st :
  uniqueLocationKeys st ->
  In itemId (GameState.getItemsInRoom roomId st) <->
  GameState.getItemLocation itemId st = Some roomId.
Proof.
  intros Hkeys. split; [|apply located_in_room].
  unfold GameState.getItemsInRoom, GameState.getItemLocation.
  intros Hin. apply in_map_iff in Hin as ([k v] & Hk & Hin). simpl in Hk.
  subst k. apply filter_In in Hin as [Hin Hv]. simpl in Hv.
  apply String.eqb_eq in Hv as ->. now apply obj_get_of_entry.
Qed.

Lemma listing_NoDup roomId st :
  uniqueLocationKeys st -> List.NoDup (GameState.getItemsInRoom roomId st).
Proof.
  unfold uniqueLocationKeys, GameState.getItemsInRoom.
  induction (itemLocations st) as [|[k v] m IH]; simpl; intros Hnd;
    [constructor|].
  inversion Hnd as [|? ? Hnotin Hrest]; subst.
  destruct (String.eqb v roomId); simpl; [|now apply IH].
  constructor; [|now apply IH].
  intros Hin. apply Hnotin. apply in_map_iff in Hin as (e & He & Hin).
  apply filter_In in Hin as [Hin _]. apply in_map_iff. now exists e.
Qed.

Lemma uniqueLocationKeys_frame st st' :
  itemLocations st' = itemLocations st ->
  uniqueLocationKeys st -> uniqueLocationKeys st'.
Proof. unfold uniqueLocationKeys. now intros ->. Qed.

Lemma uniqueLocationKeys_stateAfter g inputs :
  uniqueLocationKeys (Main.stateAfter g (initialState g) inputs).
Proof.
  apply (mutators_stateAfter g uniqueLocationKeys).
  - intros roomId room st _. now apply uniqueLocationKeys_frame.
  - intros roomId st. now apply uniqueLocationKeys_frame.
  - intros itemId st Hst. unfold GameState.addItem.
    destruct (arrIncludes (inventory st) itemId); [exact Hst|].
    now apply map_set_NoDup.
  - intros itemId st. now apply uniqueLocationKeys_frame.
  - intros itemId location st. apply map_set_NoDup.
  - intros flagName st. now apply uniqueLocationKeys_frame.
  - intros characterId nodeId st. now apply uniqueLocationKeys_frame.
  - intros input st. apply uniqueLocationKeys_frame.
    symmetry. apply addToHistory_sameWorld.
  - unfold initialState, GameState.initializeItemLocations.
    apply (foldl_keeps uniqueLocationKeys); [|constructor].
    intros s room _ Hs. apply (foldl_keeps uniqueLocationKeys); [|exact Hs].
    intros s' itemId _. apply map_set_NoDup.
Qed.

Lemma setItemLocation_lookup itemId other location st :
  GameState.getItemLocation itemId
    (GameState.setItemLocation other location st)
  = if String.eqb other itemId then Some location
    else GameState.getItemLocation itemId st.
Proof.
  unfold GameState.getItemLocation. simpl.
  destruct (String.eqb_spec other itemId) as [->|Hne].
  - apply obj_get_map_set_eq.
  - now apply obj_get_map_set_ne.
Qed.

Lemma locations_after_room itemId roomId (listed : list string) st :
  GameState.getItemLocation itemId
    (foldl (fun s' listedId => GameState.setItemLocation listedId roomId s')
           st listed)
  = if arrIncludes listed itemId then Some roomId
    else GameState.getItemLocation itemId st.
Proof.
  revert st. induction listed as [|x listed IH]; intros st; [reflexivity|].
  cbn [foldl]. rewrite IH, setItemLocation_lookup.
  unfold arrIncludes. cbn [existsb]. fold (arrIncludes listed itemId).
  rewrite (String.eqb_sym itemId x).
  destruct (arrIncludes listed itemId); [now rewrite orb_true_r|].
  now rewrite orb_false_r.
Qed.

End LocationMap.

(** X11. In a session an item is in one place at a time: after every
    sequence of commands, whatever the room, the items the state reports for
    it are exactly those whose location record is that room, each reported
    once, so that no item is reported for two rooms. *)
Theorem item_is_in_one_place (g : Content) (inputs : list string) :
  let st := Main.stateAfter g (initialState g) inputs in
  (forall roomId,
     List.NoDup (GameState.getItemsInRoom roomId st)
     /\ forall itemId,
          In itemId (GameState.getItemsInRoom roomId st) <->
          GameState.getItemLocation itemId st = Some roomId)
  /\
  (forall room1 room2 itemId,
     In itemId (GameState.getItemsInRoom room1 st) ->
     In itemId (GameState.getItemsInRoom room2 st) ->
     room1 = room2).
Proof.
  intros st.
  assert (Hkeys : uniqueLocationKeys st)
    by apply uniqueLocationKeys_stateAfter.
  split.
  - intros roomId. split; [now apply listing_NoDup|].
    intros itemId. now apply listed_iff_located.
  - intros room1 room2 itemId H1 H2.
    apply (listed_iff_located _ _ _ Hkeys) in H1, H2. congruence.
Qed.

(** X12. At the start of a session the location record of an item is the
    last room, in the order of [rooms.json], that lists it, and an item that
    no room lists has no record: an item listed by several rooms starts in
    the last of them only. *)
Theorem initial_location_is_last_listing (g : Content) (itemId : string) :
  GameState.getItemLocation itemId (initialState g)
  = lastRoomListing (rooms g) itemId.
Proof.
  unfold initialState, GameState.initializeItemLocations, lastRoomListing.
  assert (Hgen : forall rs st found,
             GameState.getItemLocation itemId st = found ->
             GameState.getItemLocation itemId
               (foldl (fun s room =>
                         foldl (fun s' listedId =>
                                  GameState.setItemLocation listedId
                                    (room_id room) s')
                               s (room_items room))
                      st rs)
             = foldl (fun found room =>
                        if arrIncludes (room_items room) itemId
                        then Some (room_id room) else found)
                     found rs).
  { induction rs as [|room rs IH]; intros st found Hst; [exact Hst|].
    cbn [foldl]. apply IH. rewrite locations_after_room. now rewrite Hst. }
  now apply Hgen.
Qed.

Example wrench_listed_twice_starts_in_corridor :
  GameState.getItemsInRoom "bridge" (initialState DemoTwice.content) = []
  /\ GameState.getItemsInRoom "corridor" (initialState DemoTwice.content)
     = ["wrench"].
Proof. vm_compute. split; reflexivity. Qed.

(** ** Cross-references of the content *)

Section References.

Lemma omap_nil {A B : Type} (f : A -> option B) (l : list A) :
  omap f l = [] <-> forall x, In x l -> f x = None.
Proof.
  induction l as [|a l IH]; simpl.
  - split; [intros _ x [] | reflexivity].
  - destruct (f a) eqn:Hfa.
    + split; [discriminate|]. intros H. rewrite (H a) in Hfa by now left.
      discriminate.
    + rewrite IH. split.
      * intros H x [<-|Hx]; [exact Hfa | now apply H].
      * intros H x Hx. apply H. now right.
Qed.

Lemma concat_nil {A : Type} (ls : list (list A)) :
  concat ls = [] <-> forall l, In l ls -> l = [].
Proof.
  induction ls as [|l ls IH]; simpl.
  - split; [intros _ x [] | reflexivity].
  - split.
    + intros H. apply app_eq_nil in H as [-> H].
      pose proof (proj1 IH H) as Hrest.
      intros l' [<-|Hl']; [reflexivity | now apply Hrest].
    + intros H. rewrite (H l) by now left. simpl. apply IH.
      intros l' Hl'. apply H. now right.
Qed.

Lemma roomErrors_nil validRoomIds validItemIds validCharacterIds room :
  ContentLoader.roomErrors validRoomIds validItemIds validCharacterIds room = []
  <->
  (forall direction target, In (direction, target) (room_exits room) ->
     In target validRoomIds)
  /\ (forall itemId, In itemId (room_items room) -> In itemId validItemIds)
  /\ (forall charId, In charId (room_characters room) ->
        In charId validCharacterIds).
Proof.
  unfold ContentLoader.roomErrors. split.
  - intros H. apply app_eq_nil in H as [H1 H]. apply app_eq_nil in H as [H2 H3].
    pose proof (proj1 (omap_nil _ _) H1) as H1'.
    pose proof (proj1 (omap_nil _ _) H2) as H2'.
    pose proof (proj1 (omap_nil _ _) H3) as H3'.
    clear H1 H2 H3. rename H1' into H1, H2' into H2, H3' into H3.
    split; [|split].
    + intros direction target Hin. specialize (H1 _ Hin). simpl in H1.
      destruct (arrIncludes validRoomIds target) eqn:Hinc; [|discriminate].
      now apply arrIncludes_In.
    + intros itemId Hin. specialize (H2 _ Hin). simpl in H2.
      destruct (arrIncludes validItemIds itemId) eqn:Hinc; [|discriminate].
      now apply arrIncludes_In.
    + intros charId Hin. specialize (H3 _ Hin). simpl in H3.
      destruct (arrIncludes validCharacterIds charId) eqn:Hinc; [|discriminate].
      now apply arrIncludes_In.
  - intros (H1 & H2 & H3).
    assert (E1 : forall (A : Type) (a b c : list A),
               a = [] -> b = [] -> c = [] -> a ++ b ++ c = [])
      by (intros A a b c -> -> ->; reflexivity).
    apply E1; apply omap_nil.
    + intros [direction target] Hin. simpl.
      now rewrite (proj2 (arrIncludes_In _ _) (H1 _ _ Hin)).
    + intros itemId Hin.
      now rewrite (proj2 (arrIncludes_In _ _) (H2 _ Hin)).
    + intros charId Hin.
      now rewrite (proj2 (arrIncludes_In _ _) (H3 _ Hin)).
Qed.

Lemma validateContentReferences_returns g :
  ContentLoader.validateContentReferences g = None <->
  ContentLoader.referenceErrors g = [].
Proof.
  unfold ContentLoader.validateContentReferences.
  destruct (ContentLoader.referenceErrors g); split; congruence.
Qed.

(** Every entry of the content list has an entry under its id. *)
Lemma index_by_covers {A : Type} (key : A -> string) (l : list A) (k : string) :
  In k (map key l) -> exists x, index_by key l !! k = Some x.
Proof.
  unfold index_by.
  assert (Hgen : forall l' (m : gmap string A),
             In k (map key l') \/ is_Some (m !! k) ->
             is_Some (foldl (fun m x => <[ key x := x ]> m) m l' !! k)).
  { induction l' as [|a l' IH]; simpl; intros m [Hin|Hm].
    - destruct Hin.
    - exact Hm.
    - apply IH. destruct Hin as [<-|Hin]; [right | now left].
      rewrite lookup_insert_eq. eauto.
    - apply IH. right. rewrite lookup_insert. case_decide; eauto. }
  intros Hin. destruct (Hgen l ∅ (or_introl Hin)) as [x Hx]. eauto.
Qed.

Lemma obj_get_In {V : Type} (o : list (string * V)) k v :
  obj_get o k = Some v -> In (k, v) o.
Proof.
  induction o as [|[k0 v0] o IH]; simpl; [discriminate|].
  destruct (String.eqb_spec k0 k) as [->|Hne].
  - intros [= ->]. now left.
  - intros H. right. now apply IH.
Qed.

Lemma validated_references_resolve (g : Content) :
  ContentLoader.validateContentReferences g = None -> referencesResolve g.
Proof.
  rewrite validateContentReferences_returns.
  unfold ContentLoader.referenceErrors. rewrite concat_nil.
  intros H room Hroom. apply roomErrors_nil. apply H.
  apply in_map_iff. now exists room.
Qed.

End References.

(** X13. [validateContentReferences] returns without throwing exactly when
    every exit target of every room is the id of a room, every item a room
    lists is the id of an item and every character a room lists is the id of
    a character. *)
Theorem validateContentReferences_exact (g : Content) :
  ContentLoader.validateContentReferences g = None <-> referencesResolve g.
Proof.
  rewrite validateContentReferences_returns.
  unfold ContentLoader.referenceErrors, referencesResolve.
  rewrite concat_nil. split.
  - intros H room Hroom. apply roomErrors_nil. apply H.
    apply in_map_iff. now exists room.
  - intros H errors Herrors. apply in_map_iff in Herrors as (room & <- & Hroom).
    apply roomErrors_nil. now apply H.
Qed.

(** X14. In content that passed [validateContentReferences], an exit of the
    current room always leads somewhere: a movement through it either stops
    at the lock, with the lock warning and the state unchanged, or arrives in
    the target room, which is marked visited and described; it never ends in
    the "target room not found" error. *)
Theorem validated_exit_is_lock_or_arrival (g : Content) (st : State)
    (command : Command) (noun : string) (room : Room) (targetRoomId : string)
    (Hvalid : ContentLoader.validateContentReferences g = None)
    (Hnoun : truthyValue (cmd_noun command) = Some noun)
    (Hroom : getCurrentRoom g st = Some room)
    (Hexit : truthyValue (obj_get (room_exits room)
                            (resolveDirectionSynonym (toLowerCase noun)))
             = Some targetRoomId) :
  let direction := resolveDirectionSynonym (toLowerCase noun) in
  (exists lockedInfo,
     obj_get (room_lockedExits room) direction = Some lockedInfo
     /\ checkUnlockCondition lockedInfo st = false
     /\ handleGo g command st
        = (st, [Warning (lockedText lockedInfo direction)]))
  \/
  (exists targetRoom,
     roomsById g !! targetRoomId = Some targetRoom
     /\ handleGo g command st
        = (GameState.markRoomVisited targetRoomId
             (GameState.setCurrentRoom targetRoomId st),
           [ Message ("You go " +:+ direction +:+ "." +:+ nl);
             RoomDescription targetRoom
               (getItemsInRoom g (room_id targetRoom) st)
               (getCharactersInRoom g (room_id targetRoom))
               (room_exits targetRoom) ])).
Proof.
  intros direction.
  assert (Htarget : exists targetRoom,
             roomsById g !! targetRoomId = Some targetRoom).
  { apply validated_references_resolve in Hvalid.
    apply index_by_lookup in Hroom as [_ Hin].
    apply truthyValue_Some in Hexit as [Hexit _].
    apply obj_get_In in Hexit.
    apply index_by_covers.
    now apply (proj1 (Hvalid room Hin) _ _ Hexit). }
  destruct Htarget as [targetRoom Htarget].
  assert (Henter : enterRoom g direction targetRoomId st
                   = (GameState.markRoomVisited targetRoomId
                        (GameState.setCurrentRoom targetRoomId st),
                      [ Message ("You go " +:+ direction +:+ "." +:+ nl);
                        RoomDescription targetRoom
                          (getItemsInRoom g (room_id targetRoom) st)
                          (getCharactersInRoom g (room_id targetRoom))
                          (room_exits targetRoom) ])).
  { unfold enterRoom. now rewrite Htarget. }
  unfold handleGo, withState. rewrite Hnoun, Hroom. cbv zeta.
  fold direction in Hexit |- *. rewrite Hexit.
  destruct (obj_get (room_lockedExits room) direction) as [lockedInfo|].
  - destruct (checkUnlockCondition lockedInfo st) eqn:Hunlock.
    + right. exists targetRoom. now split.
    + left. exists lockedInfo. now repeat split.
  - right. exists targetRoom. now split.
Qed.

Lemma validated_exit_is_lock_or_arrival_witness :
  (exists lockedInfo,
     obj_get (room_lockedExits DemoLock.bridge) "east" = Some lockedInfo
     /\ checkUnlockCondition lockedInfo DemoLock.start = false
     /\ handleGo DemoLock.content DemoLock.goEast DemoLock.start
        = (DemoLock.start, [Warning (lockedText lockedInfo "east")]))
  \/
  (exists targetRoom,
     roomsById DemoLock.content !! "corridor" = Some targetRoom
     /\ handleGo DemoLock.content DemoLock.goEast DemoLock.start
        = (GameState.markRoomVisited "corridor"
             (GameState.setCurrentRoom "corridor" DemoLock.start),
           [ Message ("You go " +:+ "east" +:+ "." +:+ nl);
             RoomDescription targetRoom
               (getItemsInRoom DemoLock.content (room_id targetRoom)
                  DemoLock.start)
               (getCharactersInRoom DemoLock.content (room_id targetRoom))
               (room_exits targetRoom) ])).
Proof.
  exact (validated_exit_is_lock_or_arrival DemoLock.content DemoLock.start
           DemoLock.goEast "east" DemoLock.bridge "corridor"
           eq_refl eq_refl eq_refl eq_refl).
Defined.

Example dangling_exit_is_reported :
  ContentLoader.validateContentReferences
    (Demo.game [ Demo.room "bridge" "Bridge" [("east", "nowhere")] []
                   ["ghost"] [] ] [] [] ∅ None)
  = Some ("Content validation failed:" +:+ nl +:+ nl +:+
          "• Room " +:+ dq +:+ "bridge" +:+ dq +:+ ": Exit " +:+ dq +:+ "east"
          +:+ dq +:+ " references unknown room " +:+ dq +:+ "nowhere" +:+ dq
          +:+ nl +:+
          "• Room " +:+ dq +:+ "bridge" +:+ dq +:+ ": Contains unknown item "
          +:+ dq +:+ "ghost" +:+ dq +:+ nl +:+ nl +:+
          "Please check your JSON files for typos or missing definitions.").
Proof. vm_compute. reflexivity. Qed.

(** ** Commands that only observe, and commands that answer *)

(** X15. Examining, listing the inventory, asking for help, quitting, looking
    at something named, an unknown verb and an empty intent change nothing:
    the state after the rule engine ran such an intent is the state before,
    field for field. *)
Theorem observing_commands_change_nothing (g : Content) (command : Command)
    (st : State) (Hobserves : observes command = true) :
  fst (execute g command st) = st.
Proof.
  unfold observes in Hobserves. apply andb_true_iff in Hobserves as [Hdir Hobs].
  apply negb_true_iff in Hdir.
  unfold execute.
  destruct (negb (truthy_str (cmd_verb command))); [reflexivity|].
  rewrite Hdir.
  destruct (obj_get commandHandlers (cmd_verb command)) as [h|];
    [|reflexivity].
  destruct h; try discriminate; cbn [handle].
  - unfold handleLook. rewrite Hobs.
    exact (preserves_handleExamine (fun s => s = st) g command st eq_refl).
  - exact (preserves_handleExamine (fun s => s = st) g command st eq_refl).
  - exact (preserves_handleInventory (fun s => s = st) g command st eq_refl).
  - exact (preserves_handleHelp (fun s => s = st) g command st eq_refl).
  - exact (preserves_handleQuit (fun s => s = st) g command st eq_refl).
Qed.

Lemma observing_commands_change_nothing_witness :
  fst (execute DemoUse.content
         (CommandParser.parse (commands DemoUse.content) "examine the wrench")
         DemoUse.carrying)
  = DemoUse.carrying.
Proof.
  apply observing_commands_change_nothing. vm_compute. reflexivity.
Defined.

Example plain_look_marks_the_room :
  visitedRooms
    (fst (execute DemoUse.content
            (CommandParser.parse (commands DemoUse.content) "look")
            (initialState DemoUse.content)))
  = {[ "bridge" ]} ∪ visitedRooms (initialState DemoUse.content).
Proof. reflexivity. Qed.

Section Speaking.

Lemma speaks_emit (n : Narration) : speaks (emit n).
Proof. intros st. now exists n, []. Qed.

Lemma speaks_andThen_l (a b : Act) : speaks a -> speaks (andThen a b).
Proof.
  intros Ha st. unfold andThen. destruct (Ha st) as (first & rest & Hout).
  destruct (a st) as [st1 out1]. simpl in Hout. subst out1.
  destruct (b st1) as [st2 out2]. now exists first, (rest ++ out2).
Qed.

Lemma speaks_andThen_r (a b : Act) : speaks b -> speaks (andThen a b).
Proof.
  intros Hb st. unfold andThen. destruct (a st) as [st1 out1].
  destruct (Hb st1) as (first & rest & Hout).
  destruct (b st1) as [st2 out2]. simpl in Hout. subst out2. simpl.
  destruct out1 as [|n out1]; simpl; eauto.
Qed.

Lemma speaks_withState (f : State -> Act) :
  (forall s, speaks (f s)) -> speaks (withState f).
Proof. intros Hf st. exact (Hf st st). Qed.

End Speaking.

(** Finds a renderer call along the sequencing and the case analyses. *)
Ltac speak :=
  repeat first
    [ progress cbv zeta
    | match goal with
      | |- speaks (emit _) => apply speaks_emit
      | |- speaks (withState _) => apply speaks_withState; intros ?
      | |- speaks (andThen (emit _) _) => apply speaks_andThen_l, speaks_emit
      | |- speaks (andThen (modify _) _) => apply speaks_andThen_r
      | |- speaks (match ?x with _ => _ end) => destruct x
      end ].

Section SpeakingHandlers.

Variable g : Content.

Lemma speaks_handleGo command : speaks (handleGo g command).
Proof. unfold handleGo, enterRoom, displayRoomDescription. speak. Qed.

Lemma speaks_handleExamine command : speaks (handleExamine g command).
Proof.
  unfold handleExamine, displayItemDescription, displayCharacterDescription.
  speak.
Qed.

Lemma speaks_handleLook command : speaks (handleLook g command).
Proof.
  unfold handleLook.
  destruct (truthy_opt (cmd_noun command)); [apply speaks_handleExamine|].
  unfold displayRoomDescription. speak.
Qed.

Lemma speaks_handleTake command : speaks (handleTake g command).
Proof. unfold handleTake. speak. Qed.

Lemma speaks_handleDrop command : speaks (handleDrop g command).
Proof. unfold handleDrop. speak. Qed.

Lemma speaks_handleInventory command : speaks (handleInventory g command).
Proof. unfold handleInventory. speak. Qed.

Lemma speaks_handleTalk command : speaks (handleTalk g command).
Proof. unfold handleTalk, runDialogue, displayDialogueNode. speak. Qed.

End SpeakingHandlers.



(** A use can pass in silence: the switch sets its flag and nothing is
    narrated. *)
Example silent_use :
  execute DemoSilent.content
    (CommandParser.parse (commands DemoSilent.content) "use switch")
    DemoSilent.carrying
  = (GameState.setFlag "power" (FBool true) DemoSilent.carrying, []).
Proof. vm_compute. reflexivity. Qed.

(** ** Dropping and consuming *)

Section LeavingTheInventory.

Lemma arrIncludes_alike (l1 l2 : list string) (x : string) :
  (In x l1 <-> In x l2) -> arrIncludes l1 x = arrIncludes l2 x.
Proof.
  intros Hiff. destruct (arrIncludes l2 x) eqn:H2.
  - apply arrIncludes_In, Hiff, arrIncludes_In, H2.
  - apply arrIncludes_false. intros H1. apply arrIncludes_false in H2.
    apply H2, Hiff, H1.
Qed.

Lemma hasItem_removeItem_same itemId st :
  List.NoDup (inventory st) ->
  GameState.hasItem itemId (GameState.removeItem itemId st) = false.
Proof.
  intros Hnd. unfold GameState.hasItem. simpl.
  apply arrIncludes_false. now apply spliceFirst_gone.
Qed.

Lemma hasItem_removeItem_other itemId other st :
  other <> itemId ->
  GameState.hasItem other (GameState.removeItem itemId st)
  = GameState.hasItem other st.
Proof.
  intros Hne. unfold GameState.hasItem. simpl. apply arrIncludes_alike.
  split; [apply spliceFirst_In | now apply spliceFirst_other].
Qed.

Lemma andThen_fst (a b : Act) st :
  fst (andThen a b st) = fst (b (fst (a st))).
Proof.
  unfold andThen. destruct (a st) as [st1 out1]. simpl.
  now destruct (b st1).
Qed.

End LeavingTheInventory.

(** X17. Dropping puts the item down where the player stands: when the noun
    names a carried item and the inventory holds no item twice, after
    [handleDrop] the item is not carried, its location record is the current
    room, the state lists it among the items of that room, the player has
    not moved, every other item is carried and located as before, and the
    one line narrated is the drop message. *)
Theorem dropped_item_lies_in_the_room (g : Content) (command : Command)
    (noun : string) (item : Item) (st : State)
    (Hnoun : truthyValue (cmd_noun command) = Some noun)
    (Hfound : findItemInInventory g (toLowerCase noun) st = Some item)
    (Hnodup : List.NoDup (inventory st)) :
  let st' := fst (handleDrop g command st) in
  snd (handleDrop g command st)
  = [Success ("You drop the " +:+ item_name item +:+ ".")]
  /\ GameState.hasItem (item_id item) st' = false
  /\ GameState.getItemLocation (item_id item) st' = Some (currentRoomId st)
  /\ In (item_id item) (GameState.getItemsInRoom (currentRoomId st) st')
  /\ currentRoomId st' = currentRoomId st
  /\ (forall other, other <> item_id item ->
        GameState.hasItem other st' = GameState.hasItem other st
        /\ GameState.getItemLocation other st'
           = GameState.getItemLocation other st).
Proof.
  assert (Hrun : handleDrop g command st
                 = (GameState.setItemLocation (item_id item) (currentRoomId st)
                      (GameState.removeItem (item_id item) st),
                    [Success ("You drop the " +:+ item_name item +:+ ".")])).
  { unfold handleDrop, withState. rewrite Hnoun. cbv zeta. rewrite Hfound.
    reflexivity. }
  rewrite Hrun. cbv zeta. cbn [fst snd].
  assert (Hlocated :
            GameState.getItemLocation (item_id item)
              (GameState.setItemLocation (item_id item) (currentRoomId st)
                 (GameState.removeItem (item_id item) st))
            = Some (currentRoomId st)).
  { rewrite setItemLocation_lookup. now rewrite String.eqb_refl. }
  split; [reflexivity|].
  split; [exact (hasItem_removeItem_same (item_id item) st Hnodup)|].
  split; [exact Hlocated|].
  split; [now apply located_in_room|].
  split; [reflexivity|].
  intros other Hother. split.
  - exact (hasItem_removeItem_other (item_id item) other st Hother).
  - rewrite setItemLocation_lookup.
    destruct (String.eqb_spec (item_id item) other) as [Heq|_];
      [now contradiction Hother | reflexivity].
Qed.

Lemma dropped_item_lies_in_the_room_witness :
  let st' := fst (handleDrop DemoUse.content
                    (CommandParser.parse (commands DemoUse.content)
                       "drop the spanner")
                    DemoUse.carrying) in
  snd (handleDrop DemoUse.content
         (CommandParser.parse (commands DemoUse.content) "drop the spanner")
         DemoUse.carrying)
  = [Success ("You drop the " +:+ item_name DemoUse.wrench +:+ ".")]
  /\ GameState.hasItem (item_id DemoUse.wrench) st' = false
  /\ GameState.getItemLocation (item_id DemoUse.wrench) st'
     = Some (currentRoomId DemoUse.carrying)
  /\ In (item_id DemoUse.wrench)
        (GameState.getItemsInRoom (currentRoomId DemoUse.carrying) st')
  /\ currentRoomId st' = currentRoomId DemoUse.carrying
  /\ (forall other, other <> item_id DemoUse.wrench ->
        GameState.hasItem other st' = GameState.hasItem other DemoUse.carrying
        /\ GameState.getItemLocation other st'
           = GameState.getItemLocation other DemoUse.carrying).
Proof.
  apply (dropped_item_lies_in_the_room DemoUse.content _ "spanner").
  - vm_compute. reflexivity.
  - vm_compute. reflexivity.
  - vm_compute. constructor; [intros [] | constructor].
Defined.

(** X18. A use action that consumes its item really removes it: whatever
    else the action does (message, flag, gift, even the gift of the very same
    item), when the inventory held no item twice the used item is not carried
    afterwards and its location record is "nowhere". *)
Theorem consumed_item_is_gone (g : Content) (item : Item) (action : UseAction)
    (st : State)
    (Hconsume : ua_consume action = true)
    (Hnodup : List.NoDup (inventory st)) :
  let st' := fst (executeUseAction g item action st) in
  GameState.hasItem (item_id item) st' = false
  /\ GameState.getItemLocation (item_id item) st' = Some "nowhere"
  /\ In (item_id item) (GameState.getItemsInRoom "nowhere" st').
Proof.
  cbv zeta. unfold executeUseAction. rewrite Hconsume. cbn [when].
  rewrite !andThen_fst. cbn [modify fst].
  set (afterGift :=
         fst (ifTruthy (ua_giveItem action)
                (fun itemId =>
                   giveItemTo g itemId
                     (fun givenItem =>
                        Message ("You obtained: " +:+ item_name givenItem)))
                (fst (ifTruthy (ua_setFlag action)
                        (fun flagName =>
                           modify (GameState.setFlag flagName (FBool true)))
                        (fst (ifTruthy (ua_message action)
                                (fun message => emit (Success message))
                                st)))))).
  assert (Hkept : List.NoDup (inventory afterGift)).
  { subst afterGift.
    set (I := fun s : State => List.NoDup (inventory s)).
    assert (H1 : preserves I (ifTruthy (ua_message action)
                                (fun message => emit (Success message)))).
    { preserve_with ltac:(idtac; fail). }
    assert (H2 : preserves I (ifTruthy (ua_setFlag action)
                                (fun flagName =>
                                   modify (GameState.setFlag flagName
                                             (FBool true))))).
    { preserve_with ltac:(idtac; apply preserves_modify;
                          let x := fresh in let Hx := fresh in
                          intros x Hx; exact Hx). }
    assert (H3 : preserves I
                   (ifTruthy (ua_giveItem action)
                      (fun itemId =>
                         giveItemTo g itemId
                           (fun givenItem =>
                              Message ("You obtained: " +:+
                                       item_name givenItem))))).
    { unfold giveItemTo.
      preserve_with ltac:(idtac; apply preserves_modify;
                          let x := fresh in
                          intros x; apply addItem_NoDup). }
    apply H3, H2, H1, Hnodup. }
  assert (Hlocated :
            GameState.getItemLocation (item_id item)
              (GameState.setItemLocation (item_id item) "nowhere"
                 (GameState.removeItem (item_id item) afterGift))
            = Some "nowhere").
  { rewrite setItemLocation_lookup. now rewrite String.eqb_refl. }
  split; [exact (hasItem_removeItem_same (item_id item) afterGift Hkept)|].
  split; [exact Hlocated | now apply located_in_room].
Qed.

Lemma consumed_item_is_gone_witness :
  let st' := fst (executeUseAction DemoRation.content DemoRation.ration
                    DemoRation.eat DemoRation.carrying) in
  GameState.hasItem (item_id DemoRation.ration) st' = false
  /\ GameState.getItemLocation (item_id DemoRation.ration) st' = Some "nowhere"
  /\ In (item_id DemoRation.ration) (GameState.getItemsInRoom "nowhere" st').
Proof.
  apply consumed_item_is_gone.
  - reflexivity.
  - vm_compute. constructor; [intros [] | constructor].
Defined.

Example ration_eaten :
  execute DemoRation.content
    (CommandParser.parse (commands DemoRation.content) "use ration")
    DemoRation.carrying
  = (GameState.setItemLocation "ration" "nowhere"
       (GameState.removeItem "ration"
          (GameState.addItem "wrapper"
             (GameState.setFlag "fed" (FBool true) DemoRation.carrying))),
     [ Success "You eat the ration."; Message "You obtained: Wrapper" ]).
Proof. vm_compute. reflexivity. Qed.

(** ** Conversations *)

Section DialoguePointer.

Lemma displayDialogueNode_opens (g : Content) (character : Character)
    (node : DialogueNode) (st : State) :
  hd_error (snd (displayDialogueNode g character node st))
  = Some (Dialogue (char_name character) (node_text node)).
Proof.
  unfold displayDialogueNode, andThen at 1. cbn [emit].
  match goal with |- context [let '(_, _) := ?rest in _] => destruct rest end.
  reflexivity.
Qed.

Lemma findNode_first (first : DialogueNode) (rest : list DialogueNode) :
  findNode (first :: rest) (node_id first) = Some first.
Proof. unfold findNode. simpl. now rewrite String.eqb_refl. Qed.

Lemma displayDialogueNode_advances (g : Content) (character : Character)
    (node : DialogueNode) (next : string) (st : State) :
  truthyValue (node_nextNode node) = Some next ->
  GameState.getDialogueState (char_id character)
    (fst (displayDialogueNode g character node st))
  = Some next.
Proof.
  intros Hnext. unfold displayDialogueNode. rewrite Hnext.
  rewrite !andThen_fst. cbn [modify fst].
  unfold GameState.getDialogueState. simpl. apply lookup_insert_eq.
Qed.

End DialoguePointer.

(** X19. A conversation follows [nextNode]: when the node the pointer of a
    character names has a next node, talking stores that id as the pointer,
    and the following talk opens with the text of the node of that id; when
    no node of the character has that id, the following talk starts over
    with the first node. *)
Theorem conversation_follows_nextNode (g : Content) (character : Character)
    (first node : DialogueNode) (rest : list DialogueNode) (next : string)
    (st : State)
    (Hdialogue : char_dialogue character = first :: rest)
    (Hcurrent : findNode (char_dialogue character)
                  (or_else (GameState.getDialogueState (char_id character) st)
                           (node_id first))
                = Some node)
    (Hnext : truthyValue (node_nextNode node) = Some next) :
  let st1 := fst (runDialogue g character st) in
  hd_error (snd (runDialogue g character st))
  = Some (Dialogue (char_name character) (node_text node))
  /\ GameState.getDialogueState (char_id character) st1 = Some next
  /\ (forall node2,
        findNode (char_dialogue character) next = Some node2 ->
        hd_error (snd (runDialogue g character st1))
        = Some (Dialogue (char_name character) (node_text node2)))
  /\ (findNode (char_dialogue character) next = None ->
      hd_error (snd (runDialogue g character st1))
      = Some (Dialogue (char_name character) (node_text first))).
Proof.
  assert (Hrun : forall s,
             runDialogue g character s
             = match findNode (char_dialogue character)
                       (or_else (GameState.getDialogueState
                                   (char_id character) s)
                                (node_id first)) with
               | Some found => displayDialogueNode g character found s
               | None => displayDialogueNode g character first s
               end).
  { intros s. unfold runDialogue, withState. rewrite Hdialogue.
    cbv beta iota zeta. now destruct (findNode (first :: rest) _). }
  cbv zeta. rewrite (Hrun st), Hcurrent.
  pose proof (displayDialogueNode_advances g character node next st Hnext)
    as Hpointer.
  set (st1 := fst (displayDialogueNode g character node st)) in *.
  split; [apply displayDialogueNode_opens|].
  split; [exact Hpointer|].
  assert (Hnow : or_else (GameState.getDialogueState (char_id character) st1)
                         (node_id first) = next).
  { rewrite Hpointer. apply truthyValue_Some in Hnext as [_ Htruthy].
    unfold or_else, truthy_str.
    now destruct (String.eqb_spec next EmptyString). }
  split.
  - intros node2 Hnode2. rewrite (Hrun st1), Hnow, Hnode2.
    apply displayDialogueNode_opens.
  - intros Hdangling. rewrite (Hrun st1), Hnow, Hdangling.
    apply displayDialogueNode_opens.
Qed.

Lemma conversation_follows_nextNode_witness :
  let st1 := fst (runDialogue DemoTalk.content DemoTalk.park
                    (initialState DemoTalk.content)) in
  hd_error (snd (runDialogue DemoTalk.content DemoTalk.park
                   (initialState DemoTalk.content)))
  = Some (Dialogue (char_name DemoTalk.park) (node_text DemoTalk.initial))
  /\ GameState.getDialogueState (char_id DemoTalk.park) st1 = Some "second"
  /\ (forall node2,
        findNode (char_dialogue DemoTalk.park) "second" = Some node2 ->
        hd_error (snd (runDialogue DemoTalk.content DemoTalk.park st1))
        = Some (Dialogue (char_name DemoTalk.park) (node_text node2)))
  /\ (findNode (char_dialogue DemoTalk.park) "second" = None ->
      hd_error (snd (runDialogue DemoTalk.content DemoTalk.park st1))
      = Some (Dialogue (char_name DemoTalk.park)
                (node_text DemoTalk.initial))).
Proof.
  exact (conversation_follows_nextNode DemoTalk.content DemoTalk.park
           DemoTalk.initial DemoTalk.initial
           [DemoTalk.second; DemoTalk.waiting] "second"
           (initialState DemoTalk.content) eq_refl eq_refl eq_refl).
Defined.

(** X20. A conversation opens with the first node: a character with a
    dialogue and no pointer yet says the text of the first node of the
    dialogue, and in a new session no character has a pointer. *)
Theorem conversation_opens_with_first_node (g : Content)
    (character : Character) (first : DialogueNode) (rest : list DialogueNode)
    (st : State)
    (Hdialogue : char_dialogue character = first :: rest)
    (Hfresh : GameState.getDialogueState (char_id character) st = None) :
  hd_error (snd (runDialogue g character st))
  = Some (Dialogue (char_name character) (node_text first))
  /\ GameState.getDialogueState (char_id character) (initialState g) = None.
Proof.
  split.
  - unfold runDialogue, withState. rewrite Hdialogue. cbv beta iota zeta.
    rewrite Hfresh. cbn [or_else]. rewrite findNode_first.
    apply displayDialogueNode_opens.
  - unfold initialState, GameState.initializeItemLocations.
    apply (foldl_keeps
             (fun s => GameState.getDialogueState (char_id character) s = None));
      [|reflexivity].
    intros s room _ Hs.
    now apply (foldl_keeps
                 (fun s' => GameState.getDialogueState (char_id character) s'
                            = None)).
Qed.

Lemma conversation_opens_with_first_node_witness :
  hd_error (snd (runDialogue DemoTalk.content DemoTalk.park
                   (initialState DemoTalk.content)))
  = Some (Dialogue (char_name DemoTalk.park) (node_text DemoTalk.initial))
  /\ GameState.getDialogueState (char_id DemoTalk.park)
       (initialState DemoTalk.content) = None.
Proof.
  exact (conversation_opens_with_first_node DemoTalk.content DemoTalk.park
           DemoTalk.initial [DemoTalk.second; DemoTalk.waiting]
           (initialState DemoTalk.content) eq_refl eq_refl).
Defined.

(** ** The suggested commands *)

(** X21. The suggestion list has at most eight entries and starts with
    "look". "inventory" is the ninth candidate, so it is suggested exactly
    when fewer than two items are shown, or fewer than two characters are
    present, or the room has fewer than three exits. *)
Theorem suggestions_are_bounded (shown : list Item) (present : list Character)
    (exits : list (string * string)) :
  let suggestions := Renderer.generateSuggestions shown present exits in
  List.length suggestions <= 8
  /\ hd_error suggestions = Some "look"
  /\ (In "inventory" suggestions <->
      List.length shown < 2 \/ List.length present < 2
      \/ List.length exits < 3).
Proof.
  cbv zeta. unfold Renderer.generateSuggestions.
  split; [rewrite length_take; lia|].
  split; [reflexivity|].
  destruct shown as [|item1 [|item2 shown]];
    destruct present as [|char1 [|char2 present]];
    destruct exits as [|[dir1 target1] [|[dir2 target2] [|[dir3 target3] exits]]];
    cbn [take map app obj_keys fst List.length List.In];
    rewrite ?take_0;
    cbn [take map app obj_keys fst List.length List.In];
    try (split; [intros _; lia | intros _; tauto]).
  split.
  - intros [Heq|[Heq|[Heq|[Heq|[Heq|[Heq|[Heq|[Heq|[]]]]]]]]];
      discriminate Heq.
  - intros Hfew. exfalso. lia.
Qed.

Example crowded_room_hides_inventory :
  Renderer.generateSuggestions
    [ DemoUse.wrench; DemoUse.panel ]
    [ DemoTalk.park; DemoTalk.park ]
    [ ("north", "a"); ("south", "b"); ("east", "c"); ("west", "d") ]
  = [ "look"; "examine wrench"; "examine access panel";
      "talk lieutenant"; "talk lieutenant";
      "go north"; "go south"; "go east" ].
Proof. vm_compute. reflexivity. Qed.

(** ** Submitting the input field *)

Section Trimming.

Lemma trimStart_blank (s : string) :
  trimStart s = EmptyString <-> allChars is_space s.
Proof.
  induction s as [|ch s IH]; simpl.
  - split; [intros _; apply allChars_empty | reflexivity].
  - rewrite allChars_cons. destruct (is_space ch).
    + rewrite IH. tauto.
    + split; [discriminate | intros [Hch _]; discriminate Hch].
Qed.

Lemma trimStart_shape (s : string) :
  trimStart s = EmptyString
  \/ exists ch rest, trimStart s = String ch rest /\ is_space ch = false.
Proof.
  induction s as [|ch s IH]; simpl; [now left|].
  destruct (is_space ch) eqn:Hch; [exact IH|].
  right. now exists ch, s.
Qed.

Lemma trimEnd_head (ch : ascii) (rest : string) :
  is_space ch = false ->
  exists rest', trimEnd (String ch rest) = String ch rest'.
Proof.
  intros Hch. simpl. destruct (trimEnd rest) as [|ch' rest'].
  - rewrite Hch. now exists EmptyString.
  - now exists (String ch' rest').
Qed.

Lemma trimEnd_idempotent (s : string) : trimEnd (trimEnd s) = trimEnd s.
Proof.
  induction s as [|ch s IH]; simpl; [reflexivity|].
  destruct (trimEnd s) as [|ch' rest'] eqn:Hend.
  - destruct (is_space ch) eqn:Hch; simpl; [reflexivity|].
    now rewrite Hch.
  - cbn [trimEnd]. cbn [trimEnd] in IH. now rewrite IH.
Qed.

Lemma trim_idempotent (s : string) : trim (trim s) = trim s.
Proof.
  unfold trim.
  destruct (trimStart_shape s) as [->|(ch & rest & -> & Hch)];
    [reflexivity|].
  destruct (trimEnd_head ch rest Hch) as [rest' Hend].
  rewrite Hend at 1. cbn [trimStart]. rewrite Hch. rewrite <- Hend.
  apply trimEnd_idempotent.
Qed.

Lemma trim_blank (s : string) : trim s = EmptyString <-> allChars is_space s.
Proof.
  rewrite <- trimStart_blank. unfold trim.
  destruct (trimStart_shape s) as [->|(ch & rest & -> & Hch)];
    [tauto|].
  destruct (trimEnd_head ch rest Hch) as [rest' ->].
  split; discriminate.
Qed.

End Trimming.

(** X22. Submitting the input field does nothing exactly when the field
    holds white space only. Otherwise the trimmed text is what runs: the
    text becomes the most recent history entry without its surrounding white
    space, the history cursor is back on the fresh input, and white space
    around the text makes no difference to the outcome. *)
Theorem submitCommand_runs_trimmed_text (g : Content) (value : string)
    (st : State) :
  (Main.submitCommand g value st = None <-> allChars is_space value)
  /\ Main.submitCommand g (trim value) st = Main.submitCommand g value st
  /\ (forall r,
        Main.submitCommand g value st = Some r ->
        r = Main.executeCommand g (trim value) st
        /\ last (commandHistory (Main.final r)) = Some (trim value)
        /\ historyIndex (Main.final r) = (-1)%Z).
Proof.
  unfold Main.submitCommand. cbv zeta. rewrite trim_idempotent.
  split; [|split; [reflexivity|]].
  - rewrite <- trim_blank.
    destruct (String.eqb_spec (trim value) EmptyString) as [Heq|Hne];
      split; congruence.
  - intros r.
    destruct (String.eqb_spec (trim value) EmptyString) as [Heq|Hne];
      [discriminate|].
    intros [= <-]. split; [reflexivity|].
    destruct (executeCommand_history_fields g (trim value) st)
      as (Hh & Hi & _).
    rewrite Hh, Hi.
    assert (Hnonblank : trim (trim value) <> EmptyString)
      by now rewrite trim_idempotent.
    destruct (addToHistory_records (trim value) st Hnonblank)
      as (Hlast & Hindex & _).
    now split.
Qed.

Example padded_command_is_recorded_trimmed :
  option_map (fun r => commandHistory (Main.final r))
    (Main.submitCommand DemoUse.content "   take wrench  "
       (initialState DemoUse.content))
  = Some ["take wrench"]
  /\ Main.submitCommand DemoUse.content "    "
       (initialState DemoUse.content) = None.
Proof. vm_compute. split; reflexivity. Qed.

(** ** A direction typed alone *)

Section BareDirection.

Lemma handleGo_alike (g : Content) (c1 c2 : Command) (noun1 noun2 : string)
    (st : State) :
  truthyValue (cmd_noun c1) = Some noun1 ->
  truthyValue (cmd_noun c2) = Some noun2 ->
  resolveDirectionSynonym (toLowerCase noun1)
  = resolveDirectionSynonym (toLowerCase noun2) ->
  handleGo g c1 st = handleGo g c2 st.
Proof.
  intros H1 H2 Hsame. unfold handleGo, withState. rewrite H1, H2.
  cbv zeta. now rewrite Hsame.
Qed.

Lemma validDirections_words (d : string) :
  In d validDirections ->
  CommandParser.cleanTokens d = [d]
  /\ CommandParser.cleanTokens ("go " +:+ d) = ["go"; d]
  /\ toLowerCase d = d
  /\ isDirection d = true
  /\ d <> EmptyString.
Proof.
  unfold validDirections. cbn [In].
  intros Hd.
  repeat (destruct Hd as [<-|Hd];
          [ vm_compute; repeat split; discriminate | ]).
  destruct Hd.
Qed.

End BareDirection.

(** X23. A direction word typed alone moves like "go" followed by that word:
    for each of the twenty direction words the rule engine knows, when the
    verb-synonym table of the content leaves the word and "go" alone and the
    direction table of the content sends the word to one the rule engine
    resolves alike, both inputs leave the same state and the same
    narration. *)
Theorem bare_direction_moves_like_go (g : Content) (d : string) (st : State)
    (Hd : In d validDirections)
    (Hverb : CommandParser.resolveVerbSynonym (commands g) d = d)
    (Hgo : CommandParser.resolveVerbSynonym (commands g) "go" = "go")
    (Hdir : resolveDirectionSynonym
              (toLowerCase (CommandParser.resolveDirection (commands g) d))
            = resolveDirectionSynonym d) :
  execute g (CommandParser.parse (commands g) d) st
  = execute g (CommandParser.parse (commands g) ("go " +:+ d)) st.
Proof.
  destruct (validDirections_words d Hd) as (Hc1 & Hc2 & Hlow & Hisdir & Hne).
  rewrite (parse_of_cleanTokens _ _ _ _ Hc1), (parse_of_cleanTokens _ _ _ _ Hc2).
  cbv zeta. rewrite Hverb, Hgo.
  rewrite (parseNounPhrase_movement (commands g) d [] "go") by (now left).
  cbn [CommandParser.parseNounPhrase].
  unfold execute. cbn [cmd_verb].
  assert (Htruthy : truthy_str d = true).
  { unfold truthy_str. now destruct (String.eqb_spec d EmptyString). }
  rewrite Htruthy, Hisdir. cbn [negb truthy_str String.eqb Ascii.eqb
                                 Bool.eqb andb].
  change (isDirection "go") with false. cbv iota.
  change (obj_get commandHandlers "go") with (Some HGo). cbn [handle].
  apply (handleGo_alike g _ _ d
           (or_else (directions (commands g) !! toLowerCase d) (toLowerCase d))).
  - cbn [withNoun cmd_noun]. apply truthyValue_Some. now split.
  - cbn [cmd_noun]. apply truthyValue_Some. split; [reflexivity|].
    apply or_else_nonempty. now rewrite Hlow.
  - rewrite Hlow at 1. symmetry. exact Hdir.
Qed.

Lemma bare_direction_moves_like_go_witness :
  execute DemoShort.content
    (CommandParser.parse (commands DemoShort.content) "n")
    (initialState DemoShort.content)
  = execute DemoShort.content
      (CommandParser.parse (commands DemoShort.content) ("go " +:+ "n"))
      (initialState DemoShort.content).
Proof.
  apply bare_direction_moves_like_go.
  - vm_compute. tauto.
  - vm_compute. reflexivity.
  - vm_compute. reflexivity.
  - vm_compute. reflexivity.
Defined.

(** Where the direction table of the content disagrees with the rule engine,
    the two inputs part: "go n" follows the table to the exit "nord", "n"
    alone is resolved by the rule engine to "north". *)
Example bare_direction_ignores_content_table :
  currentRoomId
    (fst (execute DemoNord.content
            (CommandParser.parse (commands DemoNord.content) "go n")
            DemoNord.start)) = "corridor"
  /\ execute DemoNord.content
       (CommandParser.parse (commands DemoNord.content) "n") DemoNord.start
     = (DemoNord.start,
        [ Error "You can't go north from here.";
          Message "Available exits: nord" ]).
Proof. vm_compute. split; reflexivity. Qed.

(** ** Locating a JSON error *)

Section Lines.

Lemma splitLines_nonempty (text : string) : ContentLoader.splitLines text <> [].
Proof.
  destruct text as [|c r]; simpl; [discriminate|].
  destruct (Ascii.eqb c (ascii_of_nat 10)); [discriminate|].
  destruct (ContentLoader.splitLines r); discriminate.
Qed.

Lemma splitLines_prefix (text : string) (position : nat) :
  position <= String.length text ->
  let lines := ContentLoader.splitLines (ContentLoader.substring0 position text) in
  let allLines := ContentLoader.splitLines text in
  1 <= List.length lines <= List.length allLines
  /\ position
     = sum_list (map (fun l => String.length l + 1)
                     (take (List.length lines - 1) allLines))
       + String.length (List.last lines EmptyString)
  /\ exists full,
       allLines !! (List.length lines - 1) = Some full
       /\ String.length (List.last lines EmptyString) <= String.length full.
Proof.
  revert position. induction text as [|c r IH]; intros position Hle.
  - simpl in Hle. assert (position = 0) by lia. subst. simpl.
    split; [lia|]. split; [reflexivity|]. exists EmptyString.
    split; [reflexivity|lia].
  - destruct position as [|p].
    + cbn [ContentLoader.substring0 ContentLoader.splitLines List.length List.last].
      destruct (Ascii.eqb c (ascii_of_nat 10)).
      * simpl. split; [lia|]. split; [reflexivity|]. exists EmptyString.
        split; [reflexivity|lia].
      * pose proof (splitLines_nonempty r) as Hne.
        destruct (ContentLoader.splitLines r) as [|current rest]; [contradiction|].
        simpl. split; [lia|]. split; [reflexivity|].
        exists (String c current). split; [reflexivity|lia].
    + simpl in Hle. assert (Hp : p <= String.length r) by lia.
      specialize (IH p Hp). cbv zeta in IH.
      destruct IH as ((Hlo & Hhi) & Hpos & full & Hfull & Hlen).
      cbn [ContentLoader.substring0 ContentLoader.splitLines].
      pose proof (splitLines_nonempty r) as Hne.
      pose proof (splitLines_nonempty (ContentLoader.substring0 p r)) as Hnep.
      destruct (Ascii.eqb c (ascii_of_nat 10)).
      * destruct (ContentLoader.splitLines (ContentLoader.substring0 p r)) as [|first others] eqn:Hlines;
          [contradiction|].
        cbn [List.length] in *.
        replace (S (S (List.length others)) - 1) with
          (S (S (List.length others) - 1)) by lia.
        cbn [take map sum_list lookup list_lookup].
        change (List.last ("" :: first :: others) "")
          with (List.last (first :: others) "").
        split; [lia|]. split; [unfold id in *; cbn [String.length]; lia|].
        exists full. split; [exact Hfull | exact Hlen].
      * destruct (ContentLoader.splitLines r) as [|current rest]; [contradiction|].
        destruct (ContentLoader.splitLines (ContentLoader.substring0 p r)) as [|first others] eqn:Hlines;
          [contradiction|].
        cbn [List.length] in *.
        destruct others as [|second others].
        -- cbn [List.length] in *. simpl in Hpos, Hfull, Hlen |- *.
           injection Hfull as <-.
           split; [lia|]. split; [lia|].
           exists (String c current). split; [reflexivity|simpl; lia].
        -- cbn [List.length] in *.
           replace (S (S (List.length others)) - 1) with
             (S (List.length others)) in * by lia.
           cbn [take map sum_list lookup list_lookup] in *.
           change (List.last (String c first :: second :: others) "")
             with (List.last (second :: others) "").
           change (List.last (first :: second :: others) "")
             with (List.last (second :: others) "") in Hpos, Hlen.
           split; [lia|].
           split; [unfold id in *; cbn [String.length] in *; lia|].
           exists full. split; [exact Hfull | exact Hlen].
Qed.
End Lines.

(** X24. The line and the character [getLineFromPosition] reports locate the
    position: for a position inside the text, the line number is that of a
    line of the text, the lengths of the lines before it, each with its line
    feed, plus the characters before the reported character add up to the
    position, the reported character lies on that line or just after its
    end, and the context is that line, trimmed. *)
Theorem line_and_character_locate_position (text : string) (position : nat)
    (Hinside : position <= String.length text) :
  let info := ContentLoader.getLineFromPosition text position in
  let allLines := ContentLoader.splitLines text in
  1 <= ContentLoader.li_line info <= List.length allLines
  /\ 1 <= ContentLoader.li_character info
  /\ position
     = sum_list (map (fun l => String.length l + 1)
                     (take (ContentLoader.li_line info - 1) allLines))
       + (ContentLoader.li_character info - 1)
  /\ exists full,
       allLines !! (ContentLoader.li_line info - 1) = Some full
       /\ ContentLoader.li_character info - 1 <= String.length full
       /\ ContentLoader.li_context info = trim full.
Proof.
  cbv zeta. unfold ContentLoader.getLineFromPosition.
  cbn [ContentLoader.li_line ContentLoader.li_character
       ContentLoader.li_context].
  destruct (splitLines_prefix text position Hinside)
    as (Hrange & Hpos & full & Hfull & Hlen).
  split; [exact Hrange|]. split; [lia|]. split; [lia|].
  exists full. split; [exact Hfull|]. split; [lia|].
  rewrite Hfull. unfold or_else, truthy_str.
  now destruct (String.eqb_spec full EmptyString) as [->|_].
Qed.

Lemma line_and_character_locate_position_witness :
  let text := "[" +:+ nl +:+ "  {,}" +:+ nl +:+ "]" in
  let info := ContentLoader.getLineFromPosition text 5 in
  let allLines := ContentLoader.splitLines text in
  1 <= ContentLoader.li_line info <= List.length allLines
  /\ 1 <= ContentLoader.li_character info
  /\ 5 = sum_list (map (fun l => String.length l + 1)
                      (take (ContentLoader.li_line info - 1) allLines))
         + (ContentLoader.li_character info - 1)
  /\ exists full,
       allLines !! (ContentLoader.li_line info - 1) = Some full
       /\ ContentLoader.li_character info - 1 <= String.length full
       /\ ContentLoader.li_context info = trim full.
Proof.
  apply (line_and_character_locate_position
           ("[" +:+ nl +:+ "  {,}" +:+ nl +:+ "]") 5).
  vm_compute. lia.
Defined.

Example comma_on_line_two :
  ContentLoader.getLineFromPosition
    ("[" +:+ nl +:+ "  {,}" +:+ nl +:+ "]") 5
  = {| ContentLoader.li_line := 2; ContentLoader.li_character := 4;
       ContentLoader.li_context := "{,}" |}.
Proof. vm_compute. reflexivity. Qed.
